(** * Annotation of a parsed Python AST: [vyper/ast/annotation.py]

    A shallow embedding of the three visitors of [annotation.py] and of the
    entry point [annotate_python_ast], followed by the properties of the
    annotation core.

    Host model.  The visitors subclass CPython's [ast.NodeTransformer]
    (Python 3.8, the version the source comments name): literals are
    [ast.Constant] nodes, [ast.Num] is the compatibility class whose
    [isinstance] hook inspects the constant's value, and [Constant.n] is
    an alias of [Constant.value].  An exception unwinds the whole call, so
    fallible code lives in an error monad.

    The code is embedded twice.  On [node], a tree with the attributes
    of a node at its position, the visitors are structural functions;
    this is the view for what is said of one position at a time.  On
    [object] and [heap], a store of node objects that name their
    children by identity, the visitors thread the store; this is the
    view for objects that sit at several positions or are reached by
    several calls, and for the interpreter's recursion limit. *)

From Stdlib Require Import ZArith String List Lia Floats DecimalString Sorted.
From stdpp Require Import base option list gmap strings.
Import ListNotations.

#[local] Set Warnings "-register-all".
Local Open Scope string_scope.
Local Open Scope Z_scope.
Local Open Scope list_scope.

(** ** Values held by constant nodes *)

(** The values CPython stores in [Constant.value].  [int] is unbounded,
    [float] is a binary64, [complex] a pair of binary64. *)
Inductive pyvalue : Type :=
| VNone
| VBool (b : bool)
| VInt (z : Z)
| VFloat (f : float)
| VComplex (re im : float)
| VStr (s : string)
| VBytes (bs : list Byte.byte)
| VEllipsis.

(** [value is None] *)
Definition is_None (v : pyvalue) : bool :=
  match v with VNone => true | _ => false end.

(** [isinstance(value, bool)] *)
Definition isinstance_bool (v : pyvalue) : bool :=
  match v with VBool _ => true | _ => false end.

(** [isinstance(value, int)]: [bool] is a subclass of [int]. *)
Definition isinstance_int (v : pyvalue) : bool :=
  match v with VBool _ | VInt _ => true | _ => false end.

(** [isinstance(value, float)] *)
Definition isinstance_float (v : pyvalue) : bool :=
  match v with VFloat _ => true | _ => false end.

(** [isinstance(value, complex)] *)
Definition isinstance_complex (v : pyvalue) : bool :=
  match v with VComplex _ _ => true | _ => false end.

(** [isinstance(value, str)] *)
Definition isinstance_str (v : pyvalue) : bool :=
  match v with VStr _ => true | _ => false end.

(** [isinstance(value, bytes)] *)
Definition isinstance_bytes (v : pyvalue) : bool :=
  match v with VBytes _ => true | _ => false end.

(** ** Tokens and node attributes *)

(** The fields of an [asttokens] token that the source reads: [start] and
    [end] are (line, column) pairs, [startpos] and [endpos] offsets into
    the source text. *)
Record Token : Type := mkToken {
  start : Z * Z;
  end_ : Z * Z;
  startpos : Z;
  endpos : Z
}.

(** The attributes a node object carries besides its fields.  For
    [first_token] and [last_token], [None] means that the attribute is
    absent ([hasattr] is false); for the position attributes [None] is
    Python's [None]; the others are [None] until a pass assigns them. *)
Record attrs : Type := mkAttrs {
  lineno : option Z;
  col_offset : option Z;
  end_lineno : option Z;
  end_col_offset : option Z;
  source_code : option string;
  node_id : option nat;
  ast_type : option string;
  class_type : option string;
  first_token : option Token;
  last_token : option Token;
  src : option string
}.

Definition set_lineno (x : option Z) (a : attrs) : attrs :=
  mkAttrs x (col_offset a) (end_lineno a) (end_col_offset a) (source_code a)
    (node_id a) (ast_type a) (class_type a) (first_token a) (last_token a) (src a).

Definition set_col_offset (x : option Z) (a : attrs) : attrs :=
  mkAttrs (lineno a) x (end_lineno a) (end_col_offset a) (source_code a)
    (node_id a) (ast_type a) (class_type a) (first_token a) (last_token a) (src a).

Definition set_end_lineno (x : option Z) (a : attrs) : attrs :=
  mkAttrs (lineno a) (col_offset a) x (end_col_offset a) (source_code a)
    (node_id a) (ast_type a) (class_type a) (first_token a) (last_token a) (src a).

Definition set_end_col_offset (x : option Z) (a : attrs) : attrs :=
  mkAttrs (lineno a) (col_offset a) (end_lineno a) x (source_code a)
    (node_id a) (ast_type a) (class_type a) (first_token a) (last_token a) (src a).

Definition set_source_code (x : string) (a : attrs) : attrs :=
  mkAttrs (lineno a) (col_offset a) (end_lineno a) (end_col_offset a) (Some x)
    (node_id a) (ast_type a) (class_type a) (first_token a) (last_token a) (src a).

Definition set_node_id (x : nat) (a : attrs) : attrs :=
  mkAttrs (lineno a) (col_offset a) (end_lineno a) (end_col_offset a) (source_code a)
    (Some x) (ast_type a) (class_type a) (first_token a) (last_token a) (src a).

Definition set_ast_type (x : string) (a : attrs) : attrs :=
  mkAttrs (lineno a) (col_offset a) (end_lineno a) (end_col_offset a) (source_code a)
    (node_id a) (Some x) (class_type a) (first_token a) (last_token a) (src a).

Definition set_class_type (x : option string) (a : attrs) : attrs :=
  mkAttrs (lineno a) (col_offset a) (end_lineno a) (end_col_offset a) (source_code a)
    (node_id a) (ast_type a) x (first_token a) (last_token a) (src a).

Definition set_tokens (ft lt : option Token) (a : attrs) : attrs :=
  mkAttrs (lineno a) (col_offset a) (end_lineno a) (end_col_offset a) (source_code a)
    (node_id a) (ast_type a) (class_type a) ft lt (src a).

Definition set_src (x : string) (a : attrs) : attrs :=
  mkAttrs (lineno a) (col_offset a) (end_lineno a) (end_col_offset a) (source_code a)
    (node_id a) (ast_type a) (class_type a) (first_token a) (last_token a) (Some x).

(** ** Nodes *)

(** The node classes the visitors distinguish, and every other class under
    its name.  The node-valued entries of [iter_fields(node)] are kept in
    field order, list fields flattened; fields holding plain values that
    no visitor reads are left out.  [UnaryOp] has the fields [op] and
    [operand], in this order; a [Constant] has no child node.  [Other]
    stands for the classes that are none of the three above ([Module],
    [Expr], [BinOp], [USub], [Load], ...).

    A value of this type is the tree read position by position: it
    holds a copy of the node at every position and does not say which
    positions hold the same object.  CPython's parser puts one [Load],
    [Store], [USub], [Add], ... object at every position of its class,
    and the visitors write on objects; what depends on the identity of
    objects, as the [node_id] an object carries in the end and what one
    call leaves to the next, is stated on [object] and [heap] below. *)
Inductive node : Type :=
| Constant (a : attrs) (value : pyvalue)
| UnaryOp (a : attrs) (op operand : node)
| ClassDef (a : attrs) (name : string) (children : list node)
| Other (cls : string) (a : attrs) (children : list node).

(** [node.__class__.__name__] *)
Definition class_name (n : node) : string :=
  match n with
  | Constant _ _ => "Constant"
  | UnaryOp _ _ _ => "UnaryOp"
  | ClassDef _ _ _ => "ClassDef"
  | Other cls _ _ => cls
  end.

Definition node_attrs (n : node) : attrs :=
  match n with
  | Constant a _ | UnaryOp a _ _ | ClassDef a _ _ | Other _ a _ => a
  end.

(** The node object [n] after its attributes became [a]. *)
Definition with_attrs (a : attrs) (n : node) : node :=
  match n with
  | Constant _ v => Constant a v
  | UnaryOp _ op operand => UnaryOp a op operand
  | ClassDef _ name ch => ClassDef a name ch
  | Other cls _ ch => Other cls a ch
  end.

(** The nodes of a tree in pre-order: a node, then its children in field
    order. *)
Fixpoint preorder (n : node) : list node :=
  n :: match n with
       | Constant _ _ => []
       | UnaryOp _ op operand => preorder op ++ preorder operand
       | ClassDef _ _ ch | Other _ _ ch => flat_map preorder ch
       end.

(** Number of nodes of a tree. *)
Definition size (n : node) : nat := length (preorder n).

(** The [node_id] of every node, in pre-order. *)
Definition node_ids (n : node) : list (option nat) :=
  map (fun m => node_id (node_attrs m)) (preorder n).

(** ** Exceptions and the error monad *)

Inductive exn : Type :=
| SyntaxException (msg : string) (n : node)
| AttributeError (name : string)
| TypeError.

Inductive result (A : Type) : Type :=
| Ok (x : A)
| Raise (e : exn).
Arguments Ok {A} x.
Arguments Raise {A} e.

Definition bind {A B : Type} (m : result A) (k : A -> result B) : result B :=
  match m with
  | Ok x => k x
  | Raise e => Raise e
  end.

Declare Scope result_scope.
Delimit Scope result_scope with result.
Notation "'let*' p ':=' m 'in' k" := (bind m (fun p => k))
  (at level 10, p pattern, m at level 200, k at level 200) : result_scope.
Local Open Scope result_scope.

(** ** [ast.NodeTransformer] *)

Section NodeTransformer.
Context {Self : Type}.

(** [self.visit]: the method of the subclass, reached through [self]. *)
Variable visit : node -> Self -> result (node * Self).

(** The loop over a list field: every child is replaced by what its
    visit returns. *)
Fixpoint visit_list (l : list node) (self : Self) : result (list node * Self) :=
  match l with
  | [] => Ok ([], self)
  | x :: xs =>
      let* (x', self) := visit x self in
      let* (xs', self) := visit_list xs self in
      Ok (x' :: xs', self)
  end.

(** [NodeTransformer.generic_visit(node)], for the node object [n] whose
    attributes currently are [a]: visit the children in field order,
    store what each visit returns in the child's place, return the
    node. *)
Definition NodeTransformer_generic_visit (a : attrs) (n : node) (self : Self)
  : result (node * Self) :=
  match n with
  | Constant _ v => Ok (Constant a v, self)
  | UnaryOp _ op operand =>
      let* (op', self) := visit op self in
      let* (operand', self) := visit operand self in
      Ok (UnaryOp a op' operand', self)
  | ClassDef _ name ch =>
      let* (ch', self) := visit_list ch self in
      Ok (ClassDef a name ch', self)
  | Other cls _ ch =>
      let* (ch', self) := visit_list ch self in
      Ok (Other cls a ch', self)
  end.
End NodeTransformer.

(** ** Pass 1: [AnnotatingVisitor] *)

Record AnnotatingVisitor : Type := mkAnnotatingVisitor {
  _source_code : string;
  counter : nat;
  _class_types : gmap string string
}.

(** [AnnotatingVisitor.__init__] *)
Definition AnnotatingVisitor_init (source_code : string)
    (class_types : option (gmap string string)) : AnnotatingVisitor :=
  {| _source_code := source_code;
     counter := 0%nat;
     _class_types := match class_types with
                     | Some class_types => class_types
                     | None => ∅
                     end |}.

Definition unsupported_msg : string :=
  "Invalid syntax (unsupported Python Constant AST node).".

(** [node.value] *)
Definition getattr_value (n : node) : result pyvalue :=
  match n with
  | Constant _ v => Ok v
  | _ => Raise (AttributeError "value")
  end.

(** [node.name] *)
Definition getattr_name (n : node) : result string :=
  match n with
  | ClassDef _ name _ => Ok name
  | _ => Raise (AttributeError "name")
  end.

Section AnnotatingVisitorMethods.
Variable visit : node -> AnnotatingVisitor -> result (node * AnnotatingVisitor).

(** [AnnotatingVisitor.generic_visit] *)
Definition AnnotatingVisitor_generic_visit (n : node) (self : AnnotatingVisitor)
  : result (node * AnnotatingVisitor) :=
  let a := node_attrs n in
  let a := set_source_code (_source_code self) a in
  let a := set_node_id (counter self) a in
  let a := set_ast_type (class_name n) a in
  let self := mkAnnotatingVisitor (_source_code self) (counter self + 1)%nat
                (_class_types self) in
  NodeTransformer_generic_visit visit a n self.

(** [AnnotatingVisitor.visit_ClassDef] *)
Definition AnnotatingVisitor_visit_ClassDef (n : node) (self : AnnotatingVisitor)
  : result (node * AnnotatingVisitor) :=
  let* (n, self) := AnnotatingVisitor_generic_visit n self in
  let* name := getattr_name n in
  Ok (with_attrs (set_class_type (_class_types self !! name) (node_attrs n)) n, self).

(** [AnnotatingVisitor.visit_Constant] *)
Definition AnnotatingVisitor_visit_Constant (n : node) (self : AnnotatingVisitor)
  : result (node * AnnotatingVisitor) :=
  let* (n, self) := AnnotatingVisitor_generic_visit n self in
  let* value := getattr_value n in
  if is_None value || isinstance_bool value then
    Ok (with_attrs (set_ast_type "NameConstant" (node_attrs n)) n, self)
  else if isinstance_int value || isinstance_float value then
    Ok (with_attrs (set_ast_type "Num" (node_attrs n)) n, self)
  else if isinstance_str value then
    Ok (with_attrs (set_ast_type "Str" (node_attrs n)) n, self)
  else if isinstance_bytes value then
    Ok (with_attrs (set_ast_type "Bytes" (node_attrs n)) n, self)
  else
    Raise (SyntaxException unsupported_msg n).
End AnnotatingVisitorMethods.

(** [AnnotatingVisitor.visit]: dispatch on the class name. *)
Fixpoint AnnotatingVisitor_visit (n : node) (self : AnnotatingVisitor) {struct n}
  : result (node * AnnotatingVisitor) :=
  match n with
  | Constant _ _ => AnnotatingVisitor_visit_Constant AnnotatingVisitor_visit n self
  | ClassDef _ _ _ => AnnotatingVisitor_visit_ClassDef AnnotatingVisitor_visit n self
  | _ => AnnotatingVisitor_generic_visit AnnotatingVisitor_visit n self
  end.

(** ** Pass 2: [RewriteUnarySubVisitor] *)

(** The visitor object has no attribute. *)
Inductive RewriteUnarySubVisitor : Type := mkRewriteUnarySubVisitor.

(** [isinstance(node, python_ast.USub)] *)
Definition isinstance_USub (n : node) : bool :=
  String.eqb (class_name n) "USub".

(** [isinstance(node, python_ast.Num)].  [Num] is CPython 3.8's
    compatibility class; its [__instancecheck__] in [Lib/ast.py] answers
    [isinstance(inst, Constant) and
     isinstance(inst.value, (int, float, complex)) and
     not isinstance(inst.value, bool)]. *)
Definition isinstance_Num (n : node) : bool :=
  match n with
  | Constant _ v =>
      (isinstance_int v || isinstance_float v || isinstance_complex v)
      && negb (isinstance_bool v)
  | _ => false
  end.

(** [node.op] *)
Definition getattr_op (n : node) : result node :=
  match n with
  | UnaryOp _ op _ => Ok op
  | _ => Raise (AttributeError "op")
  end.

(** [node.operand] *)
Definition getattr_operand (n : node) : result node :=
  match n with
  | UnaryOp _ _ operand => Ok operand
  | _ => Raise (AttributeError "operand")
  end.

(** [node.n], the alias of [Constant.value] *)
Definition getattr_n (n : node) : result pyvalue :=
  match n with
  | Constant _ v => Ok v
  | _ => Raise (AttributeError "n")
  end.

(** [node.n = v]; on another class the assignment adds an attribute
    that nothing reads. *)
Definition setattr_n (v : pyvalue) (n : node) : node :=
  match n with
  | Constant a _ => Constant a v
  | _ => n
  end.

(** [node.operand = operand], on the [UnaryOp] object [n] *)
Definition setattr_operand (operand : node) (n : node) : node :=
  match n with
  | UnaryOp a op _ => UnaryOp a op operand
  | _ => n
  end.

(** [0 - v]: exact on [int] ([bool] counts as [int]), binary64
    subtraction from [0.0] on [float], componentwise on [complex], a
    [TypeError] on the rest. *)
Definition zero_minus (v : pyvalue) : result pyvalue :=
  match v with
  | VBool b => Ok (VInt (0 - Z.b2z b))
  | VInt z => Ok (VInt (0 - z))
  | VFloat f => Ok (VFloat (0 - f)%float)
  | VComplex re im => Ok (VComplex (0 - re)%float (0 - im)%float)
  | _ => Raise TypeError
  end.

Section RewriteUnarySubVisitorMethods.
Variable visit : node -> RewriteUnarySubVisitor -> result (node * RewriteUnarySubVisitor).

(** [RewriteUnarySubVisitor.visit_UnaryOp].  The result holds the node
    the method returns and, next to it, the [UnaryOp] object the method
    was called on as the call leaves it: when the method returns the
    operand, that object still exists and has the rewritten operand as
    its [operand]. *)
Definition RewriteUnarySubVisitor_visit_UnaryOp (n : node) (self : RewriteUnarySubVisitor)
  : result (node * node * RewriteUnarySubVisitor) :=
  let* (n, self) := NodeTransformer_generic_visit visit (node_attrs n) n self in
  let* op := getattr_op n in
  let* operand := getattr_operand n in
  if isinstance_USub op && isinstance_Num operand then
    let* value := getattr_n operand in
    let* value := zero_minus value in
    let operand := setattr_n value operand in
    let operand :=
      with_attrs (set_col_offset (col_offset (node_attrs n)) (node_attrs operand))
        operand in
    Ok (operand, setattr_operand operand n, self)
  else
    Ok (n, n, self).
End RewriteUnarySubVisitorMethods.

(** [RewriteUnarySubVisitor.visit]: the node returned. *)
Fixpoint RewriteUnarySubVisitor_visit (n : node) (self : RewriteUnarySubVisitor) {struct n}
  : result (node * RewriteUnarySubVisitor) :=
  match n with
  | UnaryOp _ _ _ =>
      let* (ret, _, self) :=
        RewriteUnarySubVisitor_visit_UnaryOp RewriteUnarySubVisitor_visit n self in
      Ok (ret, self)
  | _ => NodeTransformer_generic_visit RewriteUnarySubVisitor_visit (node_attrs n) n self
  end.

(** [RewriteUnarySubVisitor().visit(n)] as a statement: the returned node
    is dropped and the caller keeps the object [n].  [generic_visit]
    returns the object it was called on; [visit_UnaryOp] may not. *)
Definition RewriteUnarySubVisitor_visit_in_place (n : node) : result node :=
  match n with
  | UnaryOp _ _ _ =>
      let* (_, obj, _) :=
        RewriteUnarySubVisitor_visit_UnaryOp RewriteUnarySubVisitor_visit n
          mkRewriteUnarySubVisitor in
      Ok obj
  | _ =>
      let* (obj, _) := RewriteUnarySubVisitor_visit n mkRewriteUnarySubVisitor in
      Ok obj
  end.

(** ** Pass 3: [AddSourceOffsetVisitor] *)

Record AddSourceOffsetVisitor : Type := mkAddSourceOffsetVisitor {
  _source_id : Z
}.

(** [str(z)] for an [int], as an f-string field prints it. *)
Definition str_int (z : Z) : string := NilZero.string_of_int (Z.to_int z).

(** [node.first_token], where the attribute may be absent *)
Definition getattr_first_token (a : attrs) : result Token :=
  match first_token a with
  | Some t => Ok t
  | None => Raise (AttributeError "first_token")
  end.

Section AddSourceOffsetVisitorMethods.
Variable visit : node -> AddSourceOffsetVisitor -> result (node * AddSourceOffsetVisitor).

(** Lines 83-94 of [AddSourceOffsetVisitor.generic_visit]: the
    attributes of the node after the assignments. *)
Definition AddSourceOffsetVisitor_offsets (self : AddSourceOffsetVisitor) (a : attrs)
  : result attrs :=
  let start :=
    match first_token a with
    | Some t => (Some (fst (start t)), Some (snd (start t)))
    | None => (None, None)
    end in
  let end' :=
    match last_token a with
    | Some t => (Some (fst (end_ t)), Some (snd (end_ t)))
    | None => (None, None)
    end in
  let a := set_lineno (fst start) a in
  let a := set_col_offset (snd start) a in
  let a := set_end_lineno (fst end') a in
  let a := set_end_col_offset (snd end') a in
  match last_token a with
  | Some last_token =>
      let* first_token := getattr_first_token a in
      let start_pos := startpos first_token in
      let end_pos := endpos last_token in
      Ok (set_src (str_int start_pos ++ ":" ++ str_int (end_pos - start_pos) ++ ":"
                   ++ str_int (_source_id self))%string a)
  | None => Ok a
  end.

(** [AddSourceOffsetVisitor.generic_visit] *)
Definition AddSourceOffsetVisitor_generic_visit (n : node) (self : AddSourceOffsetVisitor)
  : result (node * AddSourceOffsetVisitor) :=
  let* a := AddSourceOffsetVisitor_offsets self (node_attrs n) in
  NodeTransformer_generic_visit visit a n self.
End AddSourceOffsetVisitorMethods.

(** [AddSourceOffsetVisitor.visit]: the class has no [visit_*] method. *)
Fixpoint AddSourceOffsetVisitor_visit (n : node) (self : AddSourceOffsetVisitor) {struct n}
  : result (node * AddSourceOffsetVisitor) :=
  AddSourceOffsetVisitor_generic_visit AddSourceOffsetVisitor_visit n self.

(** ** The entry point *)

Section Annotate.
(** [asttokens.ASTTokens(source_code, tree=parsed_ast)], the external
    token association: it hands back the tree with [first_token] and
    [last_token] attached to the nodes it covers. *)
Variable ASTTokens : string -> node -> node.

(** [annotate_python_ast].  The function returns [None]; its result
    here is the caller's [parsed_ast] object after the call, or the
    exception that left the call. *)
Definition annotate_python_ast (parsed_ast : node) (source_code : string)
    (class_types : option (gmap string string)) (source_id : Z) : result node :=
  let* (parsed_ast, _) :=
    AnnotatingVisitor_visit parsed_ast (AnnotatingVisitor_init source_code class_types) in
  let* parsed_ast := RewriteUnarySubVisitor_visit_in_place parsed_ast in
  let parsed_ast := ASTTokens source_code parsed_ast in
  let* (parsed_ast, _) :=
    AddSourceOffsetVisitor_visit parsed_ast (mkAddSourceOffsetVisitor source_id) in
  Ok parsed_ast.
End Annotate.

(** ** Sample trees *)

Definition no_attrs : attrs :=
  mkAttrs None None None None None None None None None None None.

(** An expression node as the parser hands it over, at line [l] and
    column [c]. *)
Definition at_pos (l c : Z) : attrs := set_col_offset (Some c) (set_lineno (Some l) no_attrs).

Definition USub : node := Other "USub" no_attrs [].

(** [x = -3] *)
Definition tree_assign_neg3 : node :=
  Other "Module" no_attrs
    [Other "Assign" (at_pos 1 0)
       [Other "Name" (at_pos 1 0) [Other "Store" no_attrs []];
        UnaryOp (at_pos 1 4) USub (Constant (at_pos 1 5) (VInt 3))]].

(** [x = 1j]: the constant holds a complex number. *)
Definition tree_assign_complex : node :=
  Other "Module" no_attrs
    [Other "Assign" (at_pos 1 0)
       [Other "Name" (at_pos 1 0) [Other "Store" no_attrs []];
        Constant (at_pos 1 4) (VComplex 0 1)]].

(** A [Name] node covered by the tokens from offset 10 to offset 15 on
    line 2, with its context node, which has no token. *)
Definition tree_name_10_15 : node :=
  Other "Name"
    (set_tokens (Some (mkToken (2, 4) (2, 5) 10 11)) (Some (mkToken (2, 8) (2, 9) 14 15))
       (at_pos 2 4))
    [Other "Load" (at_pos 9 9) []].

(** What pass 3 makes of [tree_name_10_15] under source identifier 7. *)
Definition tree_name_10_15_spans : node :=
  Other "Name"
    (set_src "10:5:7"
       (set_end_col_offset (Some 9)
          (set_end_lineno (Some 2)
             (set_tokens (Some (mkToken (2, 4) (2, 5) 10 11))
                (Some (mkToken (2, 8) (2, 9) 14 15)) (at_pos 2 4)))))
    [Other "Load" no_attrs []].

(** A [Name] node to which only a [last_token] was attached. *)
Definition tree_last_token_only : node :=
  Other "Name" (set_tokens None (Some (mkToken (1, 0) (1, 1) 0 1)) (at_pos 1 0)) [].

(** Two class definitions, [Foo] around a method that returns [-1] and
    an empty [Bar]. *)
Definition tree_classes : node :=
  Other "Module" no_attrs
    [ClassDef (at_pos 1 0) "Foo"
       [Other "FunctionDef" (at_pos 2 4)
          [Other "arguments" no_attrs [];
           Other "Return" (at_pos 3 8)
             [UnaryOp (at_pos 3 15) USub (Constant (at_pos 3 16) (VInt 1))]]];
     ClassDef (at_pos 5 0) "Bar" [Other "Pass" (at_pos 6 4) []]].

(** ** Attributes over a whole tree, and the token association *)

(** The same tree with [f] applied to the attributes of every node. *)
Fixpoint map_attrs (f : attrs -> attrs) (n : node) : node :=
  match n with
  | Constant a v => Constant (f a) v
  | UnaryOp a op operand => UnaryOp (f a) (map_attrs f op) (map_attrs f operand)
  | ClassDef a name ch => ClassDef (f a) name (map (map_attrs f) ch)
  | Other cls a ch => Other cls (f a) (map (map_attrs f) ch)
  end.

(** The tree without any attribute: the classes, the fields and the
    constants' values. *)
Definition shape (n : node) : node := map_attrs (fun _ => no_attrs) n.

(** The tree without its token associations. *)
Definition clear_tokens (n : node) : node := map_attrs (set_tokens None None) n.

(** A token association for trees whose source is one line: a node with
    a position gets, as first and last token, the one-character token at
    that position; a node without position gets none. *)
Definition sample_ASTTokens (source_code : string) (tree : node) : node :=
  map_attrs
    (fun a =>
       match lineno a, col_offset a with
       | Some l, Some c =>
           let t := mkToken (l, c) (l, c + 1) c (c + 1) in
           set_tokens (Some t) (Some t) a
       | _, _ => a
       end) tree.

(** ** Specification-side definitions *)

(** The constant sub-kind as the specification words it: boolean or null,
    then integer or floating-point number, then text, then bytes; the
    first test that succeeds decides. *)
Definition const_subkind (v : pyvalue) : option string :=
  match v with
  | VNone | VBool _ => Some "NameConstant"
  | VInt _ | VFloat _ => Some "Num"
  | VStr _ => Some "Str"
  | VBytes _ => Some "Bytes"
  | VComplex _ _ | VEllipsis => None
  end.

(** A node that pass 1 accepts: any node but a constant of no recognised
    kind. *)
Definition node_supported (n : node) : bool :=
  match n with
  | Constant _ v => bool_decide (is_Some (const_subkind v))
  | _ => true
  end.

(** The attributes [AnnotatingVisitor.generic_visit] leaves on a node of
    class [cls]. *)
Definition annotated (self : AnnotatingVisitor) (cls : string) (a : attrs) : attrs :=
  set_ast_type cls (set_node_id (counter self) (set_source_code (_source_code self) a)).

(** The visitor after [k] more nodes were numbered. *)
Definition advance (self : AnnotatingVisitor) (k : nat) : AnnotatingVisitor :=
  mkAnnotatingVisitor (_source_code self) (counter self + k)%nat (_class_types self).

(** The [node_id] of the nodes of a list. *)
Definition ids_of (pre : list node) : list (option nat) :=
  map (fun m => node_id (node_attrs m)) pre.

(** A constant node carries the tag of its value. *)
Definition const_classified (m : node) : Prop :=
  match m with
  | Constant a v => is_Some (const_subkind v) /\ ast_type a = const_subkind v
  | _ => True
  end.

(** Two runs in a row: the second starts from the visitor state the
    first ended in, and the nodes they leave are put end to end. *)
Definition seq_results {S : Type} (r1 : result (list node * S))
    (k : S -> result (list node * S)) : result (list node * S) :=
  let* (q1, s1) := r1 in
  let* (q2, s2) := k s1 in
  Ok (q1 ++ q2, s2).

(** The outcome of a visit, with the returned tree read in pre-order. *)
Definition preorder_result {S : Type} (r : result (node * S)) : result (list node * S) :=
  let* (n, s) := r in Ok (preorder n, s).

(** The outcome of the visit of a list of children, read in pre-order. *)
Definition forest_result {S : Type} (r : result (list node * S)) : result (list node * S) :=
  let* (l, s) := r in Ok (flat_map preorder l, s).

(** What a run of pass 1 over nodes whose pre-order is [pre] ends in: the
    numbered nodes, or the exception raised at the first constant of no
    recognised kind. *)
Definition pass1_post (self : AnnotatingVisitor) (pre : list node)
    (r : result (list node * AnnotatingVisitor)) : Prop :=
  match r with
  | Ok (pre', self') =>
      forallb node_supported pre = true /\
      self' = advance self (length pre) /\
      ids_of pre' = map Some (seq (counter self) (length pre)) /\
      Forall const_classified pre'
  | Raise e =>
      exists pre1 a v pre2,
        pre = pre1 ++ Constant a v :: pre2 /\
        forallb node_supported pre1 = true /\
        const_subkind v = None /\
        e = SyntaxException unsupported_msg
              (Constant (annotated (advance self (length pre1)) "Constant" a) v)
  end.

(** The statement of C6 read on the operand as the pass receives it:
    a unary node that is not a negation, or whose operand is not a
    numeric literal node, comes back as a unary node around that
    operand. *)
Definition unary_kept_as_received : Prop :=
  forall (a : attrs) (op operand : node) (self : RewriteUnarySubVisitor),
    isinstance_USub op = false \/ isinstance_Num operand = false ->
    exists a' op',
      RewriteUnarySubVisitor_visit (UnaryOp a op operand) self
      = Ok (UnaryOp a' op' operand, self).

(** Where a constant of the rewritten tree comes from: a constant of the
    given tree, the same node up to its starting column, and the very
    same node and value unless that constant is a numeric literal. *)
Definition constant_origin (pre : list node) (a' : attrs) (v' : pyvalue) : Prop :=
  exists a v,
    In (Constant a v) pre /\
    set_col_offset (col_offset a) a' = a /\
    (isinstance_Num (Constant a v) = false -> a' = a /\ v' = v) /\
    isinstance_Num (Constant a' v') = isinstance_Num (Constant a v).

(** A node that carries a [last_token] and no [first_token]. *)
Definition unpaired (m : node) : bool :=
  match first_token (node_attrs m), last_token (node_attrs m) with
  | None, Some _ => true
  | _, _ => false
  end.

(** What pass 3 does to one node: the attributes after the visit are
    those computed by lines 83-94, and the class is the same. *)
Definition span_step (self : AddSourceOffsetVisitor) (m m' : node) : Prop :=
  AddSourceOffsetVisitor_offsets self (node_attrs m) = Ok (node_attrs m') /\
  class_name m' = class_name m.

(** What a run of pass 3 over nodes whose pre-order is [pre] ends in:
    every node treated by [span_step], or the [AttributeError] raised at
    a node with a [last_token] and no [first_token]. *)
Definition span_post (self : AddSourceOffsetVisitor) (pre : list node)
    (r : result (list node * AddSourceOffsetVisitor)) : Prop :=
  match r with
  | Ok (pre', self') => self' = self /\ Forall2 (span_step self) pre pre'
  | Raise e => e = AttributeError "first_token" /\ existsb unpaired pre = true
  end.

(** The span fields of a node after pass 3, from the attributes [a] it
    had before, as the specification words them: with a token
    association, the start line and column are the start of the first
    token, the end line and column the end of the last token, and the
    span identifier is "byte_start:byte_len:source_id", with [byte_start]
    the start offset of the first token and [byte_len] the end offset of
    the last token minus [byte_start]; with none, the four position
    fields are null. *)
Definition span_of (source_id : Z) (a a' : attrs) : Prop :=
  (forall ft lt,
     first_token a = Some ft -> last_token a = Some lt ->
     let byte_start := startpos ft in
     let byte_len := endpos lt - byte_start in
     lineno a' = Some (fst (start ft)) /\
     col_offset a' = Some (snd (start ft)) /\
     end_lineno a' = Some (fst (end_ lt)) /\
     end_col_offset a' = Some (snd (end_ lt)) /\
     src a' = Some (str_int byte_start ++ ":" ++ str_int byte_len ++ ":"
                    ++ str_int source_id)%string) /\
  (first_token a = None -> last_token a = None ->
   lineno a' = None /\ col_offset a' = None /\
   end_lineno a' = None /\ end_col_offset a' = None).

(** A unary negation of a numeric literal node: the nodes pass 2 folds. *)
Definition foldable (m : node) : bool :=
  match m with
  | UnaryOp _ op operand => isinstance_USub op && isinstance_Num operand
  | _ => false
  end.

(** Two nodes of the same class, with the same name when they are class
    definitions. *)
Definition same_class (m m' : node) : Prop :=
  match m, m' with
  | Constant _ _, Constant _ _ => True
  | UnaryOp _ _ _, UnaryOp _ _ _ => True
  | ClassDef _ name _, ClassDef _ name' _ => name = name'
  | Other cls _ _, Other cls' _ _ => cls = cls'
  | _, _ => False
  end.

(** Where a node [m'] of the tree rewritten by pass 2 comes from: a node
    [m] of the given tree, of the same class, with the same attributes up
    to the starting column.  Unless [m] is a numeric literal, [m'] has
    all the attributes of [m], and its value when it is a constant; a
    numeric literal keeps the kind of its value. *)
Definition node_origin (pre : list node) (m' : node) : Prop :=
  exists m,
    In m pre /\
    same_class m m' /\
    set_col_offset (col_offset (node_attrs m)) (node_attrs m') = node_attrs m /\
    (isinstance_Num m = false ->
     node_attrs m' = node_attrs m /\ getattr_value m' = getattr_value m) /\
    (forall v v', getattr_value m = Ok v -> getattr_value m' = Ok v' ->
                  const_subkind v' = const_subkind v).

(** The tag pass 1 leaves in [ast_type]: the sub-kind of a constant, the
    class name of any other node. *)
Definition ast_type_of (m : node) : string :=
  match m with
  | Constant _ v =>
      match const_subkind v with
      | Some tag => tag
      | None => "Constant"
      end
  | _ => class_name m
  end.

(** The attributes of the node [m] once pass 1, run with the source text
    [sc] and the table [ct], has given it the number [i]. *)
Definition pass1_attrs (sc : string) (ct : gmap string string) (i : nat) (m : node)
  : attrs :=
  let a := set_ast_type (ast_type_of m) (set_node_id i (set_source_code sc (node_attrs m))) in
  match m with
  | ClassDef _ name _ => set_class_type (ct !! name) a
  | _ => a
  end.

(** A node before and after pass 1: the same class and value, and the
    attributes of [pass1_attrs]. *)
Definition pass1_step (self : AnnotatingVisitor) (m m' : node) : Prop :=
  same_class m m' /\
  getattr_value m' = getattr_value m /\
  exists i : nat, node_attrs m' = pass1_attrs (_source_code self) (_class_types self) i m.

(** What a run of pass 1 that returns leaves, node by node; the visitor
    keeps its source text and its table. *)
Definition pass1_steps (self : AnnotatingVisitor) (pre : list node)
    (r : result (list node * AnnotatingVisitor)) : Prop :=
  match r with
  | Ok (pre', self') =>
      _source_code self' = _source_code self /\
      _class_types self' = _class_types self /\
      Forall2 (pass1_step self) pre pre'
  | Raise _ => True
  end.

(** The position attributes say what the tokens of the node say: the
    start of [first_token] and the end of [last_token], null where the
    token is missing. *)
Definition positions_from_tokens (a : attrs) : Prop :=
  (lineno a, col_offset a) =
    match first_token a with
    | Some t => (Some (fst (start t)), Some (snd (start t)))
    | None => (None, None)
    end /\
  (end_lineno a, end_col_offset a) =
    match last_token a with
    | Some t => (Some (fst (end_ t)), Some (snd (end_ t)))
    | None => (None, None)
    end.

(** A node decorated by pass 1 for what it is: it carries the source
    text [sc], a number, and as [ast_type] the sub-kind of its value when
    it is a constant, of a recognised kind, and its class name
    otherwise. *)
Definition decorated (sc : string) (m : node) : Prop :=
  source_code (node_attrs m) = Some sc /\
  is_Some (node_id (node_attrs m)) /\
  ast_type (node_attrs m) = Some (ast_type_of m) /\
  node_supported m = true.

(** ** Node objects in a store *)

(** The identity of a node object ([id(node)]). *)
Abbreviation addr := nat (only parsing).

(** A node object: its attributes and its fields, a child being named by
    its identity, so that one object can be the child of several nodes
    and be reached from several trees. *)
Inductive object : Type :=
| OConstant (a : attrs) (value : pyvalue)
| OUnaryOp (a : attrs) (op operand : addr)
| OClassDef (a : attrs) (name : string) (children : list addr)
| OOther (cls : string) (a : attrs) (children : list addr).

(** The objects of the interpreter, by identity. *)
Abbreviation heap := (gmap nat object) (only parsing).

Definition object_attrs (o : object) : attrs :=
  match o with
  | OConstant a _ | OUnaryOp a _ _ | OClassDef a _ _ | OOther _ a _ => a
  end.

(** [node.__class__.__name__] *)
Definition object_class_name (o : object) : string :=
  match o with
  | OConstant _ _ => "Constant"
  | OUnaryOp _ _ _ => "UnaryOp"
  | OClassDef _ _ _ => "ClassDef"
  | OOther cls _ _ => cls
  end.

(** The object after an assignment to its attributes. *)
Definition map_object_attrs (f : attrs -> attrs) (o : object) : object :=
  match o with
  | OConstant a v => OConstant (f a) v
  | OUnaryOp a op operand => OUnaryOp (f a) op operand
  | OClassDef a name ch => OClassDef (f a) name ch
  | OOther cls a ch => OOther cls (f a) ch
  end.

(** The child nodes of an object, in field order. *)
Definition kids (o : object) : list addr :=
  match o with
  | OConstant _ _ => []
  | OUnaryOp _ op operand => [op; operand]
  | OClassDef _ _ ch | OOther _ _ ch => ch
  end.

(** The exceptions of the store model.  [HRecursionError] is the
    interpreter's answer to a traversal nested deeper than its limit;
    [HNoObject] stands for a reference without object, which Python
    excludes. *)
Inductive hexn : Type :=
| HSyntaxException (msg : string) (node : addr)
| HAttributeError (name : string)
| HTypeError
| HRecursionError
| HNoObject (p : addr).

Inductive hresult (A : Type) : Type :=
| HOk (x : A)
| HRaise (e : hexn).
Arguments HOk {A} x.
Arguments HRaise {A} e.

Definition hbind {A B : Type} (m : hresult A) (k : A -> hresult B) : hresult B :=
  match m with
  | HOk x => k x
  | HRaise e => HRaise e
  end.

Declare Scope hresult_scope.
Delimit Scope hresult_scope with hresult.
Notation "'let+' p ':=' m 'in' k" := (hbind m (fun p => k))
  (at level 10, p pattern, m at level 200, k at level 200) : hresult_scope.
Local Open Scope hresult_scope.

(** The object a reference names. *)
Definition deref (p : addr) (h : heap) : hresult object :=
  match h !! p with
  | Some o => HOk o
  | None => HRaise (HNoObject p)
  end.

(** [node.value] *)
Definition heap_getattr_value (p : addr) (h : heap) : hresult pyvalue :=
  let+ o := deref p h in
  match o with
  | OConstant _ v => HOk v
  | _ => HRaise (HAttributeError "value")
  end.

(** [node.name] *)
Definition heap_getattr_name (p : addr) (h : heap) : hresult string :=
  let+ o := deref p h in
  match o with
  | OClassDef _ name _ => HOk name
  | _ => HRaise (HAttributeError "name")
  end.

(** [node.op] *)
Definition heap_getattr_op (p : addr) (h : heap) : hresult addr :=
  let+ o := deref p h in
  match o with
  | OUnaryOp _ op _ => HOk op
  | _ => HRaise (HAttributeError "op")
  end.

(** [node.operand] *)
Definition heap_getattr_operand (p : addr) (h : heap) : hresult addr :=
  let+ o := deref p h in
  match o with
  | OUnaryOp _ _ operand => HOk operand
  | _ => HRaise (HAttributeError "operand")
  end.

(** [setattr(node, 'op', x)] *)
Definition object_set_op (x : addr) (o : object) : object :=
  match o with
  | OUnaryOp a _ operand => OUnaryOp a x operand
  | _ => o
  end.

(** [setattr(node, 'operand', x)] *)
Definition object_set_operand (x : addr) (o : object) : object :=
  match o with
  | OUnaryOp a op _ => OUnaryOp a op x
  | _ => o
  end.

(** [old_value[:] = new_values], on the list of children *)
Definition object_set_children (l : list addr) (o : object) : object :=
  match o with
  | OClassDef a name _ => OClassDef a name l
  | OOther cls a _ => OOther cls a l
  | _ => o
  end.

(** [node.n = v] *)
Definition object_set_n (v : pyvalue) (o : object) : object :=
  match o with
  | OConstant a _ => OConstant a v
  | _ => o
  end.

(** ** [ast.NodeTransformer], on objects *)

Section HeapNodeTransformer.
Context {Self : Type}.

(** [self.visit]: it returns a reference and leaves the store changed. *)
Variable visit : addr -> Self -> heap -> hresult (addr * Self * heap).

(** The loop over a list field. *)
Fixpoint heap_visit_list (l : list addr) (self : Self) (h : heap)
  : hresult (list addr * Self * heap) :=
  match l with
  | [] => HOk ([], self, h)
  | x :: xs =>
      let+ (x', self, h) := visit x self h in
      let+ (xs', self, h) := heap_visit_list xs self h in
      HOk (x' :: xs', self, h)
  end.

(** [NodeTransformer.generic_visit(node)]: every field is read when the
    loop reaches it, the child is visited, and what the visit returns is
    stored in the field of the object.  Under [OClassDef] and [OOther]
    the node-valued fields are one list, read when the loop starts and
    written back when it ends; the visitors of this module return a
    node, never [None] or a list. *)
Definition heap_NodeTransformer_generic_visit (p : addr) (self : Self) (h : heap)
  : hresult (addr * Self * heap) :=
  let+ o := deref p h in
  match o with
  | OConstant _ _ => HOk (p, self, h)
  | OUnaryOp _ _ _ =>
      let+ op := heap_getattr_op p h in
      let+ (op', self, h) := visit op self h in
      let h := alter (object_set_op op') p h in
      let+ operand := heap_getattr_operand p h in
      let+ (operand', self, h) := visit operand self h in
      HOk (p, self, alter (object_set_operand operand') p h)
  | OClassDef _ _ ch | OOther _ _ ch =>
      let+ (ch', self, h) := heap_visit_list ch self h in
      HOk (p, self, alter (object_set_children ch') p h)
  end.
End HeapNodeTransformer.

(** ** Pass 1 on objects *)

Section HeapAnnotatingVisitorMethods.
Variable visit : addr -> AnnotatingVisitor -> heap -> hresult (addr * AnnotatingVisitor * heap).

(** [AnnotatingVisitor.generic_visit] *)
Definition heap_AnnotatingVisitor_generic_visit (p : addr) (self : AnnotatingVisitor)
    (h : heap) : hresult (addr * AnnotatingVisitor * heap) :=
  let+ o := deref p h in
  let h := alter (map_object_attrs (set_source_code (_source_code self))) p h in
  let h := alter (map_object_attrs (set_node_id (counter self))) p h in
  let h := alter (map_object_attrs (set_ast_type (object_class_name o))) p h in
  let self := mkAnnotatingVisitor (_source_code self) (counter self + 1)%nat
                (_class_types self) in
  heap_NodeTransformer_generic_visit visit p self h.

(** [AnnotatingVisitor.visit_ClassDef] *)
Definition heap_AnnotatingVisitor_visit_ClassDef (p : addr) (self : AnnotatingVisitor)
    (h : heap) : hresult (addr * AnnotatingVisitor * heap) :=
  let+ (_, self, h) := heap_AnnotatingVisitor_generic_visit p self h in
  let+ name := heap_getattr_name p h in
  HOk (p, self, alter (map_object_attrs (set_class_type (_class_types self !! name))) p h).

(** [AnnotatingVisitor.visit_Constant] *)
Definition heap_AnnotatingVisitor_visit_Constant (p : addr) (self : AnnotatingVisitor)
    (h : heap) : hresult (addr * AnnotatingVisitor * heap) :=
  let+ (_, self, h) := heap_AnnotatingVisitor_generic_visit p self h in
  let+ value := heap_getattr_value p h in
  if is_None value || isinstance_bool value then
    HOk (p, self, alter (map_object_attrs (set_ast_type "NameConstant")) p h)
  else if isinstance_int value || isinstance_float value then
    HOk (p, self, alter (map_object_attrs (set_ast_type "Num")) p h)
  else if isinstance_str value then
    HOk (p, self, alter (map_object_attrs (set_ast_type "Str")) p h)
  else if isinstance_bytes value then
    HOk (p, self, alter (map_object_attrs (set_ast_type "Bytes")) p h)
  else
    HRaise (HSyntaxException unsupported_msg p).
End HeapAnnotatingVisitorMethods.

(** [AnnotatingVisitor.visit], with [fuel] levels of nesting left before
    the interpreter's recursion limit. *)
Fixpoint heap_AnnotatingVisitor_visit (fuel : nat) (p : addr) (self : AnnotatingVisitor)
    (h : heap) {struct fuel} : hresult (addr * AnnotatingVisitor * heap) :=
  match fuel with
  | O => HRaise HRecursionError
  | S fuel =>
      let+ o := deref p h in
      match o with
      | OConstant _ _ =>
          heap_AnnotatingVisitor_visit_Constant (heap_AnnotatingVisitor_visit fuel) p self h
      | OClassDef _ _ _ =>
          heap_AnnotatingVisitor_visit_ClassDef (heap_AnnotatingVisitor_visit fuel) p self h
      | _ =>
          heap_AnnotatingVisitor_generic_visit (heap_AnnotatingVisitor_visit fuel) p self h
      end
  end.

(** ** Pass 2 on objects *)

(** [isinstance(node, python_ast.USub)] *)
Definition object_isinstance_USub (o : object) : bool :=
  String.eqb (object_class_name o) "USub".

(** [isinstance(node, python_ast.Num)], as for [isinstance_Num]. *)
Definition object_isinstance_Num (o : object) : bool :=
  match o with
  | OConstant _ v =>
      (isinstance_int v || isinstance_float v || isinstance_complex v)
      && negb (isinstance_bool v)
  | _ => false
  end.

(** [0 - v], as [zero_minus]: a [TypeError] where the subtraction is
    not defined. *)
Definition heap_zero_minus (v : pyvalue) : hresult pyvalue :=
  match zero_minus v with
  | Ok v' => HOk v'
  | Raise _ => HRaise HTypeError
  end.

Section HeapRewriteUnarySubVisitorMethods.
Variable visit :
  addr -> RewriteUnarySubVisitor -> heap -> hresult (addr * RewriteUnarySubVisitor * heap).

(** [RewriteUnarySubVisitor.visit_UnaryOp].  The tests and the
    assignments of lines 68-72 read [node.op] and [node.operand] from
    the object as the traversal left it, and write on the operand
    object.  [node.col_offset] is read from [attrs], where a position
    never assigned reads as [None]; the expression nodes the parser
    builds always carry it. *)
Definition heap_RewriteUnarySubVisitor_visit_UnaryOp (p : addr)
    (self : RewriteUnarySubVisitor) (h : heap)
  : hresult (addr * RewriteUnarySubVisitor * heap) :=
  let+ (_, self, h) := heap_NodeTransformer_generic_visit visit p self h in
  let+ op := heap_getattr_op p h in
  let+ op_object := deref op h in
  let+ operand := heap_getattr_operand p h in
  let+ operand_object := deref operand h in
  if object_isinstance_USub op_object && object_isinstance_Num operand_object then
    let+ n := heap_getattr_value operand h in
    let+ n := heap_zero_minus n in
    let h := alter (object_set_n n) operand h in
    let+ node := deref p h in
    let h := alter (map_object_attrs (set_col_offset (col_offset (object_attrs node))))
               operand h in
    HOk (operand, self, h)
  else
    HOk (p, self, h).
End HeapRewriteUnarySubVisitorMethods.

(** [RewriteUnarySubVisitor.visit] *)
Fixpoint heap_RewriteUnarySubVisitor_visit (fuel : nat) (p : addr)
    (self : RewriteUnarySubVisitor) (h : heap) {struct fuel}
  : hresult (addr * RewriteUnarySubVisitor * heap) :=
  match fuel with
  | O => HRaise HRecursionError
  | S fuel =>
      let+ o := deref p h in
      match o with
      | OUnaryOp _ _ _ =>
          heap_RewriteUnarySubVisitor_visit_UnaryOp (heap_RewriteUnarySubVisitor_visit fuel)
            p self h
      | _ =>
          heap_NodeTransformer_generic_visit (heap_RewriteUnarySubVisitor_visit fuel) p self h
      end
  end.

(** ** Pass 3 on objects *)

(** Lines 83-94, as [AddSourceOffsetVisitor_offsets]: the attributes
    after the assignments, or the [AttributeError] of line 92. *)
Definition heap_AddSourceOffsetVisitor_offsets (self : AddSourceOffsetVisitor) (a : attrs)
  : hresult attrs :=
  match AddSourceOffsetVisitor_offsets self a with
  | Ok a' => HOk a'
  | Raise _ => HRaise (HAttributeError "first_token")
  end.

Section HeapAddSourceOffsetVisitorMethods.
Variable visit :
  addr -> AddSourceOffsetVisitor -> heap -> hresult (addr * AddSourceOffsetVisitor * heap).

(** [AddSourceOffsetVisitor.generic_visit] *)
Definition heap_AddSourceOffsetVisitor_generic_visit (p : addr)
    (self : AddSourceOffsetVisitor) (h : heap)
  : hresult (addr * AddSourceOffsetVisitor * heap) :=
  let+ o := deref p h in
  let+ a := heap_AddSourceOffsetVisitor_offsets self (object_attrs o) in
  let h := alter (map_object_attrs (fun _ => a)) p h in
  heap_NodeTransformer_generic_visit visit p self h.
End HeapAddSourceOffsetVisitorMethods.

(** [AddSourceOffsetVisitor.visit] *)
Fixpoint heap_AddSourceOffsetVisitor_visit (fuel : nat) (p : addr)
    (self : AddSourceOffsetVisitor) (h : heap) {struct fuel}
  : hresult (addr * AddSourceOffsetVisitor * heap) :=
  match fuel with
  | O => HRaise HRecursionError
  | S fuel =>
      heap_AddSourceOffsetVisitor_generic_visit (heap_AddSourceOffsetVisitor_visit fuel)
        p self h
  end.

(** ** The entry point on objects *)

Section HeapAnnotate.
(** [asttokens.ASTTokens(source_code, tree=parsed_ast)]: it attaches
    tokens to objects of the store. *)
Variable ASTTokens : string -> addr -> heap -> heap.

(** [annotate_python_ast]: what the visitors return is dropped; the
    caller keeps the reference [parsed_ast] and finds the store changed. *)
Definition heap_annotate_python_ast (fuel : nat) (parsed_ast : addr) (source_code : string)
    (class_types : option (gmap string string)) (source_id : Z) (h : heap)
  : hresult heap :=
  let+ (_, _, h) :=
    heap_AnnotatingVisitor_visit fuel parsed_ast
      (AnnotatingVisitor_init source_code class_types) h in
  let+ (_, _, h) :=
    heap_RewriteUnarySubVisitor_visit fuel parsed_ast mkRewriteUnarySubVisitor h in
  let h := ASTTokens source_code parsed_ast h in
  let+ (_, _, h) :=
    heap_AddSourceOffsetVisitor_visit fuel parsed_ast
      (mkAddSourceOffsetVisitor source_id) h in
  HOk h.
End HeapAnnotate.

(** ** Successive calls *)

(** The arguments of one call of the entry point. *)
Record call : Type := mkCall {
  call_ast : addr;
  call_source_code : string;
  call_class_types : option (gmap string string);
  call_source_id : Z
}.

(** Calls made one after the other in one interpreter: each call finds
    the objects as the calls before it left them.  A call builds its
    three visitors itself; the first exception ends the run. *)
Fixpoint run_calls (ASTTokens : string -> addr -> heap -> heap) (fuel : nat)
    (calls : list call) (h : heap) : hresult heap :=
  match calls with
  | [] => HOk h
  | c :: calls =>
      let+ h := heap_annotate_python_ast ASTTokens fuel (call_ast c) (call_source_code c)
                  (call_class_types c) (call_source_id c) h in
      run_calls ASTTokens fuel calls h
  end.

(** ** Sample stores *)

(** [a = b + c] as the parser builds it: the two names that are read
    hold the same [Load] object, 6. *)
Definition heap_assign_sum : heap :=
  list_to_map
    [(0%nat, OOther "Module" no_attrs [1%nat]);
     (1%nat, OOther "Assign" (at_pos 1 0) [2%nat; 4%nat]);
     (2%nat, OOther "Name" (at_pos 1 0) [3%nat]);
     (3%nat, OOther "Store" no_attrs []);
     (4%nat, OOther "BinOp" (at_pos 1 4) [5%nat; 7%nat; 8%nat]);
     (5%nat, OOther "Name" (at_pos 1 4) [6%nat]);
     (6%nat, OOther "Load" no_attrs []);
     (7%nat, OOther "Add" no_attrs []);
     (8%nat, OOther "Name" (at_pos 1 8) [6%nat])].

(** The store of [heap_assign_sum] after a second source, [d], was
    parsed: its [Name] node holds the [Load] object of the first tree. *)
Definition heap_two_sources : heap :=
  list_to_map
    [(10%nat, OOther "Module" no_attrs [11%nat]);
     (11%nat, OOther "Expr" (at_pos 1 0) [12%nat]);
     (12%nat, OOther "Name" (at_pos 1 0) [6%nat])]
  ∪ heap_assign_sum.

(** [x = -3], its objects at 20 to 26 *)
Definition heap_assign_neg3 : heap :=
  list_to_map
    [(20%nat, OOther "Module" no_attrs [21%nat]);
     (21%nat, OOther "Assign" (at_pos 1 0) [22%nat; 24%nat]);
     (22%nat, OOther "Name" (at_pos 1 0) [23%nat]);
     (23%nat, OOther "Store" no_attrs []);
     (24%nat, OUnaryOp (at_pos 1 4) 25%nat 26%nat);
     (25%nat, OOther "USub" no_attrs []);
     (26%nat, OConstant (at_pos 1 5) (VInt 3))].

(** The tree of [tree_classes], its objects at 30 to 39. *)
Definition heap_classes : heap :=
  list_to_map
    [(30%nat, OOther "Module" no_attrs [31%nat; 37%nat]);
     (31%nat, OClassDef (at_pos 1 0) "Foo" [32%nat]);
     (32%nat, OOther "FunctionDef" (at_pos 2 4) [33%nat; 34%nat]);
     (33%nat, OOther "arguments" no_attrs []);
     (34%nat, OOther "Return" (at_pos 3 8) [35%nat]);
     (35%nat, OUnaryOp (at_pos 3 15) 39%nat 36%nat);
     (36%nat, OConstant (at_pos 3 16) (VInt 1));
     (37%nat, OClassDef (at_pos 5 0) "Bar" [38%nat]);
     (38%nat, OOther "Pass" (at_pos 6 4) []);
     (39%nat, OOther "USub" no_attrs [])].

(** A function with a decorator,
<<
@d
def f(): pass
>>
    The fields of [FunctionDef] are [name], [args], [body],
    [decorator_list], [returns] and [type_comment], in this order: the
    statement of the body, 2, comes before the decorator, 3. *)
Definition heap_decorated_def : heap :=
  list_to_map
    [(0%nat, OOther "FunctionDef" (at_pos 2 0) [1%nat; 2%nat; 3%nat]);
     (1%nat, OOther "arguments" no_attrs []);
     (2%nat, OOther "Pass" (at_pos 2 9) []);
     (3%nat, OOther "Name" (at_pos 1 1) [4%nat]);
     (4%nat, OOther "Load" no_attrs [])].

(** A token association for sources of one line, as
    [sample_ASTTokens]: an object with a position gets the
    one-character token at that position. *)
Definition heap_sample_ASTTokens (source_code : string) (tree : addr) (h : heap) : heap :=
  map_object_attrs
    (fun a =>
       match lineno a, col_offset a with
       | Some l, Some c =>
           let t := mkToken (l, c) (l, c + 1) c (c + 1) in
           set_tokens (Some t) (Some t) a
       | _, _ => a
       end) <$> h.

(** ** Specification-side definitions on objects *)

Section PreorderList.
Variable preorder : addr -> option (list addr).

(** The positions under the nodes of a list, one node after the other. *)
Fixpoint heap_preorder_list (l : list addr) : option (list addr) :=
  match l with
  | [] => Some []
  | x :: xs =>
      match preorder x, heap_preorder_list xs with
      | Some v, Some vs => Some (v ++ vs)
      | _, _ => None
      end
  end.
End PreorderList.

(** The positions of the tree under [p] in pre-order, each named by the
    object that sits there: the node, then what is under its children in
    field order.  An object that is the child of two nodes is listed
    under both.  [None] when the tree is nested deeper than [fuel] or a
    reference has no object. *)
Fixpoint heap_preorder (fuel : nat) (h : heap) (p : addr) {struct fuel}
  : option (list addr) :=
  match fuel with
  | O => None
  | S fuel =>
      match h !! p with
      | Some o =>
          match heap_preorder_list (heap_preorder fuel h) (kids o) with
          | Some vs => Some (p :: vs)
          | None => None
          end
      | None => None
      end
  end.

(** The tree under [p] read as a [node], every position with a copy of
    the object that sits there. *)
Fixpoint heap_load (fuel : nat) (h : heap) (p : addr) {struct fuel} : option node :=
  match fuel with
  | O => None
  | S fuel =>
      match h !! p with
      | Some (OConstant a v) => Some (Constant a v)
      | Some (OUnaryOp a op operand) =>
          match heap_load fuel h op, heap_load fuel h operand with
          | Some op, Some operand => Some (UnaryOp a op operand)
          | _, _ => None
          end
      | Some (OClassDef a name ch) =>
          match mapM (heap_load fuel h) ch with
          | Some ch => Some (ClassDef a name ch)
          | None => None
          end
      | Some (OOther cls a ch) =>
          match mapM (heap_load fuel h) ch with
          | Some ch => Some (Other cls a ch)
          | None => None
          end
      | None => None
      end
  end.

(** [q] is a node of the tree under [p]. *)
Inductive heap_reach (h : heap) : addr -> addr -> Prop :=
| heap_reach_refl p : heap_reach h p p
| heap_reach_kid p o k q :
    h !! p = Some o -> k ∈ kids o -> heap_reach h k q -> heap_reach h p q.

(** The [node_id] an object carries. *)
Definition node_id_at (h : heap) (p : addr) : option nat :=
  match h !! p with
  | Some o => node_id (object_attrs o)
  | None => None
  end.

(** The line and column an object carries. *)
Definition position_at (h : heap) (p : addr) : option (Z * Z) :=
  match h !! p with
  | Some o =>
      match lineno (object_attrs o), col_offset (object_attrs o) with
      | Some l, Some c => Some (l, c)
      | _, _ => None
      end
  | None => None
  end.

(** The last place of [q] in a list of positions. *)
Fixpoint last_index (q : addr) (vs : list addr) : option nat :=
  match vs with
  | [] => None
  | v :: vs =>
      match last_index q vs with
      | Some i => Some (S i)
      | None => if Nat.eqb v q then Some 0%nat else None
      end
  end.

(** An object without its attributes: class, fields and children. *)
Definition skeleton (o : object) : object := map_object_attrs (fun _ => no_attrs) o.

(** Two stores hold the same objects up to their attributes. *)
Definition same_skeleton (h h' : heap) : Prop :=
  forall q, skeleton <$> h' !! q = skeleton <$> h !! q.

(** Every object carries in [h'] the [node_id] it carries in [h]. *)
Definition same_ids (h h' : heap) : Prop :=
  forall q, node_id_at h' q = node_id_at h q.

(** From [h] to [h'] the positions [vs] were numbered from [c] on, one
    after the other: an object carries the number of the last position
    it sits at, and an object at no position carries what it carried. *)
Definition numbered (c : nat) (vs : list addr) (h h' : heap) : Prop :=
  forall q,
    node_id_at h' q =
    match last_index q vs with
    | Some i => Some (c + i)%nat
    | None => node_id_at h q
    end.

(** An object that pass 1 accepts: any but a constant of no recognised
    kind. *)
Definition heap_supported (h : heap) (p : addr) : bool :=
  match h !! p with
  | Some (OConstant _ v) => bool_decide (is_Some (const_subkind v))
  | _ => true
  end.

(** What a visit of pass 1 at [p] comes to, [vs] being the positions
    under [p]. *)
Definition pass1_outcome (self : AnnotatingVisitor) (p : addr) (vs : list addr) (h : heap)
    (r : hresult (addr * AnnotatingVisitor * heap)) : Prop :=
  match r with
  | HOk (p', self', h') =>
      p' = p /\ self' = advance self (length vs) /\
      same_skeleton h h' /\ numbered (counter self) vs h h'
  | HRaise e =>
      exists q, q ∈ vs /\ heap_supported h q = false /\
                e = HSyntaxException unsupported_msg q
  end.

(** The same for the loop over a list of children. *)
Definition pass1_list_outcome (self : AnnotatingVisitor) (l : list addr) (vs : list addr)
    (h : heap) (r : hresult (list addr * AnnotatingVisitor * heap)) : Prop :=
  match r with
  | HOk (l', self', h') =>
      l' = l /\ self' = advance self (length vs) /\
      same_skeleton h h' /\ numbered (counter self) vs h h'
  | HRaise e =>
      exists q, q ∈ vs /\ heap_supported h q = false /\
                e = HSyntaxException unsupported_msg q
  end.

(** The objects of [objs] have their children in [objs]. *)
Definition closed (objs : list addr) (h : heap) : Prop :=
  forall q, q ∈ objs ->
    exists o, h !! q = Some o /\ forall k, k ∈ kids o -> k ∈ objs.

(** A visit that returns keeps every [node_id], keeps [objs] closed and
    returns an object of [objs]. *)
Definition keeps {Self A : Type} (P : A -> Prop) (objs : list addr) (h : heap)
    (r : hresult (A * Self * heap)) : Prop :=
  match r with
  | HOk (x, _, h') => same_ids h h' /\ closed objs h' /\ P x
  | HRaise _ => True
  end.

(** The token association writes [first_token] and [last_token], on
    objects that exist, and nothing else. *)
Definition heap_ASTTokens_frame (ASTTokens : string -> addr -> heap -> heap) : Prop :=
  forall source_code tree h q,
    exists ft lt,
      ASTTokens source_code tree h !! q = map_object_attrs (set_tokens ft lt) <$> h !! q.

(** What pass 1 does at [p], whether or not the tree under [p] can be
    walked within [fuel]. *)
Definition pass1_run (fuel : nat) (p : addr) (self : AnnotatingVisitor) (h : heap) : Prop :=
  match heap_preorder fuel h p with
  | Some vs => pass1_outcome self p vs h (heap_AnnotatingVisitor_visit fuel p self h)
  | None => exists e, heap_AnnotatingVisitor_visit fuel p self h = HRaise e
  end.

(** ** Induction on trees *)

Lemma node_ind' (P : node -> Prop) :
  (forall a v, P (Constant a v)) ->
  (forall a op operand, P op -> P operand -> P (UnaryOp a op operand)) ->
  (forall a name ch, Forall P ch -> P (ClassDef a name ch)) ->
  (forall cls a ch, Forall P ch -> P (Other cls a ch)) ->
  forall n, P n.
Proof.
  intros HC HU HD HO.
  fix IH 1.
  intros [a v | a op operand | a name ch | cls a ch].
  - apply HC.
  - apply HU; apply IH.
  - apply HD. induction ch as [| c ch IHch]; constructor; [apply IH | exact IHch].
  - apply HO. induction ch as [| c ch IHch]; constructor; [apply IH | exact IHch].
Qed.

(** ** The run of pass 1 over a tree *)

Lemma advance_0 self : advance self 0 = self.
Proof. destruct self; unfold advance; simpl. f_equal. lia. Qed.

Lemma advance_advance self j k : advance (advance self j) k = advance self (j + k).
Proof. unfold advance; simpl. f_equal. lia. Qed.

Lemma AnnotatingVisitor_visit_Constant_eq a v self :
  AnnotatingVisitor_visit (Constant a v) self =
  match const_subkind v with
  | Some tag => Ok (Constant (set_ast_type tag (annotated self "Constant" a)) v, advance self 1)
  | None => Raise (SyntaxException unsupported_msg (Constant (annotated self "Constant" a) v))
  end.
Proof. destruct v; reflexivity. Qed.

Lemma pass1_post_app self p1 p2 r1 k :
  pass1_post self p1 r1 ->
  (forall self', pass1_post self' p2 (k self')) ->
  pass1_post self (p1 ++ p2) (seq_results r1 k).
Proof.
  intros H1 H2. destruct r1 as [[q1 s1] | e]; simpl in *.
  - destruct H1 as (Hs1 & -> & Hid1 & Hc1).
    specialize (H2 (advance self (length p1))).
    destruct (k (advance self (length p1))) as [[q2 s2] | e]; simpl in *.
    + destruct H2 as (Hs2 & -> & Hid2 & Hc2).
      rewrite forallb_app, Hs1, Hs2, length_app, advance_advance.
      repeat split; [| apply Forall_app; auto].
      unfold ids_of in *. rewrite map_app, Hid1, Hid2, seq_app, map_app.
      reflexivity.
    + destruct H2 as (pre1 & a & v & pre2 & -> & Hs & Hv & ->).
      exists (p1 ++ pre1), a, v, pre2.
      rewrite <- app_assoc, forallb_app, Hs1, Hs, length_app, advance_advance.
      auto.
  - destruct H1 as (pre1 & a & v & pre2 & -> & Hs & Hv & ->).
    exists pre1, a, v, (pre2 ++ p2). rewrite <- app_assoc. auto.
Qed.

Lemma pass1_post_root self n n' p r :
  node_supported n = true ->
  node_id (node_attrs n') = Some (counter self) ->
  const_classified n' ->
  pass1_post (advance self 1) p r ->
  pass1_post self (n :: p) (let* (q, s) := r in Ok (n' :: q, s)).
Proof.
  intros Hn Hid Hc H. destruct r as [[q s] | e]; simpl in *.
  - destruct H as (Hs & -> & Hids & Hcs).
    rewrite Hn, Hs, advance_advance, Hid, Hids.
    rewrite Nat.add_1_r. repeat split; auto.
  - destruct H as (pre1 & a & v & pre2 & -> & Hs & Hv & ->).
    exists (n :: pre1), a, v, pre2. simpl. rewrite Hn, Hs, advance_advance. auto.
Qed.

Lemma AnnotatingVisitor_visit_list_post ch :
  Forall (fun n => forall self,
            pass1_post self (preorder n) (preorder_result (AnnotatingVisitor_visit n self))) ch ->
  forall self,
    pass1_post self (flat_map preorder ch)
      (forest_result (visit_list AnnotatingVisitor_visit ch self)).
Proof.
  induction 1 as [| c ch Hc _ IH]; intros self.
  - simpl. rewrite advance_0. auto.
  - simpl.
    pose proof (pass1_post_app self _ _ _ _ (Hc self) IH) as H.
    destruct (AnnotatingVisitor_visit c self) as [[c' s1] | e]; simpl in *; [| exact H].
    destruct (visit_list AnnotatingVisitor_visit ch s1) as [[ch' s2] | e]; simpl in *; exact H.
Qed.

Lemma AnnotatingVisitor_visit_post n :
  forall self, pass1_post self (preorder n) (preorder_result (AnnotatingVisitor_visit n self)).
Proof.
  induction n as [a v | a op operand IHop IHoperand | a name ch IH | cls a ch IH]
    using node_ind'; intros self.
  - rewrite AnnotatingVisitor_visit_Constant_eq.
    destruct (const_subkind v) as [tag |] eqn:Hv; simpl.
    + rewrite Hv. simpl. repeat split; auto.
      constructor; [| constructor]. simpl. rewrite Hv. split; [eexists|]; reflexivity.
    + exists [], a, v, []. simpl. rewrite advance_0. auto.
  - pose proof (pass1_post_app (advance self 1) _ _ _ _
                  (IHop (advance self 1)) IHoperand) as H.
    simpl. unfold AnnotatingVisitor_generic_visit. simpl. fold (advance self 1).
    destruct (AnnotatingVisitor_visit op (advance self 1)) as [[op' s1] | e]; simpl in *.
    + destruct (AnnotatingVisitor_visit operand s1) as [[operand' s2] | e]; simpl in *.
      * now apply (pass1_post_root self (UnaryOp a op operand)
                     (UnaryOp (annotated self "UnaryOp" a) op' operand') _ (Ok (_, _))).
      * now apply (pass1_post_root self (UnaryOp a op operand)
                     (UnaryOp (annotated self "UnaryOp" a) op operand) _ (Raise e)).
    + now apply (pass1_post_root self (UnaryOp a op operand)
                   (UnaryOp (annotated self "UnaryOp" a) op operand) _ (Raise e)).
  - pose proof (AnnotatingVisitor_visit_list_post ch IH (advance self 1)) as H.
    simpl. unfold AnnotatingVisitor_visit_ClassDef, AnnotatingVisitor_generic_visit.
    simpl. fold (advance self 1).
    destruct (visit_list AnnotatingVisitor_visit ch (advance self 1)) as [[ch' s1] | e];
      simpl in *.
    + now apply (pass1_post_root self (ClassDef a name ch)
                   (ClassDef (set_class_type (_class_types s1 !! name)
                                (annotated self "ClassDef" a)) name ch') _ (Ok (_, _))).
    + now apply (pass1_post_root self (ClassDef a name ch)
                   (ClassDef (annotated self "ClassDef" a) name ch) _ (Raise e)).
  - pose proof (AnnotatingVisitor_visit_list_post ch IH (advance self 1)) as H.
    simpl. unfold AnnotatingVisitor_generic_visit. simpl. fold (advance self 1).
    destruct (visit_list AnnotatingVisitor_visit ch (advance self 1)) as [[ch' s1] | e];
      simpl in *.
    + now apply (pass1_post_root self (Other cls a ch)
                   (Other cls (annotated self cls a) ch') _ (Ok (_, _))).
    + now apply (pass1_post_root self (Other cls a ch)
                   (Other cls (annotated self cls a) ch) _ (Raise e)).
Qed.

(** ** Properties of pass 1 *)

(** C1.  On every constant node it visits, pass 1 assigns the sub-kind
    tag by testing the value in the order boolean-or-null, number, text,
    bytes, the first test that succeeds deciding: a value that passes the
    first test is tagged [NameConstant]; one that fails it and passes the
    numeric test is tagged [Num]; then [Str]; then [Bytes].  [True],
    [False] and the null value are tagged [NameConstant] although a
    boolean also passes the numeric test. *)
Theorem C1_constant_subkind_first_match (self : AnnotatingVisitor) (a : attrs) (v : pyvalue) :
  let tagged (tag : string) (v : pyvalue) :=
    Ok (Constant (set_ast_type tag (annotated self "Constant" a)) v, advance self 1) in
  let r := AnnotatingVisitor_visit (Constant a v) self in
  (is_None v || isinstance_bool v = true -> r = tagged "NameConstant" v) /\
  (is_None v || isinstance_bool v = false ->
   isinstance_int v || isinstance_float v = true -> r = tagged "Num" v) /\
  (is_None v || isinstance_bool v = false ->
   isinstance_int v || isinstance_float v = false ->
   isinstance_str v = true -> r = tagged "Str" v) /\
  (is_None v || isinstance_bool v = false ->
   isinstance_int v || isinstance_float v = false ->
   isinstance_str v = false ->
   isinstance_bytes v = true -> r = tagged "Bytes" v) /\
  AnnotatingVisitor_visit (Constant a VNone) self = tagged "NameConstant" VNone /\
  (forall b : bool,
     isinstance_int (VBool b) || isinstance_float (VBool b) = true /\
     AnnotatingVisitor_visit (Constant a (VBool b)) self = tagged "NameConstant" (VBool b) /\
     AnnotatingVisitor_visit (Constant a (VBool b)) self <> tagged "Num" (VBool b)) /\
  (forall z, AnnotatingVisitor_visit (Constant a (VInt z)) self = tagged "Num" (VInt z)) /\
  (forall f, AnnotatingVisitor_visit (Constant a (VFloat f)) self = tagged "Num" (VFloat f)) /\
  (forall s, AnnotatingVisitor_visit (Constant a (VStr s)) self = tagged "Str" (VStr s)) /\
  (forall bs, AnnotatingVisitor_visit (Constant a (VBytes bs)) self = tagged "Bytes" (VBytes bs)).
Proof.
  cbv zeta.
  repeat split; try (destruct v; simpl; intros; (reflexivity || discriminate)).
Qed.

Lemma forallb_node_supported_split pre1 a v pre2 :
  const_subkind v = None ->
  forallb node_supported (pre1 ++ Constant a v :: pre2) = false.
Proof.
  intros Hv. rewrite forallb_app. simpl. rewrite Hv. simpl.
  now rewrite andb_false_r.
Qed.

(** Pass 1 returns exactly on the trees whose constants all have a
    recognised kind, and then numbers the nodes in pre-order from the
    visitor's counter. *)
Lemma AnnotatingVisitor_visit_returns n self :
  forallb node_supported (preorder n) = true ->
  exists n',
    AnnotatingVisitor_visit n self = Ok (n', advance self (size n)) /\
    node_ids n' = map Some (seq (counter self) (size n)) /\
    Forall const_classified (preorder n').
Proof.
  intros Hn. pose proof (AnnotatingVisitor_visit_post n self) as H.
  destruct (AnnotatingVisitor_visit n self) as [[n' self'] | e]; simpl in H.
  - destruct H as (_ & -> & Hids & Hc). exists n'. auto.
  - destruct H as (pre1 & a & v & pre2 & Hpre & _ & Hv & _).
    rewrite Hpre, forallb_node_supported_split in Hn by exact Hv. discriminate.
Qed.

Lemma AnnotatingVisitor_visit_raises n self :
  forallb node_supported (preorder n) = false ->
  exists pre1 a v pre2,
    preorder n = pre1 ++ Constant a v :: pre2 /\
    forallb node_supported pre1 = true /\
    const_subkind v = None /\
    AnnotatingVisitor_visit n self =
      Raise (SyntaxException unsupported_msg
               (Constant (annotated (advance self (length pre1)) "Constant" a) v)).
Proof.
  intros Hn. pose proof (AnnotatingVisitor_visit_post n self) as H.
  destruct (AnnotatingVisitor_visit n self) as [[n' self'] | e]; simpl in H.
  - destruct H as (Hs & _). congruence.
  - destruct H as (pre1 & a & v & pre2 & Hpre & Hs & Hv & ->).
    exists pre1, a, v, pre2. auto.
Qed.

Lemma ids_of_length pre ids : ids_of pre = map Some ids -> length pre = length ids.
Proof.
  intros H. apply (f_equal (@length _)) in H. unfold ids_of in H.
  now rewrite !length_map in H.
Qed.

Lemma AnnotatingVisitor_visit_list_shape ch :
  Forall (fun n => forall self n' self',
            AnnotatingVisitor_visit n self = Ok (n', self') -> shape n' = shape n) ch ->
  forall self ch' self',
    visit_list AnnotatingVisitor_visit ch self = Ok (ch', self') ->
    map shape ch' = map shape ch.
Proof.
  induction 1 as [| c ch Hc _ IH]; intros self ch' self' Hv; simpl in Hv.
  - now inversion Hv.
  - destruct (AnnotatingVisitor_visit c self) as [[c' s1] | e] eqn:Hc'; simpl in Hv;
      [| discriminate].
    destruct (visit_list AnnotatingVisitor_visit ch s1) as [[ch'' s2] | e] eqn:Hch;
      simpl in Hv; [| discriminate].
    inversion Hv; subst. simpl. now rewrite (Hc _ _ _ Hc'), (IH _ _ _ Hch).
Qed.

(** Pass 1 adds no node, removes none and changes no field. *)
Lemma AnnotatingVisitor_visit_shape n :
  forall self n' self',
    AnnotatingVisitor_visit n self = Ok (n', self') -> shape n' = shape n.
Proof.
  induction n as [a v | a op operand IHop IHoperand | a name ch IH | cls a ch IH]
    using node_ind'; intros self n' self' Hv.
  - rewrite AnnotatingVisitor_visit_Constant_eq in Hv.
    destruct (const_subkind v); [| discriminate]. now inversion Hv.
  - simpl in Hv. unfold AnnotatingVisitor_generic_visit in Hv. simpl in Hv.
    destruct (AnnotatingVisitor_visit op _) as [[op' s1] | e] eqn:Hop; simpl in Hv;
      [| discriminate].
    destruct (AnnotatingVisitor_visit operand s1) as [[operand' s2] | e] eqn:Hoperand;
      simpl in Hv; [| discriminate].
    inversion Hv; subst. unfold shape in *. simpl.
    now rewrite (IHop _ _ _ Hop), (IHoperand _ _ _ Hoperand).
  - simpl in Hv.
    unfold AnnotatingVisitor_visit_ClassDef, AnnotatingVisitor_generic_visit in Hv.
    simpl in Hv.
    destruct (visit_list AnnotatingVisitor_visit ch _) as [[ch' s1] | e] eqn:Hch;
      simpl in Hv; [| discriminate].
    inversion Hv; subst. unfold shape. simpl. f_equal.
    exact (AnnotatingVisitor_visit_list_shape ch IH _ _ _ Hch).
  - simpl in Hv. unfold AnnotatingVisitor_generic_visit in Hv. simpl in Hv.
    destruct (visit_list AnnotatingVisitor_visit ch _) as [[ch' s1] | e] eqn:Hch;
      simpl in Hv; [| discriminate].
    inversion Hv; subst. unfold shape. simpl. f_equal.
    exact (AnnotatingVisitor_visit_list_shape ch IH _ _ _ Hch).
Qed.

(** ** Properties of pass 2 *)

(** On a binary64, [0 - f] is the negation of [f], except that both
    zeros give the positive zero. *)
Lemma zero_minus_float (f : float) :
  (0 - f = - f)%float \/ (f = 0%float /\ (0 - f)%float = 0%float).
Proof.
  assert (H : Prim2SF (0 - f) = SF64sub (Prim2SF 0%float) (Prim2SF f)) by apply sub_spec.
  pose proof (opp_spec f) as Ho.
  destruct (Prim2SF f) as [s | s | | s m e] eqn:Hf.
  - destruct s.
    + left. apply Prim2SF_inj. rewrite H, Ho. reflexivity.
    + right. split; apply Prim2SF_inj; [rewrite Hf | rewrite H]; reflexivity.
  - left. apply Prim2SF_inj. rewrite H, Ho. reflexivity.
  - left. apply Prim2SF_inj. rewrite H, Ho. reflexivity.
  - left. apply Prim2SF_inj. rewrite H, Ho. reflexivity.
Qed.

Lemma isinstance_Num_inv n :
  isinstance_Num n = true ->
  exists a v v', n = Constant a v /\ zero_minus v = Ok v' /\ isinstance_bool v = false.
Proof.
  destruct n as [a v | | |]; try discriminate.
  destruct v; simpl; try discriminate; intros _;
    do 3 eexists; repeat split; reflexivity.
Qed.

(** [visit_UnaryOp] once the visits of the two children have returned. *)
Lemma RewriteUnarySubVisitor_visit_UnaryOp_eq visit a op operand self op' operand' :
  visit op self = Ok (op', self) ->
  visit operand self = Ok (operand', self) ->
  RewriteUnarySubVisitor_visit_UnaryOp visit (UnaryOp a op operand) self =
    if isinstance_USub op' && isinstance_Num operand' then
      match operand' with
      | Constant a' v =>
          let* v' := zero_minus v in
          let folded := Constant (set_col_offset (col_offset a) a') v' in
          Ok (folded, UnaryOp a op' folded, self)
      | _ => Raise (AttributeError "n")
      end
    else Ok (UnaryOp a op' operand', UnaryOp a op' operand', self).
Proof.
  intros Hop Hoperand. unfold RewriteUnarySubVisitor_visit_UnaryOp. simpl.
  rewrite Hop. simpl. rewrite Hoperand. simpl.
  destruct (isinstance_USub op' && isinstance_Num operand') eqn:Hc; [| reflexivity].
  apply andb_prop in Hc as [_ Hn].
  destruct (isinstance_Num_inv _ Hn) as (a' & v & v' & -> & Hv & _).
  simpl. rewrite Hv. reflexivity.
Qed.

Lemma RewriteUnarySubVisitor_visit_list_returns ch :
  Forall (fun n => forall self, exists n',
            RewriteUnarySubVisitor_visit n self = Ok (n', self) /\
            sublist (node_ids n') (node_ids n)) ch ->
  forall self, exists ch',
    visit_list RewriteUnarySubVisitor_visit ch self = Ok (ch', self) /\
    sublist (ids_of (flat_map preorder ch')) (ids_of (flat_map preorder ch)).
Proof.
  induction 1 as [| c ch Hc _ IH]; intros self.
  - exists []. split; [reflexivity | constructor].
  - destruct (Hc self) as (c' & Hc' & Hsub).
    destruct (IH self) as (ch' & Hch' & Hsubs).
    exists (c' :: ch'). simpl. rewrite Hc'. simpl. rewrite Hch'. simpl.
    split; [reflexivity |].
    unfold ids_of. rewrite !map_app. now apply sublist_app.
Qed.

(** Pass 2 returns on every tree, and the nodes of the tree it returns
    are nodes of the tree it was given, in the same order. *)
Lemma RewriteUnarySubVisitor_visit_returns n :
  forall self, exists n',
    RewriteUnarySubVisitor_visit n self = Ok (n', self) /\
    sublist (node_ids n') (node_ids n).
Proof.
  induction n as [a v | a op operand IHop IHoperand | a name ch IH | cls a ch IH]
    using node_ind'; intros self.
  - exists (Constant a v). split; reflexivity.
  - destruct (IHop self) as (op' & Hop & Hsop).
    destruct (IHoperand self) as (operand' & Hoperand & Hsoperand).
    cbn [RewriteUnarySubVisitor_visit].
    rewrite (RewriteUnarySubVisitor_visit_UnaryOp_eq _ a op operand self op' operand' Hop Hoperand).
    destruct (isinstance_USub op' && isinstance_Num operand') eqn:Hc.
    + apply andb_prop in Hc as [_ Hn].
      destruct (isinstance_Num_inv _ Hn) as (a' & v & v' & -> & Hv & _).
      rewrite Hv. simpl. eexists. split; [reflexivity |].
      unfold node_ids in *. simpl in *.
      apply sublist_cons. unfold ids_of.
      rewrite map_app. now apply sublist_inserts_l.
    + simpl. eexists. split; [reflexivity |].
      unfold node_ids in *. simpl. apply sublist_skip.
      rewrite !map_app. now apply sublist_app.
  - destruct (RewriteUnarySubVisitor_visit_list_returns ch IH self) as (ch' & Hch & Hsub).
    exists (ClassDef a name ch'). simpl. rewrite Hch. simpl.
    split; [reflexivity |]. unfold node_ids. simpl. now apply sublist_skip.
  - destruct (RewriteUnarySubVisitor_visit_list_returns ch IH self) as (ch' & Hch & Hsub).
    exists (Other cls a ch'). simpl. rewrite Hch. simpl.
    split; [reflexivity |]. unfold node_ids. simpl. now apply sublist_skip.
Qed.

(** Pass 2 as the entry point calls it returns on every tree, and the
    nodes of the object the caller keeps are nodes of the tree given, in
    the same order. *)
Lemma RewriteUnarySubVisitor_visit_in_place_returns n :
  exists n',
    RewriteUnarySubVisitor_visit_in_place n = Ok n' /\
    sublist (node_ids n') (node_ids n).
Proof.
  unfold RewriteUnarySubVisitor_visit_in_place.
  destruct n as [a v | a op operand | a name ch | cls a ch].
  - destruct (RewriteUnarySubVisitor_visit_returns (Constant a v) mkRewriteUnarySubVisitor)
      as (n' & -> & Hsub). simpl. eauto.
  - destruct (RewriteUnarySubVisitor_visit_returns op mkRewriteUnarySubVisitor)
      as (op' & Hop & Hsop).
    destruct (RewriteUnarySubVisitor_visit_returns operand mkRewriteUnarySubVisitor)
      as (operand' & Hoperand & Hsoperand).
    rewrite (RewriteUnarySubVisitor_visit_UnaryOp_eq _ a op operand _ op' operand'
               Hop Hoperand).
    destruct (isinstance_USub op' && isinstance_Num operand') eqn:Hc.
    + apply andb_prop in Hc as [_ Hn].
      destruct (isinstance_Num_inv _ Hn) as (a1 & v1 & v1' & -> & Hz & _).
      rewrite Hz. simpl. eexists. split; [reflexivity |].
      unfold node_ids in *. simpl in *. apply sublist_skip.
      rewrite !map_app. apply sublist_app; [exact Hsop | exact Hsoperand].
    + simpl. eexists. split; [reflexivity |].
      unfold node_ids in *. simpl. apply sublist_skip.
      rewrite !map_app. now apply sublist_app.
  - destruct (RewriteUnarySubVisitor_visit_returns (ClassDef a name ch)
                mkRewriteUnarySubVisitor) as (n' & -> & Hsub). simpl. eauto.
  - destruct (RewriteUnarySubVisitor_visit_returns (Other cls a ch)
                mkRewriteUnarySubVisitor) as (n' & -> & Hsub). simpl. eauto.
Qed.

Lemma isinstance_USub_inv op :
  isinstance_USub op = true -> exists a ch, op = Other "USub" a ch.
Proof.
  unfold isinstance_USub.
  destruct op as [| | | cls a ch]; simpl; try discriminate.
  intros H. apply String.eqb_eq in H. subst. eauto.
Qed.

Lemma visit_list_app {Self : Type} (visit : node -> Self -> result (node * Self))
    l1 l2 l1' l2' s0 s1 s2 :
  visit_list visit l1 s0 = Ok (l1', s1) ->
  visit_list visit l2 s1 = Ok (l2', s2) ->
  visit_list visit (l1 ++ l2) s0 = Ok (l1' ++ l2', s2).
Proof.
  revert l1' s0. induction l1 as [| x l1 IH]; intros l1' s0 H1 H2; simpl in *.
  - inversion H1; subst. exact H2.
  - destruct (visit x s0) as [[x' sx] | e]; simpl in *; [| discriminate].
    destruct (visit_list visit l1 sx) as [[l1'' sl] | e] eqn:Hl; simpl in *; [| discriminate].
    inversion H1; subst. simpl. now rewrite (IH _ _ Hl H2).
Qed.

(** C2.  A unary-negation node whose operand is a numeric literal node is
    replaced by that operand node: the visit returns the operand, with its
    value negated ([0 - n]: the opposite integer; on a float the opposite
    number, the zero keeping a positive sign) and its starting column set
    to the starting column of the unary node, and every other attribute,
    [node_id] and [ast_type] among them, as pass 1 left it; a parent that
    holds the unary node among its children holds the literal at that
    place afterwards. *)
Theorem C2_negated_literal_replaces_unary_node
    (a : attrs) (op : node) (a' : attrs) (v : pyvalue) (self : RewriteUnarySubVisitor) :
  isinstance_USub op = true ->
  isinstance_Num (Constant a' v) = true ->
  exists v',
    let folded := Constant (set_col_offset (col_offset a) a') v' in
    RewriteUnarySubVisitor_visit (UnaryOp a op (Constant a' v)) self = Ok (folded, self) /\
    zero_minus v = Ok v' /\
    (forall z, v = VInt z -> v' = VInt (- z)) /\
    (forall f, v = VFloat f ->
       v' = VFloat (- f) \/ (f = 0%float /\ v' = VFloat 0)) /\
    col_offset (node_attrs folded) = col_offset a /\
    node_id (node_attrs folded) = node_id a' /\
    ast_type (node_attrs folded) = ast_type a' /\
    set_col_offset (col_offset a') (node_attrs folded) = a' /\
    (forall cls pa before after before' after',
       visit_list RewriteUnarySubVisitor_visit before self = Ok (before', self) ->
       visit_list RewriteUnarySubVisitor_visit after self = Ok (after', self) ->
       RewriteUnarySubVisitor_visit
         (Other cls pa (before ++ UnaryOp a op (Constant a' v) :: after)) self
       = Ok (Other cls pa (before' ++ folded :: after'), self)).
Proof.
  intros Hop Hnum.
  destruct (isinstance_USub_inv op Hop) as (a0 & ch & ->).
  destruct (RewriteUnarySubVisitor_visit_returns (Other "USub" a0 ch) self)
    as (op' & Hop' & _).
  assert (Hcls : isinstance_USub op' = true).
  { simpl in Hop'.
    destruct (visit_list RewriteUnarySubVisitor_visit ch self) as [[ch' s] | e];
      simpl in Hop'; [| discriminate].
    inversion Hop'; reflexivity. }
  destruct (isinstance_Num_inv _ Hnum) as (a1 & v1 & v' & Heq & Hv & _).
  inversion Heq; subst a1 v1. clear Heq.
  exists v'.
  assert (Hvisit :
    RewriteUnarySubVisitor_visit (UnaryOp a (Other "USub" a0 ch) (Constant a' v)) self
    = Ok (Constant (set_col_offset (col_offset a) a') v', self)).
  { cbn [RewriteUnarySubVisitor_visit].
    rewrite (RewriteUnarySubVisitor_visit_UnaryOp_eq _ a _ (Constant a' v) self op'
               (Constant a' v) Hop' eq_refl).
    rewrite Hcls, Hnum. simpl. rewrite Hv. reflexivity. }
  cbv zeta. repeat split; auto.
  - intros z ->. simpl in Hv. inversion Hv. f_equal.
  - intros f ->. simpl in Hv. inversion Hv.
    destruct (zero_minus_float f) as [H | [H1 H2]].
    + left. now rewrite H.
    + right. split; [exact H1 | now rewrite H2].
  - destruct a'; reflexivity.
  - intros cls pa before after before' after' Hb Ha.
    simpl.
    rewrite (visit_list_app _ before (UnaryOp a (Other "USub" a0 ch) (Constant a' v) :: after)
               before' (Constant (set_col_offset (col_offset a) a') v' :: after')
               self self self Hb).
    + reflexivity.
    + cbn [visit_list]. rewrite Hvisit. simpl. rewrite Ha. reflexivity.
Qed.

(** C2, at [-5]: the unary node at column 4 around the literal [5] at
    column 5. *)
Lemma C2_witness :
  exists v',
    RewriteUnarySubVisitor_visit
      (UnaryOp (at_pos 1 4) USub (Constant (at_pos 1 5) (VInt 5))) mkRewriteUnarySubVisitor
    = Ok (Constant (set_col_offset (Some 4) (at_pos 1 5)) v', mkRewriteUnarySubVisitor) /\
    v' = VInt (-5).
Proof.
  destruct (C2_negated_literal_replaces_unary_node (at_pos 1 4) USub (at_pos 1 5) (VInt 5)
              mkRewriteUnarySubVisitor eq_refl eq_refl)
    as (v' & Hvisit & _ & Hint & _).
  exists v'. split; [exact Hvisit | exact (Hint 5 eq_refl)].
Defined.

(** C6 as stated fails on [- - 5]: the operand of the outer negation is
    a unary node, not a literal, and the outer node is folded all the
    same, since its operand is rewritten to a literal before the test. *)
Lemma C6_counterexample :
  let inner := UnaryOp (at_pos 1 2) USub (Constant (at_pos 1 4) (VInt 5)) in
  let outer := UnaryOp (at_pos 1 0) USub inner in
  isinstance_Num inner = false /\
  RewriteUnarySubVisitor_visit outer mkRewriteUnarySubVisitor
  = Ok (Constant (at_pos 1 0) (VInt 5), mkRewriteUnarySubVisitor) /\
  ~ unary_kept_as_received.
Proof.
  cbv zeta. split; [reflexivity |]. split; [reflexivity |].
  intros H.
  destruct (H (at_pos 1 0) USub
              (UnaryOp (at_pos 1 2) USub (Constant (at_pos 1 4) (VInt 5)))
              mkRewriteUnarySubVisitor (or_intror eq_refl)) as (a' & op' & Heq).
  vm_compute in Heq. discriminate.
Qed.

(** C6, amended.  Let the pass have rewritten the operator and the
    operand of a unary node.  Unless the operator is then a negation and
    the operand then a numeric literal node, the unary node stays: the
    visit returns a unary node with the attributes it had, around the
    rewritten operator and operand. *)
Theorem C6_unary_kept_unless_operand_folds_to_literal
    (a : attrs) (op operand op' operand' : node) (self : RewriteUnarySubVisitor) :
  RewriteUnarySubVisitor_visit op self = Ok (op', self) ->
  RewriteUnarySubVisitor_visit operand self = Ok (operand', self) ->
  isinstance_USub op' = false \/ isinstance_Num operand' = false ->
  RewriteUnarySubVisitor_visit (UnaryOp a op operand) self
  = Ok (UnaryOp a op' operand', self).
Proof.
  intros Hop Hoperand Hc.
  cbn [RewriteUnarySubVisitor_visit].
  rewrite (RewriteUnarySubVisitor_visit_UnaryOp_eq _ a op operand self op' operand'
             Hop Hoperand).
  assert (isinstance_USub op' && isinstance_Num operand' = false) as ->.
  { destruct Hc as [-> | ->]; [reflexivity | apply andb_false_r]. }
  reflexivity.
Qed.

(** C6 amended, at [-x] and at [not -5]. *)
Lemma C6_witness :
  RewriteUnarySubVisitor_visit
    (UnaryOp (at_pos 1 0) USub (Other "Name" (at_pos 1 1) [Other "Load" no_attrs []]))
    mkRewriteUnarySubVisitor
  = Ok (UnaryOp (at_pos 1 0) USub (Other "Name" (at_pos 1 1) [Other "Load" no_attrs []]),
        mkRewriteUnarySubVisitor) /\
  RewriteUnarySubVisitor_visit
    (UnaryOp (at_pos 1 0) (Other "Not" no_attrs [])
       (UnaryOp (at_pos 1 4) USub (Constant (at_pos 1 5) (VInt 5))))
    mkRewriteUnarySubVisitor
  = Ok (UnaryOp (at_pos 1 0) (Other "Not" no_attrs [])
          (Constant (at_pos 1 4) (VInt (-5))),
        mkRewriteUnarySubVisitor).
Proof.
  split.
  - apply C6_unary_kept_unless_operand_folds_to_literal;
      [reflexivity | reflexivity | right; reflexivity].
  - apply C6_unary_kept_unless_operand_folds_to_literal;
      [reflexivity | reflexivity | left; reflexivity].
Defined.

Lemma set_col_offset_twice x y a : set_col_offset x (set_col_offset y a) = set_col_offset x a.
Proof. reflexivity. Qed.

Lemma set_col_offset_same a : set_col_offset (col_offset a) a = a.
Proof. destruct a; reflexivity. Qed.

Lemma constant_origin_mono pre1 pre2 a' v' :
  (forall m, In m pre1 -> In m pre2) ->
  constant_origin pre1 a' v' -> constant_origin pre2 a' v'.
Proof. intros Hsub (a & v & Hin & H). exists a, v. split; [auto | exact H]. Qed.

Lemma RewriteUnarySubVisitor_visit_list_origin ch :
  Forall (fun n => forall self n',
            RewriteUnarySubVisitor_visit n self = Ok (n', self) ->
            forall a' v', In (Constant a' v') (preorder n') ->
                          constant_origin (preorder n) a' v') ch ->
  forall self ch',
    visit_list RewriteUnarySubVisitor_visit ch self = Ok (ch', self) ->
    forall a' v', In (Constant a' v') (flat_map preorder ch') ->
                  constant_origin (flat_map preorder ch) a' v'.
Proof.
  induction 1 as [| c ch Hc _ IH]; intros self ch' Hv a' v' Hin; simpl in Hv.
  - inversion Hv; subst. destruct Hin.
  - destruct (RewriteUnarySubVisitor_visit c self) as [[c' []] | e] eqn:Hc';
      simpl in Hv; [| discriminate].
    destruct (visit_list RewriteUnarySubVisitor_visit ch mkRewriteUnarySubVisitor)
      as [[ch'' []] | e] eqn:Hch; simpl in Hv; [| discriminate].
    destruct self. inversion Hv; subst ch'. simpl in Hin.
    apply in_app_or in Hin as [Hin | Hin].
    + eapply constant_origin_mono; [| exact (Hc _ _ Hc' _ _ Hin)].
      intros m Hm. simpl. apply in_or_app. now left.
    + eapply constant_origin_mono; [| exact (IH _ _ Hch _ _ Hin)].
      intros m Hm. simpl. apply in_or_app. now right.
Qed.

(** Pass 2 changes the value of no constant but a numeric literal. *)
Lemma RewriteUnarySubVisitor_visit_origin n :
  forall self n',
    RewriteUnarySubVisitor_visit n self = Ok (n', self) ->
    forall a' v', In (Constant a' v') (preorder n') -> constant_origin (preorder n) a' v'.
Proof.
  induction n as [a v | a op operand IHop IHoperand | a name ch IH | cls a ch IH]
    using node_ind'; intros self n' Hv a' v' Hin.
  - simpl in Hv. inversion Hv; subst n'. simpl in Hin.
    destruct Hin as [Heq | []]. inversion Heq; subst a' v'.
    exists a, v. simpl. rewrite set_col_offset_same. auto.
  - destruct (RewriteUnarySubVisitor_visit_returns op self) as (op' & Hop & _).
    destruct (RewriteUnarySubVisitor_visit_returns operand self) as (operand' & Hoperand & _).
    cbn [RewriteUnarySubVisitor_visit] in Hv.
    rewrite (RewriteUnarySubVisitor_visit_UnaryOp_eq _ a op operand self op' operand'
               Hop Hoperand) in Hv.
    destruct (isinstance_USub op' && isinstance_Num operand') eqn:Hc.
    + apply andb_prop in Hc as [_ Hn].
      destruct (isinstance_Num_inv _ Hn) as (a1 & v1 & v1' & -> & Hz & Hb).
      rewrite Hz in Hv. simpl in Hv. inversion Hv; subst n'. simpl in Hin.
      destruct Hin as [Heq | []]. inversion Heq; subst a' v'.
      destruct (IHoperand self _ Hoperand a1 v1 (or_introl eq_refl))
        as (a0 & v0 & Hin0 & Hcol & Hsame & Hnum).
      exists a0, v0. repeat split.
      * simpl. right. apply in_or_app. now right.
      * now rewrite set_col_offset_twice.
      * rewrite <- Hnum, Hn in H. discriminate.
      * rewrite <- Hnum, Hn in H. discriminate.
      * rewrite <- Hnum, Hn. destruct v1; try discriminate; inversion Hz; reflexivity.
    + simpl in Hv. inversion Hv; subst n'. simpl in Hin.
      destruct Hin as [Heq | Hin]; [discriminate |].
      apply in_app_or in Hin as [Hin | Hin].
      * eapply constant_origin_mono; [| exact (IHop _ _ Hop _ _ Hin)].
        intros m Hm. simpl. right. apply in_or_app. now left.
      * eapply constant_origin_mono; [| exact (IHoperand _ _ Hoperand _ _ Hin)].
        intros m Hm. simpl. right. apply in_or_app. now right.
  - simpl in Hv.
    destruct (visit_list RewriteUnarySubVisitor_visit ch self) as [[ch' []] | e] eqn:Hch;
      simpl in Hv; [| discriminate].
    destruct self. inversion Hv; subst n'. simpl in Hin.
    destruct Hin as [Heq | Hin]; [discriminate |].
    eapply constant_origin_mono;
      [| exact (RewriteUnarySubVisitor_visit_list_origin ch IH _ _ Hch _ _ Hin)].
    intros m Hm. simpl. now right.
  - simpl in Hv.
    destruct (visit_list RewriteUnarySubVisitor_visit ch self) as [[ch' []] | e] eqn:Hch;
      simpl in Hv; [| discriminate].
    destruct self. inversion Hv; subst n'. simpl in Hin.
    destruct Hin as [Heq | Hin]; [discriminate |].
    eapply constant_origin_mono;
      [| exact (RewriteUnarySubVisitor_visit_list_origin ch IH _ _ Hch _ _ Hin)].
    intros m Hm. simpl. now right.
Qed.

(** C10.  A boolean constant passes the host's integer test and still is
    no numeric literal node for pass 2; a unary negation of it is
    returned as it is, also when it is the root the caller holds; and on
    any tree, a constant holding a boolean or the null value, the ones
    pass 1 tags [NameConstant], reaches the rewritten tree with the
    attributes and the value it had. *)
Theorem C10_boolean_operand_is_not_folded
    (a a0 a' : attrs) (b : bool) (self : RewriteUnarySubVisitor) :
  let t := UnaryOp a (Other "USub" a0 []) (Constant a' (VBool b)) in
  isinstance_int (VBool b) = true /\
  isinstance_Num (Constant a' (VBool b)) = false /\
  RewriteUnarySubVisitor_visit t self = Ok (t, self) /\
  RewriteUnarySubVisitor_visit_in_place t = Ok t /\
  (forall n n' a1 v1,
     RewriteUnarySubVisitor_visit n self = Ok (n', self) ->
     In (Constant a1 v1) (preorder n') ->
     is_None v1 || isinstance_bool v1 = true ->
     In (Constant a1 v1) (preorder n)) /\
  (forall n n' a1 v1,
     RewriteUnarySubVisitor_visit n self = Ok (n', self) ->
     In (Constant a1 v1) (preorder n') ->
     exists a2 v2,
       In (Constant a2 v2) (preorder n) /\
       set_col_offset (col_offset a2) a1 = a2 /\
       (is_None v2 || isinstance_bool v2 = true -> a1 = a2 /\ v1 = v2)).
Proof.
  cbv zeta. do 4 (split; [reflexivity |]). split.
  - intros n n' a1 v1 Hv Hin Hb.
    destruct (RewriteUnarySubVisitor_visit_origin n self n' Hv a1 v1 Hin)
      as (a2 & v2 & Hin2 & _ & Hsame & Hnum).
    assert (Hn : isinstance_Num (Constant a1 v1) = false)
      by (destruct v1; try discriminate; reflexivity).
    rewrite Hn in Hnum. symmetry in Hnum.
    destruct (Hsame Hnum) as [-> ->]. exact Hin2.
  - intros n n' a1 v1 Hv Hin.
    destruct (RewriteUnarySubVisitor_visit_origin n self n' Hv a1 v1 Hin)
      as (a2 & v2 & Hin2 & Hcol & Hsame & _).
    exists a2, v2. split; [exact Hin2 |]. split; [exact Hcol |].
    intros Hb. apply Hsame. destruct v2; try discriminate; reflexivity.
Qed.

(** ** Properties of pass 3 *)

Lemma AddSourceOffsetVisitor_offsets_cases self a :
  match first_token a, last_token a with
  | None, Some _ =>
      AddSourceOffsetVisitor_offsets self a = Raise (AttributeError "first_token")
  | _, _ => exists a', AddSourceOffsetVisitor_offsets self a = Ok a'
  end.
Proof.
  unfold AddSourceOffsetVisitor_offsets, getattr_first_token.
  destruct a as [l c el ec sc id ty ct [ft |] [lt |] s]; simpl; eauto.
Qed.

Lemma span_post_app self p1 p2 r1 k :
  span_post self p1 r1 ->
  (forall self', span_post self' p2 (k self')) ->
  span_post self (p1 ++ p2) (seq_results r1 k).
Proof.
  intros H1 H2. destruct r1 as [[q1 s1] | e]; simpl in *.
  - destruct H1 as (-> & HF1). specialize (H2 self).
    destruct (k self) as [[q2 s2] | e]; simpl in *.
    + destruct H2 as (-> & HF2). split; [reflexivity | now apply Forall2_app].
    + destruct H2 as (-> & Hex). split; [reflexivity |].
      rewrite existsb_app, Hex. apply orb_true_r.
  - destruct H1 as (-> & Hex). split; [reflexivity |].
    now rewrite existsb_app, Hex.
Qed.

Lemma AddSourceOffsetVisitor_visit_list_post ch :
  Forall (fun n => forall self,
            span_post self (preorder n)
              (preorder_result (AddSourceOffsetVisitor_visit n self))) ch ->
  forall self,
    span_post self (flat_map preorder ch)
      (forest_result (visit_list AddSourceOffsetVisitor_visit ch self)).
Proof.
  induction 1 as [| c ch Hc _ IH]; intros self.
  - simpl. split; [reflexivity | constructor].
  - simpl.
    pose proof (span_post_app self _ _ _ _ (Hc self) IH) as H.
    destruct (AddSourceOffsetVisitor_visit c self) as [[c' s1] | e]; simpl in *; [| exact H].
    destruct (visit_list AddSourceOffsetVisitor_visit ch s1) as [[ch' s2] | e];
      simpl in *; exact H.
Qed.

Lemma span_post_root self n n' p r :
  span_step self n n' ->
  span_post self p r ->
  span_post self (n :: p) (let* (q, s) := r in Ok (n' :: q, s)).
Proof.
  intros Hn H. destruct r as [[q s] | e]; simpl in *.
  - destruct H as (-> & HF). split; [reflexivity | now constructor].
  - destruct H as (-> & Hex). split; [reflexivity |]. rewrite Hex. apply orb_true_r.
Qed.

Lemma AddSourceOffsetVisitor_offsets_unpaired self n :
  unpaired n = true ->
  AddSourceOffsetVisitor_offsets self (node_attrs n) = Raise (AttributeError "first_token").
Proof.
  unfold unpaired. intros H.
  pose proof (AddSourceOffsetVisitor_offsets_cases self (node_attrs n)) as Hc.
  destruct (first_token (node_attrs n)), (last_token (node_attrs n));
    try discriminate; exact Hc.
Qed.

Lemma AddSourceOffsetVisitor_offsets_paired self n :
  unpaired n = false ->
  exists a', AddSourceOffsetVisitor_offsets self (node_attrs n) = Ok a'.
Proof.
  unfold unpaired. intros H.
  pose proof (AddSourceOffsetVisitor_offsets_cases self (node_attrs n)) as Hc.
  destruct (first_token (node_attrs n)), (last_token (node_attrs n));
    try discriminate; exact Hc.
Qed.

(** Pass 3 either returns the tree with every node's attributes set by
    lines 83-94, or stops with an [AttributeError] at a node that has a
    [last_token] and no [first_token]. *)
Lemma AddSourceOffsetVisitor_visit_post n :
  forall self,
    span_post self (preorder n) (preorder_result (AddSourceOffsetVisitor_visit n self)).
Proof.
  induction n as [a v | a op operand IHop IHoperand | a name ch IH | cls a ch IH]
    using node_ind'; intros self; cbn [AddSourceOffsetVisitor_visit];
    unfold AddSourceOffsetVisitor_generic_visit.
  - destruct (unpaired (Constant a v)) eqn:Hu.
    + rewrite (AddSourceOffsetVisitor_offsets_unpaired self _ Hu). simpl.
      split; [reflexivity |]. now rewrite Hu.
    + destruct (AddSourceOffsetVisitor_offsets_paired self _ Hu) as (a' & Ha).
      rewrite Ha. simpl. split; [reflexivity |].
      constructor; [| constructor]. split; [exact Ha | reflexivity].
  - destruct (unpaired (UnaryOp a op operand)) eqn:Hu.
    + rewrite (AddSourceOffsetVisitor_offsets_unpaired self _ Hu). simpl.
      split; [reflexivity |]. now rewrite Hu.
    + destruct (AddSourceOffsetVisitor_offsets_paired self _ Hu) as (a' & Ha).
      rewrite Ha. simpl.
      pose proof (span_post_app self _ _ _ _ (IHop self) IHoperand) as H.
      destruct (AddSourceOffsetVisitor_visit op self) as [[op' s1] | e]; simpl in *.
      * destruct (AddSourceOffsetVisitor_visit operand s1) as [[operand' s2] | e];
          simpl in *.
        -- apply (span_post_root self (UnaryOp a op operand) (UnaryOp a' op' operand')
                    _ (Ok (_, _))); [split; [exact Ha | reflexivity] | exact H].
        -- apply (span_post_root self (UnaryOp a op operand) (UnaryOp a' op operand)
                    _ (Raise e)); [split; [exact Ha | reflexivity] | exact H].
      * apply (span_post_root self (UnaryOp a op operand) (UnaryOp a' op operand)
                 _ (Raise e)); [split; [exact Ha | reflexivity] | exact H].
  - destruct (unpaired (ClassDef a name ch)) eqn:Hu.
    + rewrite (AddSourceOffsetVisitor_offsets_unpaired self _ Hu). simpl.
      split; [reflexivity |]. now rewrite Hu.
    + destruct (AddSourceOffsetVisitor_offsets_paired self _ Hu) as (a' & Ha).
      rewrite Ha. simpl.
      pose proof (AddSourceOffsetVisitor_visit_list_post ch IH self) as H.
      destruct (visit_list AddSourceOffsetVisitor_visit ch self) as [[ch' s1] | e];
        simpl in *.
      * apply (span_post_root self (ClassDef a name ch) (ClassDef a' name ch')
                 _ (Ok (_, _))); [split; [exact Ha | reflexivity] | exact H].
      * apply (span_post_root self (ClassDef a name ch) (ClassDef a' name ch)
                 _ (Raise e)); [split; [exact Ha | reflexivity] | exact H].
  - destruct (unpaired (Other cls a ch)) eqn:Hu.
    + rewrite (AddSourceOffsetVisitor_offsets_unpaired self _ Hu). simpl.
      split; [reflexivity |]. now rewrite Hu.
    + destruct (AddSourceOffsetVisitor_offsets_paired self _ Hu) as (a' & Ha).
      rewrite Ha. simpl.
      pose proof (AddSourceOffsetVisitor_visit_list_post ch IH self) as H.
      destruct (visit_list AddSourceOffsetVisitor_visit ch self) as [[ch' s1] | e];
        simpl in *.
      * apply (span_post_root self (Other cls a ch) (Other cls a' ch')
                 _ (Ok (_, _))); [split; [exact Ha | reflexivity] | exact H].
      * apply (span_post_root self (Other cls a ch) (Other cls a' ch)
                 _ (Raise e)); [split; [exact Ha | reflexivity] | exact H].
Qed.

Lemma AddSourceOffsetVisitor_offsets_span self a a' :
  AddSourceOffsetVisitor_offsets self a = Ok a' ->
  span_of (_source_id self) a a' /\
  node_id a' = node_id a /\ ast_type a' = ast_type a /\
  source_code a' = source_code a /\ class_type a' = class_type a /\
  first_token a' = first_token a /\ last_token a' = last_token a.
Proof.
  unfold AddSourceOffsetVisitor_offsets, getattr_first_token, span_of.
  destruct a as [l c el ec sc id ty ct [ft |] [lt |] s]; simpl; intros H;
    try discriminate; inversion H; subst a'; simpl;
    (split; [split |]); try (intros; discriminate); auto.
  - intros ft' lt' Hft Hlt. inversion Hft; inversion Hlt; subst. auto.
  - repeat split; reflexivity.
  - repeat split; reflexivity.
  - repeat split; reflexivity.
Qed.

(** C4.  On a tree in which no node has a [last_token] without a
    [first_token], pass 3 returns, and every node of the tree, taken in
    pre-order, has its span fields set from its token association: the
    start of the first token, the end of the last token, and the
    identifier "byte_start:byte_len:source_id"; null position fields
    when the node has no association.  Tokens covering the offsets
    [10, 15) give the identifier "10:5:source_id". *)
Theorem C4_spans_from_token_association (n : node) (self : AddSourceOffsetVisitor) :
  existsb unpaired (preorder n) = false ->
  exists n',
    AddSourceOffsetVisitor_visit n self = Ok (n', self) /\
    Forall2 (fun m m' => span_of (_source_id self) (node_attrs m) (node_attrs m'))
      (preorder n) (preorder n') /\
    (forall m m' ft lt,
       In (m, m') (combine (preorder n) (preorder n')) ->
       first_token (node_attrs m) = Some ft -> last_token (node_attrs m) = Some lt ->
       startpos ft = 10 -> endpos lt = 15 ->
       src (node_attrs m') = Some ("10:5:" ++ str_int (_source_id self))%string).
Proof.
  intros Hn. pose proof (AddSourceOffsetVisitor_visit_post n self) as H.
  destruct (AddSourceOffsetVisitor_visit n self) as [[n' s] | e]; simpl in H;
    [| destruct H as (_ & Hex); congruence].
  destruct H as (-> & HF). exists n'. split; [reflexivity |].
  assert (HF' : Forall2 (fun m m' => span_of (_source_id self) (node_attrs m) (node_attrs m'))
                  (preorder n) (preorder n')).
  { eapply Forall2_impl; [exact HF |]. intros m m' [Hm _].
    now apply AddSourceOffsetVisitor_offsets_span in Hm as [Hs _]. }
  split; [exact HF' |].
  intros m m' ft lt Hin Hft Hlt Hs He.
  assert (Hspan : span_of (_source_id self) (node_attrs m) (node_attrs m')).
  { clear -HF' Hin. induction HF' as [| x y l l' Hxy _ IH]; simpl in Hin; [destruct Hin |].
    destruct Hin as [Heq | Hin]; [inversion Heq; subst; exact Hxy | exact (IH Hin)]. }
  destruct Hspan as [Hwith _].
  destruct (Hwith ft lt Hft Hlt) as (_ & _ & _ & _ & Hsrc).
  rewrite Hsrc, Hs, He. reflexivity.
Qed.

Lemma map_attrs_compose f g n :
  map_attrs f (map_attrs g n) = map_attrs (fun a => f (g a)) n.
Proof.
  induction n as [a v | a op operand IHop IHoperand | a name ch IH | cls a ch IH]
    using node_ind'; simpl.
  - reflexivity.
  - now rewrite IHop, IHoperand.
  - f_equal. rewrite map_map. apply map_ext_Forall. exact IH.
  - f_equal. rewrite map_map. apply map_ext_Forall. exact IH.
Qed.

Lemma map_attrs_ext f g n :
  (forall a, f a = g a) -> map_attrs f n = map_attrs g n.
Proof.
  intros Hfg.
  induction n as [a v | a op operand IHop IHoperand | a name ch IH | cls a ch IH]
    using node_ind'; simpl.
  - now rewrite Hfg.
  - now rewrite Hfg, IHop, IHoperand.
  - rewrite Hfg. f_equal. apply map_ext_Forall. exact IH.
  - rewrite Hfg. f_equal. apply map_ext_Forall. exact IH.
Qed.

Lemma ids_of_flat_map_map_attrs f ch :
  Forall (fun n => node_ids (map_attrs f n) = node_ids n) ch ->
  ids_of (flat_map preorder (map (map_attrs f) ch)) = ids_of (flat_map preorder ch).
Proof.
  induction 1 as [| c ch Hc _ IH]; simpl; [reflexivity |].
  unfold ids_of in *. rewrite !map_app. unfold node_ids in Hc. now rewrite Hc, IH.
Qed.

Lemma node_ids_map_attrs f n :
  (forall a, node_id (f a) = node_id a) ->
  node_ids (map_attrs f n) = node_ids n.
Proof.
  intros Hf.
  induction n as [a v | a op operand IHop IHoperand | a name ch IH | cls a ch IH]
    using node_ind'; unfold node_ids in *; simpl.
  - now rewrite Hf.
  - rewrite Hf, !map_app. now rewrite IHop, IHoperand.
  - rewrite Hf. f_equal. now apply ids_of_flat_map_map_attrs.
  - rewrite Hf. f_equal. now apply ids_of_flat_map_map_attrs.
Qed.

Lemma sample_ASTTokens_frame source_code tree :
  clear_tokens (sample_ASTTokens source_code tree) = clear_tokens tree.
Proof.
  unfold clear_tokens, sample_ASTTokens. rewrite map_attrs_compose.
  apply map_attrs_ext. intros a.
  destruct a as [[l |] [c |] el ec sc id ty ct ft lt s]; reflexivity.
Qed.

(** On [tree_name_10_15] under source identifier 7, pass 3 leaves
    [tree_name_10_15_spans]. *)
Example visit_tree_name_10_15 :
  AddSourceOffsetVisitor_visit tree_name_10_15 (mkAddSourceOffsetVisitor 7)
  = Ok (tree_name_10_15_spans, mkAddSourceOffsetVisitor 7).
Proof. reflexivity. Qed.

(** C4, on [tree_name_10_15] with source identifier 7. *)
Lemma C4_witness :
  exists n',
    AddSourceOffsetVisitor_visit tree_name_10_15 (mkAddSourceOffsetVisitor 7)
    = Ok (n', mkAddSourceOffsetVisitor 7) /\
    Forall2 (fun m m' => span_of 7 (node_attrs m) (node_attrs m'))
      (preorder tree_name_10_15) (preorder n') /\
    (forall m m' ft lt,
       In (m, m') (combine (preorder tree_name_10_15) (preorder n')) ->
       first_token (node_attrs m) = Some ft -> last_token (node_attrs m) = Some lt ->
       startpos ft = 10 -> endpos lt = 15 ->
       src (node_attrs m') = Some "10:5:7").
Proof.
  exact (C4_spans_from_token_association tree_name_10_15 (mkAddSourceOffsetVisitor 7)
           eq_refl).
Defined.

(** C8.  Pass 2 returns on every tree.  Pass 3 returns on a tree in
    which no node has a [last_token] without a [first_token], and on a
    tree with such a node it raises [AttributeError]: line 91 tests
    [last_token] and line 92 reads [first_token].
    [tree_last_token_only] is such a tree. *)
Theorem C8_span_pass_raises_on_last_token_without_first_token :
  (forall n self, exists n', RewriteUnarySubVisitor_visit n self = Ok (n', self)) /\
  (forall n, exists n', RewriteUnarySubVisitor_visit_in_place n = Ok n') /\
  (forall n self,
     existsb unpaired (preorder n) = false ->
     exists n', AddSourceOffsetVisitor_visit n self = Ok (n', self)) /\
  (forall n self,
     existsb unpaired (preorder n) = true ->
     AddSourceOffsetVisitor_visit n self = Raise (AttributeError "first_token")) /\
  AddSourceOffsetVisitor_visit tree_last_token_only (mkAddSourceOffsetVisitor 0)
  = Raise (AttributeError "first_token").
Proof.
  split; [| split; [| split; [| split]]].
  - intros n self. destruct (RewriteUnarySubVisitor_visit_returns n self) as (n' & H & _).
    eauto.
  - intros n. destruct (RewriteUnarySubVisitor_visit_in_place_returns n) as (n' & H & _).
    eauto.
  - intros n self Hn. pose proof (AddSourceOffsetVisitor_visit_post n self) as H.
    destruct (AddSourceOffsetVisitor_visit n self) as [[n' s] | e]; simpl in H.
    + destruct H as (-> & _). eauto.
    + destruct H as (_ & Hex). congruence.
  - intros n self Hn. pose proof (AddSourceOffsetVisitor_visit_post n self) as H.
    destruct (AddSourceOffsetVisitor_visit n self) as [[n' s] | e]; simpl in H.
    + destruct H as (-> & HF). exfalso.
      clear -HF Hn. induction HF as [| x y l l' [Hxy _] _ IH]; simpl in Hn; [discriminate |].
      apply orb_prop in Hn as [Hu | Hn]; [| exact (IH Hn)].
      rewrite (AddSourceOffsetVisitor_offsets_unpaired self x Hu) in Hxy. discriminate.
    + destruct H as (-> & _). reflexivity.
  - reflexivity.
Qed.

(** ** Properties of the entry point *)

(** A value is of one of the four recognised kinds exactly when one of
    the tests of [visit_Constant] accepts it. *)
Lemma const_subkind_None v :
  const_subkind v = None <->
  is_None v || isinstance_bool v || (isinstance_int v || isinstance_float v)
  || isinstance_str v || isinstance_bytes v = false.
Proof. destruct v; simpl; split; intros H; (reflexivity || discriminate). Qed.


(** On [x = 1j] the exception carries the fifth node of the tree. *)
Example annotate_complex_raises :
  annotate_python_ast sample_ASTTokens tree_assign_complex "x = 1j" None 0
  = Raise (SyntaxException unsupported_msg
             (Constant (set_ast_type "Constant"
                          (set_node_id 4 (set_source_code "x = 1j" (at_pos 1 4))))
                (VComplex 0 1))).
Proof. reflexivity. Qed.


(** The entry point drops what the visitors return.  When the tree given
    is itself the negation of a literal, the caller's object is still the
    unary node, around the negated literal. *)
Example annotate_root_negation :
  exists a a0 a',
    annotate_python_ast sample_ASTTokens
      (UnaryOp (at_pos 1 0) USub (Constant (at_pos 1 1) (VInt 3))) "-3" None 0
    = Ok (UnaryOp a (Other "USub" a0 []) (Constant a' (VInt (-3)))).
Proof. vm_compute. do 3 eexists. reflexivity. Qed.

(** ** Further properties of pass 2 *)

Lemma RewriteUnarySubVisitor_visit_list_unfoldable ch :
  Forall (fun n => forall self,
            existsb foldable (preorder n) = false ->
            RewriteUnarySubVisitor_visit n self = Ok (n, self)) ch ->
  forall self,
    existsb foldable (flat_map preorder ch) = false ->
    visit_list RewriteUnarySubVisitor_visit ch self = Ok (ch, self).
Proof.
  induction 1 as [| c ch Hc _ IH]; intros self Hex; simpl in *; [reflexivity |].
  rewrite existsb_app in Hex. apply orb_false_elim in Hex as [Hex1 Hex2].
  rewrite (Hc self Hex1). simpl. now rewrite (IH self Hex2).
Qed.

(** The statement of [RewriteUnarySubVisitor_visit_unfoldable], as the other proofs use it. *)
Lemma RewriteUnarySubVisitor_visit_unfoldable_tree n :
  forall self,
    existsb foldable (preorder n) = false ->
    RewriteUnarySubVisitor_visit n self = Ok (n, self).
Proof.
  induction n as [a v | a op operand IHop IHoperand | a name ch IH | cls a ch IH]
    using node_ind'; intros self Hex.
  - reflexivity.
  - simpl in Hex. apply orb_false_elim in Hex as [Hroot Hex].
    rewrite existsb_app in Hex. apply orb_false_elim in Hex as [Hex1 Hex2].
    cbn [RewriteUnarySubVisitor_visit].
    rewrite (RewriteUnarySubVisitor_visit_UnaryOp_eq _ a op operand self op operand
               (IHop self Hex1) (IHoperand self Hex2)).
    now rewrite Hroot.
  - simpl in Hex. simpl.
    now rewrite (RewriteUnarySubVisitor_visit_list_unfoldable ch IH self Hex).
  - simpl in Hex. simpl.
    now rewrite (RewriteUnarySubVisitor_visit_list_unfoldable ch IH self Hex).
Qed.



Lemma RewriteUnarySubVisitor_visit_list_normal ch :
  Forall (fun n => forall self n' self',
            RewriteUnarySubVisitor_visit n self = Ok (n', self') ->
            existsb foldable (preorder n') = false) ch ->
  forall self ch' self',
    visit_list RewriteUnarySubVisitor_visit ch self = Ok (ch', self') ->
    existsb foldable (flat_map preorder ch') = false.
Proof.
  induction 1 as [| c ch Hc _ IH]; intros self ch' self' Hv; simpl in Hv.
  - now inversion Hv.
  - destruct (RewriteUnarySubVisitor_visit c self) as [[c' s1] | e] eqn:Hc';
      simpl in Hv; [| discriminate].
    destruct (visit_list RewriteUnarySubVisitor_visit ch s1) as [[ch'' s2] | e] eqn:Hch;
      simpl in Hv; [| discriminate].
    inversion Hv; subst. simpl. rewrite existsb_app.
    now rewrite (Hc _ _ _ Hc'), (IH _ _ _ Hch).
Qed.

(** The statement of [RewriteUnarySubVisitor_visit_normal], as the other proofs use it. *)
Lemma RewriteUnarySubVisitor_visit_normal_tree n :
  forall self n' self',
    RewriteUnarySubVisitor_visit n self = Ok (n', self') ->
    existsb foldable (preorder n') = false.
Proof.
  induction n as [a v | a op operand IHop IHoperand | a name ch IH | cls a ch IH]
    using node_ind'; intros self n' self' Hv.
  - simpl in Hv. now inversion Hv.
  - destruct (RewriteUnarySubVisitor_visit_returns op self) as (op' & Hop & _).
    destruct (RewriteUnarySubVisitor_visit_returns operand self) as (operand' & Hoperand & _).
    cbn [RewriteUnarySubVisitor_visit] in Hv.
    rewrite (RewriteUnarySubVisitor_visit_UnaryOp_eq _ a op operand self op' operand'
               Hop Hoperand) in Hv.
    destruct (isinstance_USub op' && isinstance_Num operand') eqn:Hc.
    + apply andb_prop in Hc as [_ Hn].
      destruct (isinstance_Num_inv _ Hn) as (a1 & v1 & v1' & -> & Hz & _).
      rewrite Hz in Hv. simpl in Hv. now inversion Hv.
    + simpl in Hv. inversion Hv; subst. simpl. rewrite Hc, existsb_app.
      now rewrite (IHop _ _ _ Hop), (IHoperand _ _ _ Hoperand).
  - simpl in Hv.
    destruct (visit_list RewriteUnarySubVisitor_visit ch self) as [[ch' s1] | e] eqn:Hch;
      simpl in Hv; [| discriminate].
    inversion Hv; subst. simpl.
    exact (RewriteUnarySubVisitor_visit_list_normal ch IH _ _ _ Hch).
  - simpl in Hv.
    destruct (visit_list RewriteUnarySubVisitor_visit ch self) as [[ch' s1] | e] eqn:Hch;
      simpl in Hv; [| discriminate].
    inversion Hv; subst. simpl.
    exact (RewriteUnarySubVisitor_visit_list_normal ch IH _ _ _ Hch).
Qed.

(** The tree pass 2 returns holds no negation of a numeric literal: every
    one was folded, the ones that appear while folding included. *)
Theorem RewriteUnarySubVisitor_visit_normal n :
  forall self n' self',
    RewriteUnarySubVisitor_visit n self = Ok (n', self') ->
    existsb foldable (preorder n') = false.
Proof. intros; eapply RewriteUnarySubVisitor_visit_normal_tree; eassumption. Qed.

(** Pass 2 run on the tree it returned returns that tree again. *)
Theorem RewriteUnarySubVisitor_visit_idempotent n self n' self' :
  RewriteUnarySubVisitor_visit n self = Ok (n', self') ->
  RewriteUnarySubVisitor_visit n' self' = Ok (n', self').
Proof.
  intros Hv. apply RewriteUnarySubVisitor_visit_unfoldable_tree.
  exact (RewriteUnarySubVisitor_visit_normal_tree n self n' self' Hv).
Qed.

(** [not - - 5], in which the inner fold makes the outer negation
    foldable. *)
Lemma RewriteUnarySubVisitor_visit_normal_witness :
  existsb foldable
    (preorder (UnaryOp (at_pos 1 0) (Other "Not" no_attrs [])
                 (Constant (at_pos 1 4) (VInt 5)))) = false.
Proof.
  apply (RewriteUnarySubVisitor_visit_normal
           (UnaryOp (at_pos 1 0) (Other "Not" no_attrs [])
              (UnaryOp (at_pos 1 4) USub
                 (UnaryOp (at_pos 1 6) USub (Constant (at_pos 1 8) (VInt 5)))))
           mkRewriteUnarySubVisitor _ mkRewriteUnarySubVisitor).
  reflexivity.
Defined.

(** Idempotence, on [x = -3]. *)
Lemma RewriteUnarySubVisitor_visit_idempotent_witness :
  exists n',
    RewriteUnarySubVisitor_visit tree_assign_neg3 mkRewriteUnarySubVisitor
    = Ok (n', mkRewriteUnarySubVisitor) /\
    RewriteUnarySubVisitor_visit n' mkRewriteUnarySubVisitor
    = Ok (n', mkRewriteUnarySubVisitor).
Proof.
  eexists. split; [reflexivity |].
  apply (RewriteUnarySubVisitor_visit_idempotent tree_assign_neg3 mkRewriteUnarySubVisitor).
  reflexivity.
Defined.

Lemma node_origin_mono pre1 pre2 m' :
  (forall m, In m pre1 -> In m pre2) -> node_origin pre1 m' -> node_origin pre2 m'.
Proof. intros Hsub (m & Hin & H). exists m. split; [auto | exact H]. Qed.

Lemma node_origin_self (m : node) (pre : list node) :
  In m pre -> node_origin pre m.
Proof.
  intros Hin. exists m. split; [exact Hin |].
  split; [destruct m; simpl; auto |].
  split; [apply set_col_offset_same |].
  split; [auto |].
  intros v v' Hv Hv'. rewrite Hv in Hv'. now inversion Hv'.
Qed.

(** The root of a node that pass 2 keeps: the same class and attributes,
    around rewritten children. *)
Lemma node_origin_root (m m' : node) (pre : list node) :
  same_class m m' -> node_attrs m' = node_attrs m ->
  getattr_value m' = getattr_value m ->
  node_origin (m :: pre) m'.
Proof.
  intros Hc Ha Hv. exists m. split; [now left |]. split; [exact Hc |].
  split; [rewrite Ha; apply set_col_offset_same |].
  split; [auto |].
  intros v v' H H'. rewrite Hv, H in H'. now inversion H'.
Qed.

Lemma RewriteUnarySubVisitor_visit_list_node_origin ch :
  Forall (fun n => forall self n' self',
            RewriteUnarySubVisitor_visit n self = Ok (n', self') ->
            Forall (node_origin (preorder n)) (preorder n')) ch ->
  forall self ch' self',
    visit_list RewriteUnarySubVisitor_visit ch self = Ok (ch', self') ->
    Forall (node_origin (flat_map preorder ch)) (flat_map preorder ch').
Proof.
  induction 1 as [| c ch Hc _ IH]; intros self ch' self' Hv; simpl in Hv.
  - inversion Hv; subst. constructor.
  - destruct (RewriteUnarySubVisitor_visit c self) as [[c' s1] | e] eqn:Hc';
      simpl in Hv; [| discriminate].
    destruct (visit_list RewriteUnarySubVisitor_visit ch s1) as [[ch'' s2] | e] eqn:Hch;
      simpl in Hv; [| discriminate].
    inversion Hv; subst. simpl. apply Forall_app. split.
    + eapply Forall_impl; [exact (Hc _ _ _ Hc') |].
      intros m'. apply node_origin_mono. intros m Hm. apply in_or_app. now left.
    + eapply Forall_impl; [exact (IH _ _ _ Hch) |].
      intros m'. apply node_origin_mono. intros m Hm. apply in_or_app. now right.
Qed.

(** The statement of [RewriteUnarySubVisitor_visit_node_origin], as the other proofs use it. *)
Lemma RewriteUnarySubVisitor_visit_node_origin_tree n :
  forall self n' self',
    RewriteUnarySubVisitor_visit n self = Ok (n', self') ->
    Forall (node_origin (preorder n)) (preorder n').
Proof.
  induction n as [a v | a op operand IHop IHoperand | a name ch IH | cls a ch IH]
    using node_ind'; intros self n' self' Hv.
  - simpl in Hv. inversion Hv; subst. simpl.
    constructor; [| constructor]. apply node_origin_self. now left.
  - destruct (RewriteUnarySubVisitor_visit_returns op self) as (op' & Hop & _).
    destruct (RewriteUnarySubVisitor_visit_returns operand self) as (operand' & Hoperand & _).
    cbn [RewriteUnarySubVisitor_visit] in Hv.
    rewrite (RewriteUnarySubVisitor_visit_UnaryOp_eq _ a op operand self op' operand'
               Hop Hoperand) in Hv.
    pose proof (IHop _ _ _ Hop) as Hoop. pose proof (IHoperand _ _ _ Hoperand) as Hooperand.
    destruct (isinstance_USub op' && isinstance_Num operand') eqn:Hc.
    + apply andb_prop in Hc as [_ Hn].
      destruct (isinstance_Num_inv _ Hn) as (a1 & v1 & v1' & -> & Hz & _).
      rewrite Hz in Hv. simpl in Hv. inversion Hv; subst. simpl.
      constructor; [| constructor].
      simpl in Hooperand. inversion Hooperand as [| ? ? Ho _]; subst.
      destruct Ho as (m & Hin & Hcls & Hcol & Hsame & Hkind).
      exists m. split; [simpl; right; apply in_or_app; now right |].
      destruct m as [a0 v0 | | |]; try destruct Hcls.
      split; [exact I |]. cbn [node_attrs getattr_value] in *.
      split; [now rewrite set_col_offset_twice |].
      assert (Hnum : isinstance_Num (Constant a0 v0) = true).
      { destruct (isinstance_Num (Constant a0 v0)) eqn:E; [reflexivity |].
        destruct (Hsame eq_refl) as [_ Hv0]. inversion Hv0; subst v0.
        unfold isinstance_Num in E, Hn. congruence. }
      split; [intros H; congruence |].
      intros v v' Hv0 Hv'. inversion Hv0; subst v. inversion Hv'; subst v'.
      rewrite <- (Hkind v0 v1 eq_refl eq_refl).
      destruct v1; try discriminate; inversion Hz; reflexivity.
    + simpl in Hv. inversion Hv; subst. simpl. constructor.
      * now apply node_origin_root.
      * apply Forall_app. split.
        -- eapply Forall_impl; [exact Hoop |]. intros m'. apply node_origin_mono.
           intros m Hm. simpl. right. apply in_or_app. now left.
        -- eapply Forall_impl; [exact Hooperand |]. intros m'. apply node_origin_mono.
           intros m Hm. simpl. right. apply in_or_app. now right.
  - simpl in Hv.
    destruct (visit_list RewriteUnarySubVisitor_visit ch self) as [[ch' s1] | e] eqn:Hch;
      simpl in Hv; [| discriminate].
    inversion Hv; subst. simpl. constructor.
    + now apply node_origin_root.
    + eapply Forall_impl;
        [exact (RewriteUnarySubVisitor_visit_list_node_origin ch IH _ _ _ Hch) |].
      intros m'. apply node_origin_mono. intros m Hm. simpl. now right.
  - simpl in Hv.
    destruct (visit_list RewriteUnarySubVisitor_visit ch self) as [[ch' s1] | e] eqn:Hch;
      simpl in Hv; [| discriminate].
    inversion Hv; subst. simpl. constructor.
    + now apply node_origin_root.
    + eapply Forall_impl;
        [exact (RewriteUnarySubVisitor_visit_list_node_origin ch IH _ _ _ Hch) |].
      intros m'. apply node_origin_mono. intros m Hm. simpl. now right.
Qed.

(** Every node of the tree pass 2 returns is a node of the tree given:
    the pass makes no node, changes no class, and writes nothing but the
    starting column and the value of numeric literals. *)
Theorem RewriteUnarySubVisitor_visit_node_origin n :
  forall self n' self',
    RewriteUnarySubVisitor_visit n self = Ok (n', self') ->
    Forall (node_origin (preorder n)) (preorder n').
Proof. intros; eapply RewriteUnarySubVisitor_visit_node_origin_tree; eassumption. Qed.

(** Provenance, on [x = -3]. *)
Lemma RewriteUnarySubVisitor_visit_node_origin_witness :
  exists n',
    RewriteUnarySubVisitor_visit tree_assign_neg3 mkRewriteUnarySubVisitor
    = Ok (n', mkRewriteUnarySubVisitor) /\
    Forall (node_origin (preorder tree_assign_neg3)) (preorder n').
Proof.
  eexists. split; [reflexivity |].
  apply (RewriteUnarySubVisitor_visit_node_origin tree_assign_neg3
           mkRewriteUnarySubVisitor _ mkRewriteUnarySubVisitor).
  reflexivity.
Defined.

(** Two negations around an integer literal fold to the literal with the
    value it had, at the starting column of the outer negation. *)
Theorem RewriteUnarySubVisitor_double_negation
    (a b c : attrs) (op1 op2 : node) (z : Z) (self : RewriteUnarySubVisitor) :
  isinstance_USub op1 = true ->
  isinstance_USub op2 = true ->
  RewriteUnarySubVisitor_visit
    (UnaryOp a op1 (UnaryOp b op2 (Constant c (VInt z)))) self
  = Ok (Constant (set_col_offset (col_offset a) c) (VInt z), self).
Proof.
  intros H1 H2.
  destruct (isinstance_USub_inv op1 H1) as (a1 & ch1 & ->).
  destruct (isinstance_USub_inv op2 H2) as (a2 & ch2 & ->).
  destruct (RewriteUnarySubVisitor_visit_returns (Other "USub" a1 ch1) self)
    as (op1' & Hop1 & _).
  destruct (RewriteUnarySubVisitor_visit_returns (Other "USub" a2 ch2) self)
    as (op2' & Hop2 & _).
  assert (Hc1 : isinstance_USub op1' = true).
  { simpl in Hop1.
    destruct (visit_list RewriteUnarySubVisitor_visit ch1 self) as [[ch' s] | e];
      simpl in Hop1; [| discriminate].
    inversion Hop1; reflexivity. }
  assert (Hc2 : isinstance_USub op2' = true).
  { simpl in Hop2.
    destruct (visit_list RewriteUnarySubVisitor_visit ch2 self) as [[ch' s] | e];
      simpl in Hop2; [| discriminate].
    inversion Hop2; reflexivity. }
  assert (Hinner :
    RewriteUnarySubVisitor_visit (UnaryOp b (Other "USub" a2 ch2) (Constant c (VInt z))) self
    = Ok (Constant (set_col_offset (col_offset b) c) (VInt (0 - z)), self)).
  { cbn [RewriteUnarySubVisitor_visit].
    rewrite (RewriteUnarySubVisitor_visit_UnaryOp_eq _ b _ (Constant c (VInt z)) self op2'
               (Constant c (VInt z)) Hop2 eq_refl).
    rewrite Hc2. reflexivity. }
  cbn [RewriteUnarySubVisitor_visit].
  rewrite (RewriteUnarySubVisitor_visit_UnaryOp_eq _ a _ _ self op1' _ Hop1 Hinner).
  rewrite Hc1. simpl. rewrite set_col_offset_twice.
  repeat f_equal. lia.
Qed.

(** Double negation, on [- - 5]. *)
Lemma RewriteUnarySubVisitor_double_negation_witness :
  RewriteUnarySubVisitor_visit
    (UnaryOp (at_pos 1 0) USub (UnaryOp (at_pos 1 2) USub (Constant (at_pos 1 4) (VInt 5))))
    mkRewriteUnarySubVisitor
  = Ok (Constant (set_col_offset (Some 0) (at_pos 1 4)) (VInt 5), mkRewriteUnarySubVisitor).
Proof.
  apply (RewriteUnarySubVisitor_double_negation (at_pos 1 0) (at_pos 1 2) (at_pos 1 4)
           USub USub 5 mkRewriteUnarySubVisitor); reflexivity.
Defined.

(** ** Further properties of pass 1 *)

Lemma pass1_step_same_text self self' m m' :
  _source_code self' = _source_code self ->
  _class_types self' = _class_types self ->
  pass1_step self' m m' -> pass1_step self m m'.
Proof. unfold pass1_step. now intros -> ->. Qed.

Lemma pass1_steps_app self p1 p2 r1 k :
  pass1_steps self p1 r1 ->
  (forall self', pass1_steps self' p2 (k self')) ->
  pass1_steps self (p1 ++ p2) (seq_results r1 k).
Proof.
  intros H1 H2. destruct r1 as [[q1 s1] | e]; simpl in *; [| exact I].
  destruct H1 as (Hsc & Hct & HF1). specialize (H2 s1).
  destruct (k s1) as [[q2 s2] | e]; simpl in *; [| exact I].
  destruct H2 as (Hsc2 & Hct2 & HF2).
  split; [congruence |]. split; [congruence |].
  apply Forall2_app; [exact HF1 |].
  eapply Forall2_impl; [exact HF2 |]. intros m m'. now apply pass1_step_same_text.
Qed.

Lemma pass1_steps_root self n n' p r :
  pass1_step self n n' ->
  pass1_steps (advance self 1) p r ->
  pass1_steps self (n :: p) (let* (q, s) := r in Ok (n' :: q, s)).
Proof.
  intros Hn H. destruct r as [[q s] | e]; simpl in *; [| exact I].
  destruct H as (Hsc & Hct & HF).
  split; [exact Hsc |]. split; [exact Hct |].
  constructor; [exact Hn |]. exact HF.
Qed.

Lemma AnnotatingVisitor_visit_list_steps ch :
  Forall (fun n => forall self,
            pass1_steps self (preorder n)
              (preorder_result (AnnotatingVisitor_visit n self))) ch ->
  forall self,
    pass1_steps self (flat_map preorder ch)
      (forest_result (visit_list AnnotatingVisitor_visit ch self)).
Proof.
  induction 1 as [| c ch Hc _ IH]; intros self.
  - simpl. repeat split. constructor.
  - simpl.
    pose proof (pass1_steps_app self _ _ _ _ (Hc self) IH) as H.
    destruct (AnnotatingVisitor_visit c self) as [[c' s1] | e]; simpl in *; [| exact H].
    destruct (visit_list AnnotatingVisitor_visit ch s1) as [[ch' s2] | e];
      simpl in *; exact H.
Qed.

Lemma AnnotatingVisitor_visit_steps n :
  forall self,
    pass1_steps self (preorder n) (preorder_result (AnnotatingVisitor_visit n self)).
Proof.
  induction n as [a v | a op operand IHop IHoperand | a name ch IH | cls a ch IH]
    using node_ind'; intros self.
  - rewrite AnnotatingVisitor_visit_Constant_eq.
    destruct (const_subkind v) as [tag |] eqn:Hv; simpl; [| exact I].
    repeat split. constructor; [| constructor].
    split; [exact I |]. split; [reflexivity |].
    exists (counter self). unfold pass1_attrs, ast_type_of. rewrite Hv. reflexivity.
  - pose proof (pass1_steps_app (advance self 1) _ _ _ _
                  (IHop (advance self 1)) IHoperand) as H.
    simpl. unfold AnnotatingVisitor_generic_visit. simpl. fold (advance self 1).
    destruct (AnnotatingVisitor_visit op (advance self 1)) as [[op' s1] | e];
      simpl in *; [| exact I].
    destruct (AnnotatingVisitor_visit operand s1) as [[operand' s2] | e];
      simpl in *; [| exact I].
    apply (pass1_steps_root self (UnaryOp a op operand)
             (UnaryOp (annotated self "UnaryOp" a) op' operand') _ (Ok (_, _)));
      [split; [reflexivity |]; split; [reflexivity |];
       exists (counter self); reflexivity | exact H].
  - pose proof (AnnotatingVisitor_visit_list_steps ch IH (advance self 1)) as H.
    simpl. unfold AnnotatingVisitor_visit_ClassDef, AnnotatingVisitor_generic_visit.
    simpl. fold (advance self 1).
    destruct (visit_list AnnotatingVisitor_visit ch (advance self 1)) as [[ch' s1] | e];
      simpl in *; [| exact I].
    apply (pass1_steps_root self (ClassDef a name ch)
             (ClassDef (set_class_type (_class_types s1 !! name)
                          (annotated self "ClassDef" a)) name ch') _ (Ok (_, _)));
      [| exact H].
    split; [reflexivity |]. split; [reflexivity |].
    exists (counter self). destruct H as (_ & Hct & _). simpl in Hct.
    unfold pass1_attrs. simpl. now rewrite Hct.
  - pose proof (AnnotatingVisitor_visit_list_steps ch IH (advance self 1)) as H.
    simpl. unfold AnnotatingVisitor_generic_visit. simpl. fold (advance self 1).
    destruct (visit_list AnnotatingVisitor_visit ch (advance self 1)) as [[ch' s1] | e];
      simpl in *; [| exact I].
    apply (pass1_steps_root self (Other cls a ch)
             (Other cls (annotated self cls a) ch') _ (Ok (_, _)));
      [split; [reflexivity |]; split; [reflexivity |];
       exists (counter self); reflexivity | exact H].
Qed.

(** Pass 1 is an attribute rewrite, node by node: when it returns, the
    node at each pre-order position has the attributes it had, with
    [source_code] set to the source text, [node_id] to a number,
    [ast_type] to the constant's sub-kind or the class name and, on a
    class definition only, [class_type] to the table's entry for its
    name.  The position and token attributes and [src] are not written. *)
Theorem AnnotatingVisitor_visit_attributes n self n' self' :
  AnnotatingVisitor_visit n self = Ok (n', self') ->
  Forall2
    (fun m m' =>
       exists i : nat,
         node_attrs m' = pass1_attrs (_source_code self) (_class_types self) i m /\
         lineno (node_attrs m') = lineno (node_attrs m) /\
         col_offset (node_attrs m') = col_offset (node_attrs m) /\
         end_lineno (node_attrs m') = end_lineno (node_attrs m) /\
         end_col_offset (node_attrs m') = end_col_offset (node_attrs m) /\
         first_token (node_attrs m') = first_token (node_attrs m) /\
         last_token (node_attrs m') = last_token (node_attrs m) /\
         src (node_attrs m') = src (node_attrs m) /\
         source_code (node_attrs m') = Some (_source_code self) /\
         node_id (node_attrs m') = Some i /\
         ast_type (node_attrs m') = Some (ast_type_of m))
    (preorder n) (preorder n').
Proof.
  intros Hv. pose proof (AnnotatingVisitor_visit_steps n self) as H.
  rewrite Hv in H. simpl in H. destruct H as (_ & _ & HF).
  eapply Forall2_impl; [exact HF |].
  intros m m' (_ & _ & i & Hi). exists i. rewrite Hi.
  destruct m; simpl; repeat split; reflexivity.
Qed.

(** The attribute rewrite, on [tree_classes]. *)
Lemma AnnotatingVisitor_visit_attributes_witness :
  exists n' self',
    AnnotatingVisitor_visit tree_classes
      (AnnotatingVisitor_init "class Foo: ..." (Some {[ "Foo" := "contract" ]}))
    = Ok (n', self') /\
    Forall2
      (fun m m' =>
         exists i : nat,
           node_attrs m' = pass1_attrs "class Foo: ..." {[ "Foo" := "contract" ]} i m /\
           lineno (node_attrs m') = lineno (node_attrs m) /\
           col_offset (node_attrs m') = col_offset (node_attrs m) /\
           end_lineno (node_attrs m') = end_lineno (node_attrs m) /\
           end_col_offset (node_attrs m') = end_col_offset (node_attrs m) /\
           first_token (node_attrs m') = first_token (node_attrs m) /\
           last_token (node_attrs m') = last_token (node_attrs m) /\
           src (node_attrs m') = src (node_attrs m) /\
           source_code (node_attrs m') = Some "class Foo: ..." /\
           node_id (node_attrs m') = Some i /\
           ast_type (node_attrs m') = Some (ast_type_of m))
      (preorder tree_classes) (preorder n').
Proof.
  destruct (AnnotatingVisitor_visit_returns tree_classes
              (AnnotatingVisitor_init "class Foo: ..." (Some {[ "Foo" := "contract" ]}))
              eq_refl) as (n' & Hv & _).
  exists n'. eexists. split; [exact Hv |].
  exact (AnnotatingVisitor_visit_attributes tree_classes _ n' _ Hv).
Defined.

(** After pass 1 a class definition carries as [class_type] what the
    table holds for its name, and the null value when the name is not in
    the table or when no table was given; on every other node
    [class_type] is as it was. *)
Theorem AnnotatingVisitor_visit_class_type
    (n : node) (source_code : string) (class_types : option (gmap string string))
    (n' : node) (self' : AnnotatingVisitor) :
  AnnotatingVisitor_visit n (AnnotatingVisitor_init source_code class_types)
  = Ok (n', self') ->
  Forall2
    (fun m m' =>
       match m with
       | ClassDef _ name _ =>
           class_type (node_attrs m') =
             match class_types with
             | Some table => table !! name
             | None => None
             end
       | _ => class_type (node_attrs m') = class_type (node_attrs m)
       end)
    (preorder n) (preorder n').
Proof.
  intros Hv. pose proof (AnnotatingVisitor_visit_steps n
                           (AnnotatingVisitor_init source_code class_types)) as H.
  rewrite Hv in H. simpl in H. destruct H as (_ & _ & HF).
  eapply Forall2_impl; [exact HF |].
  intros m m' (_ & _ & i & Hi). rewrite Hi.
  destruct m; simpl; try reflexivity.
  destruct class_types as [table |]; [reflexivity | apply lookup_empty].
Qed.

(** [class_type], on [tree_classes] with [Foo] in the table and [Bar]
    not. *)
Lemma AnnotatingVisitor_visit_class_type_witness :
  exists n' self',
    AnnotatingVisitor_visit tree_classes
      (AnnotatingVisitor_init "class Foo: ..." (Some {[ "Foo" := "contract" ]}))
    = Ok (n', self') /\
    Forall2
      (fun m m' =>
         match m with
         | ClassDef _ name _ =>
             class_type (node_attrs m') =
               ({[ "Foo" := "contract" ]} : gmap string string) !! name
         | _ => class_type (node_attrs m') = class_type (node_attrs m)
         end)
      (preorder tree_classes) (preorder n').
Proof.
  destruct (AnnotatingVisitor_visit_returns tree_classes
              (AnnotatingVisitor_init "class Foo: ..." (Some {[ "Foo" := "contract" ]}))
              eq_refl) as (n' & Hv & _).
  exists n'. eexists. split; [exact Hv |].
  exact (AnnotatingVisitor_visit_class_type tree_classes "class Foo: ..."
           (Some {[ "Foo" := "contract" ]}) n' _ Hv).
Defined.

Lemma AnnotatingVisitor_visit_list_again ch :
  Forall (fun n => forall self n' self',
            AnnotatingVisitor_visit n self = Ok (n', self') ->
            AnnotatingVisitor_visit n' self = Ok (n', self')) ch ->
  forall self ch' self',
    visit_list AnnotatingVisitor_visit ch self = Ok (ch', self') ->
    visit_list AnnotatingVisitor_visit ch' self = Ok (ch', self').
Proof.
  induction 1 as [| c ch Hc _ IH]; intros self ch' self' Hv; simpl in Hv.
  - now inversion Hv.
  - destruct (AnnotatingVisitor_visit c self) as [[c' s1] | e] eqn:Hc';
      simpl in Hv; [| discriminate].
    destruct (visit_list AnnotatingVisitor_visit ch s1) as [[ch'' s2] | e] eqn:Hch;
      simpl in Hv; [| discriminate].
    inversion Hv; subst. simpl.
    rewrite (Hc _ _ _ Hc'). simpl. now rewrite (IH _ _ _ Hch).
Qed.

(** Pass 1 overwrites what it finds: run again, by a visitor in the
    state the first run started from, on the tree the first run returned,
    it returns that tree unchanged. *)
Theorem AnnotatingVisitor_visit_again n :
  forall self n' self',
    AnnotatingVisitor_visit n self = Ok (n', self') ->
    AnnotatingVisitor_visit n' self = Ok (n', self').
Proof.
  induction n as [a v | a op operand IHop IHoperand | a name ch IH | cls a ch IH]
    using node_ind'; intros self n' self' Hv.
  - rewrite AnnotatingVisitor_visit_Constant_eq in Hv.
    destruct (const_subkind v) as [tag |] eqn:Htag; [| discriminate].
    inversion Hv; subst. rewrite AnnotatingVisitor_visit_Constant_eq, Htag. reflexivity.
  - simpl in Hv. unfold AnnotatingVisitor_generic_visit in Hv. simpl in Hv.
    destruct (AnnotatingVisitor_visit op _) as [[op' s1] | e] eqn:Hop; simpl in Hv;
      [| discriminate].
    destruct (AnnotatingVisitor_visit operand s1) as [[operand' s2] | e] eqn:Hoperand;
      simpl in Hv; [| discriminate].
    inversion Hv; subst. simpl. unfold AnnotatingVisitor_generic_visit. simpl.
    rewrite (IHop _ _ _ Hop). simpl. rewrite (IHoperand _ _ _ Hoperand). reflexivity.
  - simpl in Hv.
    unfold AnnotatingVisitor_visit_ClassDef, AnnotatingVisitor_generic_visit in Hv.
    simpl in Hv.
    destruct (visit_list AnnotatingVisitor_visit ch _) as [[ch' s1] | e] eqn:Hch;
      simpl in Hv; [| discriminate].
    inversion Hv; subst. simpl.
    unfold AnnotatingVisitor_visit_ClassDef, AnnotatingVisitor_generic_visit. simpl.
    rewrite (AnnotatingVisitor_visit_list_again ch IH _ _ _ Hch). reflexivity.
  - simpl in Hv. unfold AnnotatingVisitor_generic_visit in Hv. simpl in Hv.
    destruct (visit_list AnnotatingVisitor_visit ch _) as [[ch' s1] | e] eqn:Hch;
      simpl in Hv; [| discriminate].
    inversion Hv; subst. simpl. unfold AnnotatingVisitor_generic_visit. simpl.
    rewrite (AnnotatingVisitor_visit_list_again ch IH _ _ _ Hch). reflexivity.
Qed.

(** Pass 1 twice, on [tree_classes]. *)
Lemma AnnotatingVisitor_visit_again_witness :
  exists n' self',
    AnnotatingVisitor_visit tree_classes (AnnotatingVisitor_init "class Foo: ..." None)
    = Ok (n', self') /\
    AnnotatingVisitor_visit n' (AnnotatingVisitor_init "class Foo: ..." None)
    = Ok (n', self').
Proof.
  destruct (AnnotatingVisitor_visit_returns tree_classes
              (AnnotatingVisitor_init "class Foo: ..." None) eq_refl) as (n' & Hv & _).
  exists n'. eexists. split; [exact Hv |].
  exact (AnnotatingVisitor_visit_again tree_classes _ n' _ Hv).
Defined.

(** ** Further properties of pass 3 *)

Lemma AddSourceOffsetVisitor_offsets_positions self a a' :
  AddSourceOffsetVisitor_offsets self a = Ok a' -> positions_from_tokens a'.
Proof.
  unfold AddSourceOffsetVisitor_offsets, getattr_first_token, positions_from_tokens.
  destruct a as [l c el ec sc id ty ct [ft |] [lt |] s]; simpl; intros H;
    try discriminate; inversion H; subst a'; simpl; split; reflexivity.
Qed.

(** The statement of [AddSourceOffsetVisitor_visit_positions], as the other proofs use it. *)
Lemma AddSourceOffsetVisitor_visit_positions_tree n self n' self' :
  AddSourceOffsetVisitor_visit n self = Ok (n', self') ->
  Forall (fun m' => positions_from_tokens (node_attrs m')) (preorder n').
Proof.
  intros Hv. pose proof (AddSourceOffsetVisitor_visit_post n self) as H.
  rewrite Hv in H. simpl in H. destruct H as (_ & HF).
  induction HF as [| x y l l' [Hxy _] _ IH]; constructor; [| exact IH].
  exact (AddSourceOffsetVisitor_offsets_positions self _ _ Hxy).
Qed.

(** In the tree pass 3 returns, the four position attributes of every
    node are those of its tokens, whatever they were before: the column
    written by pass 2 and the positions given by the parser are replaced.
    A node with a [first_token] only has its end position null. *)
Theorem AddSourceOffsetVisitor_visit_positions n self n' self' :
  AddSourceOffsetVisitor_visit n self = Ok (n', self') ->
  Forall (fun m' => positions_from_tokens (node_attrs m')) (preorder n').
Proof. intros; eapply AddSourceOffsetVisitor_visit_positions_tree; eassumption. Qed.

(** Positions, on [tree_name_10_15], whose [Load] node had a position
    and has no token. *)
Lemma AddSourceOffsetVisitor_visit_positions_witness :
  Forall (fun m' => positions_from_tokens (node_attrs m')) (preorder tree_name_10_15_spans).
Proof.
  apply (AddSourceOffsetVisitor_visit_positions tree_name_10_15
           (mkAddSourceOffsetVisitor 7) _ (mkAddSourceOffsetVisitor 7)).
  reflexivity.
Defined.

Lemma AddSourceOffsetVisitor_visit_list_shape ch :
  Forall (fun n => forall self n' self',
            AddSourceOffsetVisitor_visit n self = Ok (n', self') -> shape n' = shape n) ch ->
  forall self ch' self',
    visit_list AddSourceOffsetVisitor_visit ch self = Ok (ch', self') ->
    map shape ch' = map shape ch.
Proof.
  induction 1 as [| c ch Hc _ IH]; intros self ch' self' Hv; simpl in Hv.
  - now inversion Hv.
  - destruct (AddSourceOffsetVisitor_visit c self) as [[c' s1] | e] eqn:Hc'; simpl in Hv;
      [| discriminate].
    destruct (visit_list AddSourceOffsetVisitor_visit ch s1) as [[ch'' s2] | e] eqn:Hch;
      simpl in Hv; [| discriminate].
    inversion Hv; subst. simpl. now rewrite (Hc _ _ _ Hc'), (IH _ _ _ Hch).
Qed.

Lemma AddSourceOffsetVisitor_visit_shape n :
  forall self n' self',
    AddSourceOffsetVisitor_visit n self = Ok (n', self') -> shape n' = shape n.
Proof.
  induction n as [a v | a op operand IHop IHoperand | a name ch IH | cls a ch IH]
    using node_ind'; intros self n' self' Hv; cbn [AddSourceOffsetVisitor_visit] in Hv;
    unfold AddSourceOffsetVisitor_generic_visit in Hv;
    destruct (AddSourceOffsetVisitor_offsets self _) as [a' | e]; simpl in Hv;
    try discriminate.
  - now inversion Hv.
  - destruct (AddSourceOffsetVisitor_visit op self) as [[op' s1] | e] eqn:Hop;
      simpl in Hv; [| discriminate].
    destruct (AddSourceOffsetVisitor_visit operand s1) as [[operand' s2] | e] eqn:Hoperand;
      simpl in Hv; [| discriminate].
    inversion Hv; subst. unfold shape in *. simpl.
    now rewrite (IHop _ _ _ Hop), (IHoperand _ _ _ Hoperand).
  - destruct (visit_list AddSourceOffsetVisitor_visit ch self) as [[ch' s1] | e] eqn:Hch;
      simpl in Hv; [| discriminate].
    inversion Hv; subst. unfold shape. simpl. f_equal.
    exact (AddSourceOffsetVisitor_visit_list_shape ch IH _ _ _ Hch).
  - destruct (visit_list AddSourceOffsetVisitor_visit ch self) as [[ch' s1] | e] eqn:Hch;
      simpl in Hv; [| discriminate].
    inversion Hv; subst. unfold shape. simpl. f_equal.
    exact (AddSourceOffsetVisitor_visit_list_shape ch IH _ _ _ Hch).
Qed.

Lemma AddSourceOffsetVisitor_offsets_src self a a' :
  AddSourceOffsetVisitor_offsets self a = Ok a' ->
  last_token a = None -> src a' = src a.
Proof.
  unfold AddSourceOffsetVisitor_offsets, getattr_first_token.
  destruct a as [l c el ec sc id ty ct [ft |] [lt |] s]; simpl; intros H Hl;
    try discriminate; inversion H; reflexivity.
Qed.

(** The statement of [AddSourceOffsetVisitor_visit_frame], as the other proofs use it. *)
Lemma AddSourceOffsetVisitor_visit_frame_tree n self n' self' :
  AddSourceOffsetVisitor_visit n self = Ok (n', self') ->
  shape n' = shape n /\
  self' = self /\
  Forall2
    (fun m m' =>
       node_id (node_attrs m') = node_id (node_attrs m) /\
       ast_type (node_attrs m') = ast_type (node_attrs m) /\
       source_code (node_attrs m') = source_code (node_attrs m) /\
       class_type (node_attrs m') = class_type (node_attrs m) /\
       first_token (node_attrs m') = first_token (node_attrs m) /\
       last_token (node_attrs m') = last_token (node_attrs m) /\
       (last_token (node_attrs m) = None -> src (node_attrs m') = src (node_attrs m)))
    (preorder n) (preorder n').
Proof.
  intros Hv. split; [exact (AddSourceOffsetVisitor_visit_shape n _ _ _ Hv) |].
  pose proof (AddSourceOffsetVisitor_visit_post n self) as H.
  rewrite Hv in H. simpl in H. destruct H as (-> & HF).
  split; [reflexivity |].
  eapply Forall2_impl; [exact HF |].
  intros m m' [Hm _].
  pose proof (AddSourceOffsetVisitor_offsets_src self _ _ Hm) as Hsrc.
  apply AddSourceOffsetVisitor_offsets_span in Hm as (_ & H1 & H2 & H3 & H4 & H5 & H6).
  repeat split; assumption.
Qed.

(** Pass 3 writes the four position attributes and [src], and nothing
    else: the tree it returns has the nodes, classes and values of the
    tree given, every node keeps [node_id], [ast_type], [source_code],
    [class_type] and its tokens, and a node without [last_token] keeps
    the [src] it had. *)
Theorem AddSourceOffsetVisitor_visit_frame n self n' self' :
  AddSourceOffsetVisitor_visit n self = Ok (n', self') ->
  shape n' = shape n /\
  self' = self /\
  Forall2
    (fun m m' =>
       node_id (node_attrs m') = node_id (node_attrs m) /\
       ast_type (node_attrs m') = ast_type (node_attrs m) /\
       source_code (node_attrs m') = source_code (node_attrs m) /\
       class_type (node_attrs m') = class_type (node_attrs m) /\
       first_token (node_attrs m') = first_token (node_attrs m) /\
       last_token (node_attrs m') = last_token (node_attrs m) /\
       (last_token (node_attrs m) = None -> src (node_attrs m') = src (node_attrs m)))
    (preorder n) (preorder n').
Proof. intros; eapply AddSourceOffsetVisitor_visit_frame_tree; eassumption. Qed.

(** The frame of pass 3, on [tree_name_10_15]. *)
Lemma AddSourceOffsetVisitor_visit_frame_witness :
  shape tree_name_10_15_spans = shape tree_name_10_15 /\
  mkAddSourceOffsetVisitor 7 = mkAddSourceOffsetVisitor 7 /\
  Forall2
    (fun m m' =>
       node_id (node_attrs m') = node_id (node_attrs m) /\
       ast_type (node_attrs m') = ast_type (node_attrs m) /\
       source_code (node_attrs m') = source_code (node_attrs m) /\
       class_type (node_attrs m') = class_type (node_attrs m) /\
       first_token (node_attrs m') = first_token (node_attrs m) /\
       last_token (node_attrs m') = last_token (node_attrs m) /\
       (last_token (node_attrs m) = None -> src (node_attrs m') = src (node_attrs m)))
    (preorder tree_name_10_15) (preorder tree_name_10_15_spans).
Proof.
  exact (AddSourceOffsetVisitor_visit_frame tree_name_10_15 (mkAddSourceOffsetVisitor 7)
           tree_name_10_15_spans (mkAddSourceOffsetVisitor 7) eq_refl).
Defined.

Lemma AddSourceOffsetVisitor_offsets_again self a a' :
  AddSourceOffsetVisitor_offsets self a = Ok a' ->
  AddSourceOffsetVisitor_offsets self a' = Ok a'.
Proof.
  unfold AddSourceOffsetVisitor_offsets, getattr_first_token.
  destruct a as [l c el ec sc id ty ct [ft |] [lt |] s]; simpl; intros H;
    try discriminate; inversion H; reflexivity.
Qed.

Lemma AddSourceOffsetVisitor_visit_list_again ch :
  Forall (fun n => forall self n' self',
            AddSourceOffsetVisitor_visit n self = Ok (n', self') ->
            AddSourceOffsetVisitor_visit n' self = Ok (n', self')) ch ->
  forall self ch' self',
    visit_list AddSourceOffsetVisitor_visit ch self = Ok (ch', self') ->
    visit_list AddSourceOffsetVisitor_visit ch' self = Ok (ch', self').
Proof.
  induction 1 as [| c ch Hc _ IH]; intros self ch' self' Hv; simpl in Hv.
  - now inversion Hv.
  - destruct (AddSourceOffsetVisitor_visit c self) as [[c' s1] | e] eqn:Hc';
      simpl in Hv; [| discriminate].
    destruct (visit_list AddSourceOffsetVisitor_visit ch s1) as [[ch'' s2] | e] eqn:Hch;
      simpl in Hv; [| discriminate].
    inversion Hv; subst. simpl.
    rewrite (Hc _ _ _ Hc'). simpl. now rewrite (IH _ _ _ Hch).
Qed.

(** Pass 3 run again, with the same source identifier, on the tree it
    returned returns that tree unchanged: the tokens stay on the nodes
    and decide the spans. *)
Theorem AddSourceOffsetVisitor_visit_again n :
  forall self n' self',
    AddSourceOffsetVisitor_visit n self = Ok (n', self') ->
    AddSourceOffsetVisitor_visit n' self = Ok (n', self').
Proof.
  induction n as [a v | a op operand IHop IHoperand | a name ch IH | cls a ch IH]
    using node_ind'; intros self n' self' Hv; cbn [AddSourceOffsetVisitor_visit] in Hv;
    unfold AddSourceOffsetVisitor_generic_visit in Hv;
    destruct (AddSourceOffsetVisitor_offsets self _) as [a' | e] eqn:Ha; simpl in Hv;
    try discriminate; apply AddSourceOffsetVisitor_offsets_again in Ha.
  - inversion Hv; subst. cbn [AddSourceOffsetVisitor_visit].
    unfold AddSourceOffsetVisitor_generic_visit. simpl. rewrite Ha. reflexivity.
  - destruct (AddSourceOffsetVisitor_visit op self) as [[op' s1] | e] eqn:Hop;
      simpl in Hv; [| discriminate].
    destruct (AddSourceOffsetVisitor_visit operand s1) as [[operand' s2] | e] eqn:Hoperand;
      simpl in Hv; [| discriminate].
    inversion Hv; subst. cbn [AddSourceOffsetVisitor_visit].
    unfold AddSourceOffsetVisitor_generic_visit. simpl. rewrite Ha. simpl.
    rewrite (IHop _ _ _ Hop). simpl. rewrite (IHoperand _ _ _ Hoperand). reflexivity.
  - destruct (visit_list AddSourceOffsetVisitor_visit ch self) as [[ch' s1] | e] eqn:Hch;
      simpl in Hv; [| discriminate].
    inversion Hv; subst. cbn [AddSourceOffsetVisitor_visit].
    unfold AddSourceOffsetVisitor_generic_visit. simpl. rewrite Ha. simpl.
    rewrite (AddSourceOffsetVisitor_visit_list_again ch IH _ _ _ Hch). reflexivity.
  - destruct (visit_list AddSourceOffsetVisitor_visit ch self) as [[ch' s1] | e] eqn:Hch;
      simpl in Hv; [| discriminate].
    inversion Hv; subst. cbn [AddSourceOffsetVisitor_visit].
    unfold AddSourceOffsetVisitor_generic_visit. simpl. rewrite Ha. simpl.
    rewrite (AddSourceOffsetVisitor_visit_list_again ch IH _ _ _ Hch). reflexivity.
Qed.

(** Pass 3 twice, on [tree_name_10_15]. *)
Lemma AddSourceOffsetVisitor_visit_again_witness :
  AddSourceOffsetVisitor_visit tree_name_10_15_spans (mkAddSourceOffsetVisitor 7)
  = Ok (tree_name_10_15_spans, mkAddSourceOffsetVisitor 7).
Proof.
  apply (AddSourceOffsetVisitor_visit_again tree_name_10_15 (mkAddSourceOffsetVisitor 7)).
  reflexivity.
Defined.

(** ** Further properties of the entry point *)

Lemma same_class_refl m : same_class m m.
Proof. destruct m; simpl; auto. Qed.

Lemma same_class_trans m1 m2 m3 : same_class m1 m2 -> same_class m2 m3 -> same_class m1 m3.
Proof. destruct m1, m2, m3; simpl; intros H1 H2; try contradiction; congruence. Qed.

Lemma map_attrs_head f g x y :
  map_attrs f x = map_attrs g y ->
  same_class x y /\ getattr_value y = getattr_value x /\ f (node_attrs x) = g (node_attrs y).
Proof.
  destruct x, y; simpl; intros H; try discriminate; inversion H; subst; auto.
Qed.

Lemma preorder_map_attrs f n :
  preorder (map_attrs f n) = map (map_attrs f) (preorder n).
Proof.
  induction n as [a v | a op operand IHop IHoperand | a name ch IH | cls a ch IH]
    using node_ind'; simpl.
  - reflexivity.
  - now rewrite IHop, IHoperand, map_app.
  - f_equal. induction IH as [| c ch Hc _ IHch]; simpl; [reflexivity |].
    now rewrite Hc, IHch, map_app.
  - f_equal. induction IH as [| c ch Hc _ IHch]; simpl; [reflexivity |].
    now rewrite Hc, IHch, map_app.
Qed.

Lemma map_eq_Forall2 {A B : Type} (h : A -> B) (l1 l2 : list A) :
  map h l1 = map h l2 -> Forall2 (fun x y => h x = h y) l1 l2.
Proof.
  revert l2. induction l1 as [| x l1 IH]; intros [| y l2] H; simpl in H;
    try discriminate; constructor; inversion H; auto.
Qed.

(** Trees that differ in attributes [f] forgets have, node by node, the
    same classes and values and the same attributes up to [f]. *)
Lemma map_attrs_eq_nodes f x y :
  map_attrs f x = map_attrs f y ->
  Forall2 (fun m m' =>
             same_class m m' /\ getattr_value m' = getattr_value m /\
             f (node_attrs m) = f (node_attrs m'))
    (preorder x) (preorder y).
Proof.
  intros H. apply (f_equal preorder) in H. rewrite !preorder_map_attrs in H.
  apply map_eq_Forall2 in H. eapply Forall2_impl; [exact H |].
  intros m m'. apply map_attrs_head.
Qed.

Lemma foldable_map_attrs f m : foldable (map_attrs f m) = foldable m.
Proof.
  destruct m as [| a op operand | |]; simpl; try reflexivity.
  f_equal; [destruct op | destruct operand]; reflexivity.
Qed.

Lemma existsb_foldable_shape x y :
  shape x = shape y ->
  existsb foldable (tl (preorder x)) = existsb foldable (tl (preorder y)).
Proof.
  intros H. apply (f_equal preorder) in H. unfold shape in H.
  rewrite !preorder_map_attrs in H.
  assert (Hx : forall l, existsb foldable (map (map_attrs (fun _ => no_attrs)) l)
                         = existsb foldable l).
  { induction l as [| m l IH]; simpl; [reflexivity |].
    now rewrite foldable_map_attrs, IH. }
  assert (Htl : forall l : list node,
             map (map_attrs (fun _ => no_attrs)) (tl l)
             = tl (map (map_attrs (fun _ => no_attrs)) l)) by (intros [| m l]; reflexivity).
  rewrite <- (Hx (tl (preorder x))), <- (Hx (tl (preorder y))), !Htl.
  now rewrite H.
Qed.

Lemma clear_tokens_shape x y : clear_tokens x = clear_tokens y -> shape x = shape y.
Proof.
  intros H. apply (f_equal shape) in H. unfold shape, clear_tokens in H.
  now rewrite !map_attrs_compose in H.
Qed.

Lemma ast_type_of_head m m' :
  same_class m m' ->
  (forall v v', getattr_value m = Ok v -> getattr_value m' = Ok v' ->
                const_subkind v' = const_subkind v) ->
  ast_type_of m' = ast_type_of m /\ node_supported m' = node_supported m.
Proof.
  destruct m, m'; simpl; intros Hc Hv; try contradiction; subst; auto.
  now rewrite (Hv _ _ eq_refl eq_refl).
Qed.

Lemma decorated_transfer sc m m' :
  same_class m m' ->
  (forall v v', getattr_value m = Ok v -> getattr_value m' = Ok v' ->
                const_subkind v' = const_subkind v) ->
  source_code (node_attrs m') = source_code (node_attrs m) ->
  node_id (node_attrs m') = node_id (node_attrs m) ->
  ast_type (node_attrs m') = ast_type (node_attrs m) ->
  decorated sc m -> decorated sc m'.
Proof.
  intros Hc Hv Hsc Hid Hty (H1 & H2 & H3 & H4).
  destruct (ast_type_of_head m m' Hc Hv) as [Hty' Hsup].
  unfold decorated. rewrite Hsc, Hid, Hty, Hty', Hsup. auto.
Qed.

Lemma same_value_kind m m' :
  getattr_value m' = getattr_value m ->
  forall v v', getattr_value m = Ok v -> getattr_value m' = Ok v' ->
               const_subkind v' = const_subkind v.
Proof. intros H v v' Hv Hv'. rewrite H, Hv in Hv'. now inversion Hv'. Qed.

(** The caller's object after pass 2: its nodes are nodes of the tree
    given, it is the node the pass was called on, with the attributes it
    had, and below it no negation of a numeric literal is left. *)
Lemma RewriteUnarySubVisitor_visit_in_place_spec n n' :
  RewriteUnarySubVisitor_visit_in_place n = Ok n' ->
  Forall (node_origin (preorder n)) (preorder n') /\
  same_class n n' /\ node_attrs n' = node_attrs n /\
  existsb foldable (tl (preorder n')) = false.
Proof.
  unfold RewriteUnarySubVisitor_visit_in_place.
  destruct n as [a v | a op operand | a name ch | cls a ch].
  - simpl. intros H; inversion H; subst. simpl. repeat split.
    constructor; [| constructor]. apply node_origin_self. now left.
  - destruct (RewriteUnarySubVisitor_visit_returns op mkRewriteUnarySubVisitor)
      as (op' & Hop & _).
    destruct (RewriteUnarySubVisitor_visit_returns operand mkRewriteUnarySubVisitor)
      as (operand' & Hoperand & _).
    pose proof (RewriteUnarySubVisitor_visit_node_origin_tree (UnaryOp a op operand)
                  mkRewriteUnarySubVisitor) as Hret.
    cbn [RewriteUnarySubVisitor_visit] in Hret.
    rewrite (RewriteUnarySubVisitor_visit_UnaryOp_eq _ a op operand _ op' operand'
               Hop Hoperand) in Hret |- *.
    pose proof (RewriteUnarySubVisitor_visit_node_origin_tree _ _ _ _ Hop) as Hoop.
    pose proof (RewriteUnarySubVisitor_visit_normal_tree _ _ _ _ Hop) as Hnop.
    pose proof (RewriteUnarySubVisitor_visit_normal_tree _ _ _ _ Hoperand) as Hnoperand.
    destruct (isinstance_USub op' && isinstance_Num operand') eqn:Hc.
    + apply andb_prop in Hc as [_ Hn].
      destruct (isinstance_Num_inv _ Hn) as (a1 & v1 & v1' & -> & Hz & _).
      rewrite Hz in Hret |- *. simpl in Hret |- *.
      specialize (Hret _ _ eq_refl). simpl in Hret.
      intros H; inversion H; subst. simpl.
      split; [| split; [exact I | split; [reflexivity |]]].
      * constructor; [now apply node_origin_root |].
        apply Forall_app. split; [| exact Hret].
        eapply Forall_impl; [exact Hoop |]. intros m'. apply node_origin_mono.
        intros m Hm. simpl. right. apply in_or_app. now left.
      * rewrite existsb_app, Hnop. reflexivity.
    + simpl in Hret |- *. specialize (Hret _ _ eq_refl).
      intros H; inversion H; subst. simpl.
      split; [exact Hret |]. split; [exact I |]. split; [reflexivity |].
      now rewrite existsb_app, Hnop, Hnoperand.
  - destruct (RewriteUnarySubVisitor_visit (ClassDef a name ch) mkRewriteUnarySubVisitor)
      as [[r s] | e] eqn:Hv; simpl; intros H; inversion H; subst.
    pose proof (RewriteUnarySubVisitor_visit_node_origin_tree _ _ _ _ Hv) as Ho.
    pose proof (RewriteUnarySubVisitor_visit_normal_tree _ _ _ _ Hv) as Hn.
    simpl in Hv.
    destruct (visit_list RewriteUnarySubVisitor_visit ch mkRewriteUnarySubVisitor)
      as [[ch' s1] | e]; simpl in Hv; [| discriminate].
    inversion Hv; subst. simpl in Hn |- *. auto.
  - destruct (RewriteUnarySubVisitor_visit (Other cls a ch) mkRewriteUnarySubVisitor)
      as [[r s] | e] eqn:Hv; simpl; intros H; inversion H; subst.
    pose proof (RewriteUnarySubVisitor_visit_node_origin_tree _ _ _ _ Hv) as Ho.
    pose proof (RewriteUnarySubVisitor_visit_normal_tree _ _ _ _ Hv) as Hn.
    simpl in Hv.
    destruct (visit_list RewriteUnarySubVisitor_visit ch mkRewriteUnarySubVisitor)
      as [[ch' s1] | e]; simpl in Hv; [| discriminate].
    inversion Hv; subst. simpl in Hn |- *. auto.
Qed.

Lemma preorder_head_Forall2 (R : node -> node -> Prop) x y :
  Forall2 R (preorder x) (preorder y) -> R x y.
Proof. destruct x, y; simpl; intros H; now inversion H. Qed.

Lemma Forall2_conj {A B : Type} (R S : A -> B -> Prop) l l' :
  Forall2 R l l' -> Forall2 S l l' -> Forall2 (fun x y => R x y /\ S x y) l l'.
Proof.
  intros HR. induction HR as [| x y l l' Hxy _ IH]; intros HS; inversion HS; subst;
    constructor; auto.
Qed.

Lemma Forall2_Forall_transfer {A B : Type} (R : A -> B -> Prop) (P : A -> Prop)
    (Q : B -> Prop) l l' :
  (forall x y, R x y -> P x -> Q y) ->
  Forall2 R l l' -> Forall P l -> Forall Q l'.
Proof.
  intros H HR. induction HR as [| x y l l' Hxy _ IH]; intros HP; constructor;
    inversion HP; subst; eauto.
Qed.

(** The three runs inside a call of the entry point that returns. *)
Lemma annotate_python_ast_inv ASTTokens t source_code class_types source_id t' :
  annotate_python_ast ASTTokens t source_code class_types source_id = Ok t' ->
  exists t1 self1 t2 self3,
    AnnotatingVisitor_visit t (AnnotatingVisitor_init source_code class_types)
    = Ok (t1, self1) /\
    RewriteUnarySubVisitor_visit_in_place t1 = Ok t2 /\
    AddSourceOffsetVisitor_visit (ASTTokens source_code t2)
      (mkAddSourceOffsetVisitor source_id) = Ok (t', self3).
Proof.
  unfold annotate_python_ast. intros H.
  destruct (AnnotatingVisitor_visit t (AnnotatingVisitor_init source_code class_types))
    as [[t1 s1] | e] eqn:H1; simpl in H; [| discriminate].
  destruct (RewriteUnarySubVisitor_visit_in_place t1) as [t2 | e] eqn:H2; simpl in H;
    [| discriminate].
  destruct (AddSourceOffsetVisitor_visit (ASTTokens source_code t2)
              (mkAddSourceOffsetVisitor source_id)) as [[t3 s3] | e] eqn:H3; simpl in H;
    [| discriminate].
  inversion H; subst. exists t1, s1, t2, s3. auto.
Qed.

(** In the tree a call of the entry point leaves, the position attributes
    of every node are those of the tokens attached to it by the token
    association, null where it attached none: neither the parser's
    positions nor the column written by pass 2 survive. *)
Theorem annotate_python_ast_positions
    (ASTTokens : string -> node -> node) (t : node) (source_code : string)
    (class_types : option (gmap string string)) (source_id : Z) (t' : node) :
  annotate_python_ast ASTTokens t source_code class_types source_id = Ok t' ->
  Forall (fun m' => positions_from_tokens (node_attrs m')) (preorder t').
Proof.
  intros H.
  destruct (annotate_python_ast_inv _ _ _ _ _ _ H) as (t1 & s1 & t2 & s3 & _ & _ & H3).
  exact (AddSourceOffsetVisitor_visit_positions_tree _ _ _ _ H3).
Qed.

(** Positions after the whole run, on [x = -3]. *)
Lemma annotate_python_ast_positions_witness :
  exists t',
    annotate_python_ast sample_ASTTokens tree_assign_neg3 "x = -3" None 0 = Ok t' /\
    Forall (fun m' => positions_from_tokens (node_attrs m')) (preorder t').
Proof.
  assert (Hrun : exists t',
             annotate_python_ast sample_ASTTokens tree_assign_neg3 "x = -3" None 0 = Ok t').
  { vm_compute. eexists. reflexivity. }
  destruct Hrun as (t' & Hrun). exists t'. split; [exact Hrun |].
  exact (annotate_python_ast_positions sample_ASTTokens tree_assign_neg3 "x = -3" None 0
           t' Hrun).
Defined.

(** Decorations pass from a list of nodes to a list of nodes of the same
    classes and value kinds carrying the same three attributes. *)
Lemma decorated_Forall2 sc l l' :
  Forall2 (fun m m' =>
             same_class m m' /\
             (forall v v', getattr_value m = Ok v -> getattr_value m' = Ok v' ->
                           const_subkind v' = const_subkind v) /\
             source_code (node_attrs m') = source_code (node_attrs m) /\
             node_id (node_attrs m') = node_id (node_attrs m) /\
             ast_type (node_attrs m') = ast_type (node_attrs m)) l l' ->
  Forall (decorated sc) l -> Forall (decorated sc) l'.
Proof.
  apply Forall2_Forall_transfer.
  intros m m' (Hc & Hv & Hsc & Hid & Hty). now apply decorated_transfer.
Qed.

(** The tree pass 1 returns is decorated at every node. *)
Lemma AnnotatingVisitor_visit_decorated n source_code class_types n' self' :
  AnnotatingVisitor_visit n (AnnotatingVisitor_init source_code class_types)
  = Ok (n', self') ->
  Forall (decorated source_code) (preorder n') /\
  node_id (node_attrs n') = Some 0%nat /\
  same_class n n'.
Proof.
  intros Hv.
  pose proof (AnnotatingVisitor_visit_steps n
                (AnnotatingVisitor_init source_code class_types)) as Hs.
  pose proof (AnnotatingVisitor_visit_post n
                (AnnotatingVisitor_init source_code class_types)) as Hp.
  rewrite Hv in Hs, Hp. simpl in Hs, Hp.
  destruct Hs as (_ & _ & HF). destruct Hp as (Hsup & _ & Hids & _).
  split; [| split].
  - rewrite forallb_forall in Hsup. rewrite <- List.Forall_forall in Hsup.
    revert Hsup. apply Forall2_Forall_transfer with (R := pass1_step
      (AnnotatingVisitor_init source_code class_types)); [| exact HF].
    intros m m' (Hc & Hval & i & Hi) Hm.
    destruct (ast_type_of_head m m' Hc (same_value_kind m m' Hval)) as [Hty Hsup'].
    unfold decorated. rewrite Hty, Hsup', Hi.
    destruct m; simpl; repeat split; eauto.
  - destruct n'; simpl in Hids;
      (destruct (length (preorder n)); [discriminate | now inversion Hids]).
  - now apply preorder_head_Forall2 in HF as (Hc & _).
Qed.

Section AnnotateFrame.
Variable ASTTokens : string -> node -> node.

(** The token association attaches [first_token] and [last_token] and
    changes nothing else. *)
Hypothesis ASTTokens_frame :
  forall source_code tree, clear_tokens (ASTTokens source_code tree) = clear_tokens tree.

Lemma ASTTokens_nodes source_code tree :
  Forall2 (fun m m' =>
             same_class m m' /\ getattr_value m' = getattr_value m /\
             set_tokens None None (node_attrs m) = set_tokens None None (node_attrs m'))
    (preorder tree) (preorder (ASTTokens source_code tree)).
Proof.
  apply (map_attrs_eq_nodes (set_tokens None None)).
  symmetry. apply ASTTokens_frame.
Qed.

(** Pass 3 after the token association, node by node. *)
Lemma AddSourceOffsetVisitor_after_ASTTokens text t2 self t' self' :
  AddSourceOffsetVisitor_visit (ASTTokens text t2) self = Ok (t', self') ->
  shape t' = shape t2 /\
  Forall2 (fun m m' =>
             same_class m m' /\
             (forall v v', getattr_value m = Ok v -> getattr_value m' = Ok v' ->
                           const_subkind v' = const_subkind v) /\
             source_code (node_attrs m') = source_code (node_attrs m) /\
             node_id (node_attrs m') = node_id (node_attrs m) /\
             ast_type (node_attrs m') = ast_type (node_attrs m))
    (preorder t2) (preorder t').
Proof.
  intros Hv.
  destruct (AddSourceOffsetVisitor_visit_frame_tree _ _ _ _ Hv) as (Hshape & _ & HF).
  assert (Hshape2 : shape t' = shape t2).
  { rewrite Hshape. apply clear_tokens_shape, ASTTokens_frame. }
  split; [exact Hshape2 |].
  pose proof (map_attrs_eq_nodes (fun _ => no_attrs) t2 t' (eq_sym Hshape2)) as Hheads.
  pose proof (ASTTokens_nodes text t2) as Htok.
  (* t2 -> ASTTokens t2 -> t' *)
  assert (Hattrs : Forall2 (fun m m' =>
                      source_code (node_attrs m') = source_code (node_attrs m) /\
                      node_id (node_attrs m') = node_id (node_attrs m) /\
                      ast_type (node_attrs m') = ast_type (node_attrs m))
                     (preorder t2) (preorder t')).
  { clear Hheads. revert HF. generalize (preorder t').
    induction Htok as [| m2 m3 l2 l3 (_ & _ & Hm) _ IH]; intros l' HF;
      inversion HF as [| ? m' ? l'' (Hid & Hty & Hsc & _) HF']; subst; constructor.
    - rewrite Hid, Hty, Hsc.
      pose proof (f_equal source_code Hm) as E1.
      pose proof (f_equal node_id Hm) as E2.
      pose proof (f_equal ast_type Hm) as E3.
      simpl in E1, E2, E3. auto.
    - now apply IH. }
  eapply Forall2_impl; [exact (Forall2_conj _ _ _ _ Hheads Hattrs) |].
  intros m m' ((Hc & Hval & _) & Hsc & Hid & Hty).
  split; [exact Hc |]. split; [now apply same_value_kind |]. auto.
Qed.

(** The entry point keeps the root.  The tree it leaves has at its root a
    node of the class of the root it was given, carrying the number 0 and
    the source text, also when the tree given is the negation of a
    literal: pass 2 would return the literal, and the entry point drops
    what pass 2 returns. *)
Theorem annotate_python_ast_root
    (t : node) (text : string) (class_types : option (gmap string string))
    (source_id : Z) (t' : node) :
  annotate_python_ast ASTTokens t text class_types source_id = Ok t' ->
  same_class t t' /\
  node_id (node_attrs t') = Some 0%nat /\
  source_code (node_attrs t') = Some text.
Proof.
  intros H.
  destruct (annotate_python_ast_inv _ _ _ _ _ _ H) as (t1 & s1 & t2 & s3 & H1 & H2 & H3).
  destruct (AnnotatingVisitor_visit_decorated _ _ _ _ _ H1) as (Hdec & Hid & Hc1).
  destruct (RewriteUnarySubVisitor_visit_in_place_spec _ _ H2) as (_ & Hc2 & Ha2 & _).
  destruct (AddSourceOffsetVisitor_after_ASTTokens _ _ _ _ _ H3) as (_ & HF).
  apply preorder_head_Forall2 in HF as (Hc3 & _ & Hsc & Hid3 & _).
  split; [exact (same_class_trans _ _ _ (same_class_trans _ _ _ Hc1 Hc2) Hc3) |].
  rewrite Hid3, Hsc, Ha2. split; [exact Hid |].
  destruct t1; simpl in *; inversion Hdec as [| ? ? (Hs & _) _]; exact Hs.
Qed.

(** The decorations of pass 1 hold in the tree the entry point leaves:
    every node carries the source text and a number, every constant is of
    a recognised kind, and [ast_type] is the sub-kind of the value the
    constant holds now, a negated literal being a [Num], and the class
    name on any other node. *)
Theorem annotate_python_ast_decorated
    (t : node) (source_code : string) (class_types : option (gmap string string))
    (source_id : Z) (t' : node) :
  annotate_python_ast ASTTokens t source_code class_types source_id = Ok t' ->
  Forall (decorated source_code) (preorder t').
Proof.
  intros H.
  destruct (annotate_python_ast_inv _ _ _ _ _ _ H) as (t1 & s1 & t2 & s3 & H1 & H2 & H3).
  destruct (AnnotatingVisitor_visit_decorated _ _ _ _ _ H1) as (Hdec & _ & _).
  destruct (RewriteUnarySubVisitor_visit_in_place_spec _ _ H2) as (Horigin & _ & _ & _).
  destruct (AddSourceOffsetVisitor_after_ASTTokens _ _ _ _ _ H3) as (_ & HF).
  apply (decorated_Forall2 source_code _ _ HF).
  eapply Forall_impl; [exact Horigin |].
  intros m2 (m1 & Hin & Hc & Hcol & _ & Hkind).
  rewrite List.Forall_forall in Hdec. specialize (Hdec m1 Hin).
  apply (decorated_transfer source_code m1 m2 Hc Hkind); [| | | exact Hdec];
    rewrite <- Hcol; reflexivity.
Qed.

(** Below the root of the tree the entry point leaves there is no
    negation of a numeric literal. *)
Theorem annotate_python_ast_folded_below_root
    (t : node) (source_code : string) (class_types : option (gmap string string))
    (source_id : Z) (t' : node) :
  annotate_python_ast ASTTokens t source_code class_types source_id = Ok t' ->
  existsb foldable (tl (preorder t')) = false.
Proof.
  intros H.
  destruct (annotate_python_ast_inv _ _ _ _ _ _ H) as (t1 & s1 & t2 & s3 & H1 & H2 & H3).
  destruct (RewriteUnarySubVisitor_visit_in_place_spec _ _ H2) as (_ & _ & _ & Hn).
  destruct (AddSourceOffsetVisitor_after_ASTTokens _ _ _ _ _ H3) as (Hshape & _).
  now rewrite (existsb_foldable_shape _ _ Hshape).
Qed.
End AnnotateFrame.

(** The root, on the bare expression [-3]. *)
Lemma annotate_python_ast_root_witness :
  exists t',
    annotate_python_ast sample_ASTTokens
      (UnaryOp (at_pos 1 0) USub (Constant (at_pos 1 1) (VInt 3))) "-3" None 0 = Ok t' /\
    same_class (UnaryOp (at_pos 1 0) USub (Constant (at_pos 1 1) (VInt 3))) t' /\
    node_id (node_attrs t') = Some 0%nat /\
    source_code (node_attrs t') = Some "-3".
Proof.
  assert (Hrun : exists t',
             annotate_python_ast sample_ASTTokens
               (UnaryOp (at_pos 1 0) USub (Constant (at_pos 1 1) (VInt 3))) "-3" None 0
             = Ok t').
  { vm_compute. eexists. reflexivity. }
  destruct Hrun as (t' & Hrun). exists t'. split; [exact Hrun |].
  exact (annotate_python_ast_root sample_ASTTokens sample_ASTTokens_frame _ "-3" None 0
           t' Hrun).
Defined.

(** The decorations after the whole run, on [tree_classes]. *)
Lemma annotate_python_ast_decorated_witness :
  exists t',
    annotate_python_ast sample_ASTTokens tree_classes "class Foo: ..."
      (Some {[ "Foo" := "contract" ]}) 0 = Ok t' /\
    Forall (decorated "class Foo: ...") (preorder t').
Proof.
  assert (Hrun : exists t',
             annotate_python_ast sample_ASTTokens tree_classes "class Foo: ..."
               (Some {[ "Foo" := "contract" ]}) 0 = Ok t').
  { vm_compute. eexists. reflexivity. }
  destruct Hrun as (t' & Hrun). exists t'. split; [exact Hrun |].
  exact (annotate_python_ast_decorated sample_ASTTokens sample_ASTTokens_frame
           tree_classes "class Foo: ..." (Some {[ "Foo" := "contract" ]}) 0 t' Hrun).
Defined.

(** No negation left below the root, on [tree_classes]. *)
Lemma annotate_python_ast_folded_below_root_witness :
  exists t',
    annotate_python_ast sample_ASTTokens tree_classes "class Foo: ..." None 0 = Ok t' /\
    existsb foldable (tl (preorder t')) = false.
Proof.
  assert (Hrun : exists t',
             annotate_python_ast sample_ASTTokens tree_classes "class Foo: ..." None 0
             = Ok t').
  { vm_compute. eexists. reflexivity. }
  destruct Hrun as (t' & Hrun). exists t'. split; [exact Hrun |].
  exact (annotate_python_ast_folded_below_root sample_ASTTokens sample_ASTTokens_frame
           tree_classes "class Foo: ..." None 0 t' Hrun).
Defined.

(** ** Pass 2 changes a tree only by folding *)

Lemma RewriteUnarySubVisitor_visit_size_le n self n' self' :
  RewriteUnarySubVisitor_visit n self = Ok (n', self') -> (size n' <= size n)%nat.
Proof.
  intros Hv. destruct (RewriteUnarySubVisitor_visit_returns n self) as (n0 & H0 & Hsub).
  rewrite Hv in H0. inversion H0; subst n0.
  apply sublist_length in Hsub. unfold node_ids in Hsub.
  now rewrite !length_map in Hsub.
Qed.

Lemma RewriteUnarySubVisitor_visit_list_size_le ch self ch' self' :
  visit_list RewriteUnarySubVisitor_visit ch self = Ok (ch', self') ->
  (length (flat_map preorder ch') <= length (flat_map preorder ch))%nat.
Proof.
  revert self ch' self'. induction ch as [| c ch IH]; intros self ch' self' Hv; simpl in Hv.
  - inversion Hv; subst. simpl. lia.
  - destruct (RewriteUnarySubVisitor_visit c self) as [[c' s1] | e] eqn:Hc;
      simpl in Hv; [| discriminate].
    destruct (visit_list RewriteUnarySubVisitor_visit ch s1) as [[ch'' s2] | e] eqn:Hch;
      simpl in Hv; [| discriminate].
    inversion Hv; subst. simpl. rewrite !length_app.
    apply RewriteUnarySubVisitor_visit_size_le in Hc. unfold size in Hc.
    specialize (IH _ _ _ Hch). lia.
Qed.

Lemma RewriteUnarySubVisitor_visit_list_same_size ch :
  Forall (fun n => forall self n' self',
            RewriteUnarySubVisitor_visit n self = Ok (n', self') ->
            size n' = size n -> n' = n) ch ->
  forall self ch' self',
    visit_list RewriteUnarySubVisitor_visit ch self = Ok (ch', self') ->
    length (flat_map preorder ch') = length (flat_map preorder ch) ->
    ch' = ch.
Proof.
  induction 1 as [| c ch Hc _ IH]; intros self ch' self' Hv Hlen; simpl in Hv.
  - now inversion Hv.
  - destruct (RewriteUnarySubVisitor_visit c self) as [[c' s1] | e] eqn:Hc';
      simpl in Hv; [| discriminate].
    destruct (visit_list RewriteUnarySubVisitor_visit ch s1) as [[ch'' s2] | e] eqn:Hch;
      simpl in Hv; [| discriminate].
    inversion Hv; subst. simpl in Hlen. rewrite !length_app in Hlen.
    pose proof (RewriteUnarySubVisitor_visit_size_le _ _ _ _ Hc') as H1.
    pose proof (RewriteUnarySubVisitor_visit_list_size_le _ _ _ _ Hch) as H2.
    unfold size in *.
    f_equal; [apply (Hc _ _ _ Hc') | apply (IH _ _ _ Hch)]; unfold size; lia.
Qed.

(** The tree pass 2 returns never has more nodes than the tree given, and
    when it has as many it is the tree given: the pass changes no
    attribute and no value except by folding a node away. *)
Theorem RewriteUnarySubVisitor_visit_same_size n :
  forall self n' self',
    RewriteUnarySubVisitor_visit n self = Ok (n', self') ->
    (size n' <= size n)%nat /\ (size n' = size n -> n' = n).
Proof.
  intros self n' self' Hv.
  split; [exact (RewriteUnarySubVisitor_visit_size_le _ _ _ _ Hv) |].
  revert self n' self' Hv.
  induction n as [a v | a op operand IHop IHoperand | a name ch IH | cls a ch IH]
    using node_ind'; intros self n' self' Hv Hsize.
  - simpl in Hv. now inversion Hv.
  - destruct (RewriteUnarySubVisitor_visit_returns op self) as (op' & Hop & _).
    destruct (RewriteUnarySubVisitor_visit_returns operand self) as (operand' & Hoperand & _).
    pose proof (RewriteUnarySubVisitor_visit_size_le _ _ _ _ Hop) as H1.
    pose proof (RewriteUnarySubVisitor_visit_size_le _ _ _ _ Hoperand) as H2.
    cbn [RewriteUnarySubVisitor_visit] in Hv.
    rewrite (RewriteUnarySubVisitor_visit_UnaryOp_eq _ a op operand self op' operand'
               Hop Hoperand) in Hv.
    unfold size in *.
    destruct (isinstance_USub op' && isinstance_Num operand') eqn:Hc.
    + apply andb_prop in Hc as [_ Hn].
      destruct (isinstance_Num_inv _ Hn) as (a1 & v1 & v1' & -> & Hz & _).
      rewrite Hz in Hv. simpl in Hv. inversion Hv; subst n'.
      simpl in Hsize. rewrite length_app in Hsize.
      destruct (preorder op) eqn:E; [destruct op; discriminate | simpl in Hsize; lia].
    + simpl in Hv. inversion Hv; subst n'. simpl in Hsize.
      rewrite !length_app in Hsize.
      f_equal; [apply (IHop _ _ _ Hop) | apply (IHoperand _ _ _ Hoperand)];
        unfold size; lia.
  - simpl in Hv.
    destruct (visit_list RewriteUnarySubVisitor_visit ch self) as [[ch' s1] | e] eqn:Hch;
      simpl in Hv; [| discriminate].
    inversion Hv; subst. unfold size in Hsize. simpl in Hsize. f_equal.
    apply (RewriteUnarySubVisitor_visit_list_same_size ch IH _ _ _ Hch). lia.
  - simpl in Hv.
    destruct (visit_list RewriteUnarySubVisitor_visit ch self) as [[ch' s1] | e] eqn:Hch;
      simpl in Hv; [| discriminate].
    inversion Hv; subst. unfold size in Hsize. simpl in Hsize. f_equal.
    apply (RewriteUnarySubVisitor_visit_list_same_size ch IH _ _ _ Hch). lia.
Qed.

(** Sizes, on [x = -3]: seven nodes given, five returned. *)
Lemma RewriteUnarySubVisitor_visit_same_size_witness :
  exists n',
    RewriteUnarySubVisitor_visit tree_assign_neg3 mkRewriteUnarySubVisitor
    = Ok (n', mkRewriteUnarySubVisitor) /\
    (size n' <= size tree_assign_neg3)%nat /\
    (size n' = size tree_assign_neg3 -> n' = tree_assign_neg3).
Proof.
  eexists. split; [reflexivity |].
  apply (RewriteUnarySubVisitor_visit_same_size tree_assign_neg3 mkRewriteUnarySubVisitor
           _ mkRewriteUnarySubVisitor).
  reflexivity.
Defined.

(** ** Objects and stores *)

Lemma kids_skeleton o : kids (skeleton o) = kids o.
Proof. destruct o; reflexivity. Qed.

Lemma skeleton_kids o o' : skeleton o' = skeleton o -> kids o' = kids o.
Proof. intros H. rewrite <- (kids_skeleton o'), H. apply kids_skeleton. Qed.

Lemma skeleton_map_object_attrs f o : skeleton (map_object_attrs f o) = skeleton o.
Proof. destruct o; reflexivity. Qed.

Lemma kids_map_object_attrs f o : kids (map_object_attrs f o) = kids o.
Proof. destruct o; reflexivity. Qed.

Lemma same_skeleton_refl h : same_skeleton h h.
Proof. intros q. reflexivity. Qed.

Lemma same_skeleton_trans h1 h2 h3 :
  same_skeleton h1 h2 -> same_skeleton h2 h3 -> same_skeleton h1 h3.
Proof. intros H12 H23 q. rewrite H23. apply H12. Qed.

Lemma same_skeleton_sym h h' : same_skeleton h h' -> same_skeleton h' h.
Proof. intros H q. symmetry. apply H. Qed.

Lemma same_skeleton_lookup h h' q o :
  same_skeleton h h' -> h !! q = Some o ->
  exists o', h' !! q = Some o' /\ skeleton o' = skeleton o.
Proof.
  intros H Hq. specialize (H q). rewrite Hq in H.
  destruct (h' !! q) as [o'|]; simpl in H; [|discriminate].
  exists o'. split; [reflexivity|congruence].
Qed.

Lemma same_skeleton_lookup_None h h' q :
  same_skeleton h h' -> h !! q = None -> h' !! q = None.
Proof.
  intros H Hq. specialize (H q). rewrite Hq in H.
  destruct (h' !! q); simpl in H; [discriminate|reflexivity].
Qed.

Lemma same_skeleton_alter f p h :
  (forall o, h !! p = Some o -> skeleton (f o) = skeleton o) ->
  same_skeleton h (alter f p h).
Proof.
  intros Hf q. destruct (decide (p = q)) as [->|Hne].
  - rewrite lookup_alter_eq. destruct (h !! q) as [o|] eqn:E; simpl; [|reflexivity].
    f_equal. apply Hf. reflexivity.
  - rewrite lookup_alter_ne by exact Hne. reflexivity.
Qed.

Lemma node_id_at_alter f p h q :
  (forall o, h !! p = Some o -> node_id (object_attrs (f o)) = node_id (object_attrs o)) ->
  node_id_at (alter f p h) q = node_id_at h q.
Proof.
  intros Hf. unfold node_id_at. destruct (decide (p = q)) as [->|Hne].
  - rewrite lookup_alter_eq. destruct (h !! q) as [o|] eqn:E; simpl; [|reflexivity].
    apply Hf. reflexivity.
  - rewrite lookup_alter_ne by exact Hne. reflexivity.
Qed.

Lemma same_ids_refl h : same_ids h h.
Proof. intros q. reflexivity. Qed.

Lemma same_ids_trans h1 h2 h3 : same_ids h1 h2 -> same_ids h2 h3 -> same_ids h1 h3.
Proof. intros H12 H23 q. rewrite H23. apply H12. Qed.

Lemma same_ids_alter f p h :
  (forall o, h !! p = Some o -> node_id (object_attrs (f o)) = node_id (object_attrs o)) ->
  same_ids h (alter f p h).
Proof. intros Hf q. apply node_id_at_alter. exact Hf. Qed.

Lemma heap_supported_same_skeleton h h' q :
  same_skeleton h h' -> heap_supported h' q = heap_supported h q.
Proof.
  intros H. unfold heap_supported. specialize (H q).
  destruct (h !! q) as [o|], (h' !! q) as [o'|]; simpl in H; try discriminate;
    [|reflexivity].
  injection H as H. destruct o, o'; try discriminate; try reflexivity.
  injection H as ->. reflexivity.
Qed.

Lemma heap_preorder_list_ext (f g : nat -> option (list nat)) l :
  (forall x, f x = g x) -> heap_preorder_list f l = heap_preorder_list g l.
Proof.
  intros H. induction l as [|x xs IH]; simpl; [reflexivity|]. rewrite H, IH. reflexivity.
Qed.

(** The positions of a tree depend on the classes, fields and children
    of the objects, not on their attributes. *)
Lemma heap_preorder_same_skeleton fuel h h' p :
  same_skeleton h h' -> heap_preorder fuel h' p = heap_preorder fuel h p.
Proof.
  intros H. revert p. induction fuel as [|fuel IH]; intros p; simpl; [reflexivity|].
  destruct (h !! p) as [o|] eqn:E.
  - destruct (same_skeleton_lookup _ _ _ _ H E) as (o' & -> & Ho').
    rewrite (skeleton_kids _ _ Ho'), (heap_preorder_list_ext _ _ _ IH). reflexivity.
  - rewrite (same_skeleton_lookup_None _ _ _ H E). reflexivity.
Qed.

Lemma heap_preorder_list_same_skeleton fuel h h' l :
  same_skeleton h h' ->
  heap_preorder_list (heap_preorder fuel h') l = heap_preorder_list (heap_preorder fuel h) l.
Proof.
  intros H. apply heap_preorder_list_ext. intros x. apply heap_preorder_same_skeleton, H.
Qed.

(** ** The last position of an object *)

Lemma last_index_app q vs1 vs2 :
  last_index q (vs1 ++ vs2) =
  match last_index q vs2 with
  | Some i => Some (length vs1 + i)%nat
  | None => last_index q vs1
  end.
Proof.
  induction vs1 as [|v vs1 IH]; simpl.
  - destruct (last_index q vs2); reflexivity.
  - rewrite IH. destruct (last_index q vs2); reflexivity.
Qed.

Lemma last_index_Some q vs i : last_index q vs = Some i -> vs !! i = Some q.
Proof.
  revert i. induction vs as [|v vs IH]; intros i; simpl; [discriminate|].
  destruct (last_index q vs) as [j|].
  - intros [= <-]. simpl. apply IH. reflexivity.
  - destruct (Nat.eqb_spec v q) as [->|]; [|discriminate]. intros [= <-]. reflexivity.
Qed.

Lemma last_index_None q vs : last_index q vs = None <-> q ∉ vs.
Proof.
  induction vs as [|v vs IH]; simpl.
  - split; [intros _; apply not_elem_of_nil|reflexivity].
  - rewrite not_elem_of_cons. destruct (last_index q vs) as [j|].
    + split; [discriminate|]. intros [_ H]. apply IH in H. discriminate.
    + destruct (Nat.eqb_spec v q) as [->|Hne].
      * split; [discriminate|]. intros [H _]. congruence.
      * split; [|reflexivity]. intros _. split; [congruence|]. apply IH. reflexivity.
Qed.

Lemma last_index_elem_of q vs : q ∈ vs -> exists i, last_index q vs = Some i.
Proof.
  intros H. destruct (last_index q vs) as [i|] eqn:E; [exists i; reflexivity|].
  apply last_index_None in E. contradiction.
Qed.

Lemma last_index_lt q vs i : last_index q vs = Some i -> (i < length vs)%nat.
Proof. intros H. apply last_index_Some in H. eapply lookup_lt_Some, H. Qed.

Lemma last_index_NoDup q vs i : NoDup vs -> vs !! i = Some q -> last_index q vs = Some i.
Proof.
  intros Hnd Hi. destruct (last_index q vs) as [j|] eqn:E.
  - apply last_index_Some in E. f_equal. eapply NoDup_lookup; eassumption.
  - apply last_index_None in E. exfalso. apply E. eapply list_elem_of_lookup_2, Hi.
Qed.

(** ** Numbering *)

Lemma numbered_nil c h h' : same_ids h h' -> numbered c [] h h'.
Proof. intros H q. simpl. apply H. Qed.

Lemma numbered_app c vs1 vs2 h h1 h2 :
  numbered c vs1 h h1 -> numbered (c + length vs1) vs2 h1 h2 ->
  numbered c (vs1 ++ vs2) h h2.
Proof.
  intros H1 H2 q. rewrite H2, last_index_app.
  destruct (last_index q vs2) as [i|]; [f_equal; lia|]. apply H1.
Qed.

Lemma numbered_one c p h h' :
  (forall q, node_id_at h' q = if Nat.eqb p q then Some c else node_id_at h q) ->
  numbered c [p] h h'.
Proof.
  intros H q. rewrite H. simpl. destruct (Nat.eqb p q); [f_equal; lia|reflexivity].
Qed.

Lemma numbered_same_ids c vs h h1 h2 :
  numbered c vs h h1 -> same_ids h1 h2 -> numbered c vs h h2.
Proof. intros H1 H2 q. rewrite H2. apply H1. Qed.

(** ** Pass 1 on objects *)

(** The loop over a list of children, every visit being as [pass1_run]
    says. *)
Lemma pass1_visit_list fuel
  (IH : forall p self h, pass1_run fuel p self h) l self h :
  match heap_preorder_list (heap_preorder fuel h) l with
  | Some vs =>
      pass1_list_outcome self l vs h
        (heap_visit_list (heap_AnnotatingVisitor_visit fuel) l self h)
  | None =>
      exists e, heap_visit_list (heap_AnnotatingVisitor_visit fuel) l self h = HRaise e
  end.
Proof.
  revert self h. induction l as [|x xs IHl]; intros self h; simpl.
  - rewrite advance_0. refine (conj eq_refl (conj eq_refl (conj _ _))).
    + apply same_skeleton_refl.
    + apply numbered_nil, same_ids_refl.
  - specialize (IH x self h). unfold pass1_run in IH.
    destruct (heap_preorder fuel h x) as [v1|] eqn:E1.
    + destruct (heap_AnnotatingVisitor_visit fuel x self h) as [[[x' self1] h1]|e] eqn:Ev;
        simpl in IH |- *.
      * destruct IH as (-> & -> & Hsk1 & Hnum1).
        specialize (IHl (advance self (length v1)) h1).
        rewrite (heap_preorder_list_same_skeleton _ _ _ _ Hsk1) in IHl.
        destruct (heap_preorder_list (heap_preorder fuel h) xs) as [v2|].
        -- destruct (heap_visit_list _ xs _ h1) as [[[xs' self2] h2]|e]; simpl in IHl |- *.
           ++ destruct IHl as (-> & -> & Hsk2 & Hnum2).
              rewrite advance_advance, length_app.
              refine (conj eq_refl (conj eq_refl (conj _ _))).
              ** eapply same_skeleton_trans; eassumption.
              ** eapply numbered_app; eassumption.
           ++ destruct IHl as (q & Hq & Hs & ->). exists q.
              refine (conj _ (conj _ eq_refl)).
              ** apply elem_of_app. right. exact Hq.
              ** rewrite <- Hs. symmetry. apply heap_supported_same_skeleton, Hsk1.
        -- destruct IHl as (e & ->). simpl. eauto.
      * destruct IH as (q & Hq & Hs & ->).
        destruct (heap_preorder_list (heap_preorder fuel h) xs) as [v2|]; [|eauto].
        exists q. refine (conj _ (conj Hs eq_refl)). apply elem_of_app. left. exact Hq.
    + destruct IH as (e & ->). simpl. eauto.
Qed.

Lemma skeleton_inv o o' :
  skeleton o' = skeleton o -> o' = map_object_attrs (fun _ => object_attrs o') o.
Proof. destruct o, o'; simpl; intros H; try discriminate; injection H; intros; subst; reflexivity. Qed.

(** The traversal of [ast.NodeTransformer] under pass 1: it stores in
    every field the object that was there. *)
Lemma pass1_traverse fuel
  (IH : forall p self h, pass1_run fuel p self h) p self h o :
  h !! p = Some o ->
  match heap_preorder_list (heap_preorder fuel h) (kids o) with
  | Some vs =>
      pass1_outcome self p vs h
        (heap_NodeTransformer_generic_visit (heap_AnnotatingVisitor_visit fuel) p self h)
  | None =>
      exists e,
        heap_NodeTransformer_generic_visit (heap_AnnotatingVisitor_visit fuel) p self h
        = HRaise e
  end.
Proof.
  intros Hp. unfold heap_NodeTransformer_generic_visit, deref. rewrite Hp. simpl.
  assert (Hlist : forall ch, kids o = ch ->
    (forall a' o', o' = map_object_attrs (fun _ => a') o -> object_set_children ch o' = o') ->
    match heap_preorder_list (heap_preorder fuel h) (kids o) with
    | Some vs =>
        pass1_outcome self p vs h
          (let+ (ch', self0, h0) :=
             heap_visit_list (heap_AnnotatingVisitor_visit fuel) ch self h in
           HOk (p, self0, alter (object_set_children ch') p h0))
    | None =>
        exists e,
          (let+ (ch', self0, h0) :=
             heap_visit_list (heap_AnnotatingVisitor_visit fuel) ch self h in
           HOk (p, self0, alter (object_set_children ch') p h0)) = HRaise e
    end).
  { intros ch Hch Hset. rewrite Hch.
    pose proof (pass1_visit_list fuel IH ch self h) as Hl.
    destruct (heap_preorder_list (heap_preorder fuel h) ch) as [vs|].
    - destruct (heap_visit_list _ ch self h) as [[[ch' self1] h1]|e]; simpl in Hl |- *.
      + destruct Hl as (-> & -> & Hsk & Hnum).
        destruct (same_skeleton_lookup _ _ _ _ Hsk Hp) as (o' & Ho' & Hs).
        rewrite alter_id.
        * refine (conj eq_refl (conj eq_refl (conj Hsk Hnum))).
        * intros x Hx. rewrite Ho' in Hx. injection Hx as <-.
          eapply Hset, skeleton_inv, Hs.
      + exact Hl.
    - destruct Hl as (e & ->). simpl. eauto. }
  destruct o as [a v|a op operand|a name ch|cls a ch].
  - simpl. rewrite advance_0. refine (conj eq_refl (conj eq_refl (conj _ _))).
    + apply same_skeleton_refl.
    + apply numbered_nil, same_ids_refl.
  - unfold heap_getattr_op, deref. rewrite Hp. simpl.
    pose proof (IH op self h) as IH1. unfold pass1_run in IH1.
    destruct (heap_preorder fuel h op) as [v1|] eqn:E1.
    + destruct (heap_AnnotatingVisitor_visit fuel op self h) as [[[op' self1] h1]|e] eqn:Ev;
        simpl in IH1 |- *.
      * destruct IH1 as (-> & -> & Hsk1 & Hnum1).
        destruct (same_skeleton_lookup _ _ _ _ Hsk1 Hp) as (o1 & Ho1 & Hs1).
        apply skeleton_inv in Hs1. simpl in Hs1.
        rewrite alter_id by (intros x Hx; rewrite Ho1 in Hx; injection Hx as <-;
                             rewrite Hs1; reflexivity).
        unfold heap_getattr_operand, deref. rewrite Ho1, Hs1. simpl.
        pose proof (IH operand (advance self (length v1)) h1) as IH2.
        unfold pass1_run in IH2. rewrite (heap_preorder_same_skeleton _ _ _ _ Hsk1) in IH2.
        destruct (heap_preorder fuel h operand) as [v2|] eqn:E2.
        -- destruct (heap_AnnotatingVisitor_visit fuel operand _ h1)
             as [[[operand' self2] h2]|e] eqn:Ev2; simpl in IH2 |- *.
           ++ destruct IH2 as (-> & -> & Hsk2 & Hnum2).
              assert (Hsk : same_skeleton h h2) by (eapply same_skeleton_trans; eassumption).
              destruct (same_skeleton_lookup _ _ _ _ Hsk Hp) as (o2 & Ho2 & Hs2).
              apply skeleton_inv in Hs2. simpl in Hs2.
              rewrite alter_id by (intros x Hx; rewrite Ho2 in Hx; injection Hx as <-;
                                   rewrite Hs2; reflexivity).
              rewrite advance_advance, app_nil_r, length_app.
              refine (conj eq_refl (conj eq_refl (conj Hsk _))).
              eapply numbered_app; eassumption.
           ++ destruct IH2 as (q & Hq & Hs & ->). exists q.
              refine (conj _ (conj _ eq_refl)).
              ** rewrite app_nil_r. apply elem_of_app. right. exact Hq.
              ** rewrite <- Hs. symmetry. apply heap_supported_same_skeleton, Hsk1.
        -- destruct IH2 as (e & ->). simpl. eauto.
      * destruct IH1 as (q & Hq & Hs & ->).
        destruct (heap_preorder fuel h operand) as [v2|]; [|eauto].
        exists q. refine (conj _ (conj Hs eq_refl)). apply elem_of_app. left. exact Hq.
    + destruct IH1 as (e & ->). simpl. eauto.
  - apply (Hlist ch eq_refl). intros a' o' ->. reflexivity.
  - apply (Hlist ch eq_refl). intros a' o' ->. reflexivity.
Qed.

Lemma pass1_outcome_attrs self p vs h self' h' g :
  (forall a, node_id (g a) = node_id a) ->
  pass1_outcome self p vs h (HOk (p, self', h')) ->
  pass1_outcome self p vs h (HOk (p, self', alter (map_object_attrs g) p h')).
Proof.
  intros Hg (_ & -> & Hsk & Hnum). refine (conj eq_refl (conj eq_refl (conj _ _))).
  - eapply same_skeleton_trans; [exact Hsk|]. apply same_skeleton_alter.
    intros o _. apply skeleton_map_object_attrs.
  - eapply numbered_same_ids; [exact Hnum|]. apply same_ids_alter.
    intros o _. destruct o; simpl; apply Hg.
Qed.

(** Lines 30-37: the object is numbered, then what is under it. *)
Lemma pass1_generic_visit fuel
  (IH : forall p self h, pass1_run fuel p self h) p self h o :
  h !! p = Some o ->
  match heap_preorder_list (heap_preorder fuel h) (kids o) with
  | Some vs =>
      pass1_outcome self p (p :: vs) h
        (heap_AnnotatingVisitor_generic_visit (heap_AnnotatingVisitor_visit fuel) p self h)
  | None =>
      exists e,
        heap_AnnotatingVisitor_generic_visit (heap_AnnotatingVisitor_visit fuel) p self h
        = HRaise e
  end.
Proof.
  intros Hp. unfold heap_AnnotatingVisitor_generic_visit, deref. rewrite Hp. simpl.
  set (f1 := map_object_attrs (set_source_code (_source_code self))).
  set (f2 := map_object_attrs (set_node_id (counter self))).
  set (f3 := map_object_attrs (set_ast_type (object_class_name o))).
  set (h1 := alter f3 p (alter f2 p (alter f1 p h))).
  assert (Hp1 : h1 !! p = Some (f3 (f2 (f1 o)))).
  { unfold h1. rewrite !lookup_alter_eq, Hp. reflexivity. }
  assert (Hsk1 : same_skeleton h h1).
  { unfold h1. eapply same_skeleton_trans; [eapply same_skeleton_trans|];
      apply same_skeleton_alter; intros; apply skeleton_map_object_attrs. }
  assert (Hnum1 : numbered (counter self) [p] h h1).
  { apply numbered_one. intros q. unfold node_id_at, h1.
    destruct (Nat.eqb_spec p q) as [<-|Hne].
    - rewrite !lookup_alter_eq, Hp. destruct o; reflexivity.
    - rewrite !lookup_alter_ne by exact Hne. reflexivity. }
  pose proof (pass1_traverse fuel IH p
                (mkAnnotatingVisitor (_source_code self) (counter self + 1)%nat
                   (_class_types self)) h1 _ Hp1) as Ht.
  rewrite (heap_preorder_list_same_skeleton _ _ _ _ Hsk1) in Ht.
  unfold f3, f2, f1 in Ht. rewrite !kids_map_object_attrs in Ht.
  destruct (heap_preorder_list (heap_preorder fuel h) (kids o)) as [vs|]; [|exact Ht].
  destruct (heap_NodeTransformer_generic_visit _ p _ h1) as [[[p' self'] h']|e];
    simpl in Ht |- *.
  - destruct Ht as (-> & -> & Hsk & Hnum).
    refine (conj eq_refl (conj _ (conj _ _))).
    + unfold advance. simpl. f_equal. lia.
    + eapply same_skeleton_trans; eassumption.
    + apply (numbered_app _ [p] vs _ h1); assumption.
  - destruct Ht as (q & Hq & Hs & ->). exists q. refine (conj _ (conj _ eq_refl)).
    + apply elem_of_cons. right. exact Hq.
    + rewrite <- Hs. symmetry. apply heap_supported_same_skeleton, Hsk1.
Qed.

(** Pass 1 at [p]: when the tree can be walked within [fuel] the visit
    numbers its positions one after the other or raises on a constant
    of no recognised kind, and otherwise it raises. *)
Lemma heap_AnnotatingVisitor_visit_run fuel p self h : pass1_run fuel p self h.
Proof.
  revert p self h. induction fuel as [|fuel IH]; intros p self h; unfold pass1_run.
  - simpl. eauto.
  - simpl. unfold deref. destruct (h !! p) as [o|] eqn:Hp; [|simpl; eauto].
    pose proof (pass1_generic_visit fuel IH p self h o Hp) as Hg.
    destruct o as [a v|a op operand|a name ch|cls a ch]; simpl hbind.
    + unfold heap_AnnotatingVisitor_visit_Constant. simpl in Hg |- *.
      destruct (heap_AnnotatingVisitor_generic_visit _ p self h) as [[[p' self'] h']|e];
        simpl hbind; [|exact Hg].
      pose proof Hg as (-> & _ & Hsk & _).
      destruct (same_skeleton_lookup _ _ _ _ Hsk Hp) as (o' & Ho' & Hs).
      apply skeleton_inv in Hs. simpl in Hs.
      unfold heap_getattr_value, deref. rewrite Ho', Hs. simpl hbind.
      destruct v; simpl;
        first
          [ refine (pass1_outcome_attrs self p [p] h self' h' _ _ Hg); intros; reflexivity
          | exists p; refine (conj _ (conj _ eq_refl));
            [apply list_elem_of_singleton; reflexivity
            |unfold heap_supported; rewrite Hp; reflexivity] ].
    + simpl kids in Hg |- *. destruct (heap_preorder_list _ _); exact Hg.
    + unfold heap_AnnotatingVisitor_visit_ClassDef.
      simpl kids in Hg |- *.
      destruct (heap_preorder_list (heap_preorder fuel h) ch) as [vs|].
      * destruct (heap_AnnotatingVisitor_generic_visit _ p self h) as [[[p' self'] h']|e];
          simpl hbind; [|exact Hg].
        pose proof Hg as (-> & _ & Hsk & _).
        destruct (same_skeleton_lookup _ _ _ _ Hsk Hp) as (o' & Ho' & Hs).
        apply skeleton_inv in Hs. simpl in Hs.
        unfold heap_getattr_name, deref. rewrite Ho', Hs. simpl hbind.
        apply pass1_outcome_attrs; [intros; reflexivity|exact Hg].
      * destruct Hg as (e & ->). simpl. eauto.
    + simpl kids in Hg |- *. destruct (heap_preorder_list _ _); exact Hg.
Qed.

(** Pass 1 returns on a tree that can be walked and whose constants are
    all of a recognised kind. *)
Lemma heap_AnnotatingVisitor_visit_returns fuel p self h vs :
  heap_preorder fuel h p = Some vs ->
  forallb (heap_supported h) vs = true ->
  exists h',
    heap_AnnotatingVisitor_visit fuel p self h = HOk (p, advance self (length vs), h') /\
    same_skeleton h h' /\ numbered (counter self) vs h h'.
Proof.
  intros Hpre Hsup. pose proof (heap_AnnotatingVisitor_visit_run fuel p self h) as H.
  unfold pass1_run in H. rewrite Hpre in H.
  destruct (heap_AnnotatingVisitor_visit fuel p self h) as [[[p' self'] h']|e]; simpl in H.
  - destruct H as (-> & -> & Hsk & Hnum). exists h'. auto.
  - destruct H as (q & Hq & Hs & _). rewrite forallb_forall in Hsup.
    apply list_elem_of_In in Hq. rewrite (Hsup q Hq) in Hs. discriminate.
Qed.

(** When pass 1 returns, the tree could be walked and its positions
    were numbered. *)
Lemma heap_AnnotatingVisitor_visit_inv fuel p self h p' self' h' :
  heap_AnnotatingVisitor_visit fuel p self h = HOk (p', self', h') ->
  exists vs,
    heap_preorder fuel h p = Some vs /\ p' = p /\ self' = advance self (length vs) /\
    same_skeleton h h' /\ numbered (counter self) vs h h'.
Proof.
  intros Hv. pose proof (heap_AnnotatingVisitor_visit_run fuel p self h) as H.
  unfold pass1_run in H. rewrite Hv in H.
  destruct (heap_preorder fuel h p) as [vs|].
  - exists vs. simpl in H. tauto.
  - destruct H as (e & H). discriminate.
Qed.

(** ** Visits that keep the numbers *)

Lemma closed_alter objs f p h :
  closed objs h ->
  (p ∈ objs -> forall o, h !! p = Some o -> forall k, k ∈ kids (f o) -> k ∈ objs) ->
  closed objs (alter f p h).
Proof.
  intros Hc Hf q Hq. destruct (Hc q Hq) as (o & Ho & Hk).
  destruct (decide (p = q)) as [->|Hne].
  - exists (f o). rewrite lookup_alter_eq, Ho. split; [reflexivity|]. apply Hf; assumption.
  - exists o. rewrite lookup_alter_ne by exact Hne. split; assumption.
Qed.

Lemma closed_alter_kids objs f p h :
  closed objs h -> (forall o, kids (f o) = kids o) -> closed objs (alter f p h).
Proof.
  intros Hc Hf. apply closed_alter; [exact Hc|]. intros Hp o Ho k. rewrite Hf.
  destruct (Hc p Hp) as (o' & Ho' & Hk'). rewrite Ho in Ho'. injection Ho' as <-. apply Hk'.
Qed.

Lemma closed_kid objs h p o k :
  closed objs h -> p ∈ objs -> h !! p = Some o -> k ∈ kids o -> k ∈ objs.
Proof.
  intros Hc Hp Ho Hk. destruct (Hc p Hp) as (o' & Ho' & Hk').
  rewrite Ho in Ho'. injection Ho' as <-. apply Hk', Hk.
Qed.

Lemma closed_heap_reach objs h p q :
  closed objs h -> p ∈ objs -> heap_reach h p q -> q ∈ objs.
Proof.
  intros Hc Hp Hr. induction Hr as [p|p o k q Ho Hk _ IH]; [exact Hp|].
  apply IH. eapply closed_kid; eassumption.
Qed.

Lemma object_attrs_set_op x o : object_attrs (object_set_op x o) = object_attrs o.
Proof. destruct o; reflexivity. Qed.

Lemma object_attrs_set_operand x o : object_attrs (object_set_operand x o) = object_attrs o.
Proof. destruct o; reflexivity. Qed.

Lemma object_attrs_set_children l o :
  object_attrs (object_set_children l o) = object_attrs o.
Proof. destruct o; reflexivity. Qed.

Lemma object_attrs_set_n v o : object_attrs (object_set_n v o) = object_attrs o.
Proof. destruct o; reflexivity. Qed.

Lemma kids_set_n v o : kids (object_set_n v o) = kids o.
Proof. destruct o; reflexivity. Qed.

Lemma kids_set_op x o k : k ∈ kids (object_set_op x o) -> k = x \/ k ∈ kids o.
Proof.
  destruct o; simpl; auto. rewrite !elem_of_cons. tauto.
Qed.

Lemma kids_set_operand x o k : k ∈ kids (object_set_operand x o) -> k = x \/ k ∈ kids o.
Proof.
  destruct o; simpl; auto. rewrite !elem_of_cons. tauto.
Qed.

Lemma kids_set_children l o k : k ∈ kids (object_set_children l o) -> k ∈ l \/ k ∈ kids o.
Proof. destruct o; simpl; auto. Qed.

Section Keeps.
Context {Self : Type}.
Variable visit : nat -> Self -> gmap nat object -> hresult (nat * Self * gmap nat object).
Variable objs : list nat.
Hypothesis visit_keeps :
  forall p self h, closed objs h -> p ∈ objs ->
    keeps (fun p' => p' ∈ objs) objs h (visit p self h).

Lemma heap_visit_list_keeps l self h :
  closed objs h -> (forall k, k ∈ l -> k ∈ objs) ->
  keeps (fun l' => forall k, k ∈ l' -> k ∈ objs) objs h (heap_visit_list visit l self h).
Proof.
  revert self h. induction l as [|x xs IH]; intros self h Hc Hl; simpl.
  - refine (conj _ (conj Hc _)); [apply same_ids_refl|]. intros k Hk.
    apply elem_of_nil in Hk. contradiction.
  - pose proof (visit_keeps x self h Hc (Hl x (list_elem_of_here _ _))) as Hx.
    destruct (visit x self h) as [[[x' self1] h1]|e]; simpl in Hx |- *; [|exact I].
    destruct Hx as (Hid1 & Hc1 & Hx').
    specialize (IH self1 h1 Hc1 (fun k Hk => Hl k (list_elem_of_further _ _ _ Hk))).
    destruct (heap_visit_list visit xs self1 h1) as [[[xs' self2] h2]|e];
      simpl in IH |- *; [|exact I].
    destruct IH as (Hid2 & Hc2 & Hxs').
    refine (conj _ (conj Hc2 _)); [eapply same_ids_trans; eassumption|].
    intros k Hk. apply elem_of_cons in Hk as [->|Hk]; auto.
Qed.

(** The traversal keeps the numbers and stays among the objects of
    [objs] when every visit does. *)
Lemma heap_NodeTransformer_generic_visit_keeps p self h :
  closed objs h -> p ∈ objs ->
  keeps (fun p' => p' ∈ objs) objs h (heap_NodeTransformer_generic_visit visit p self h).
Proof.
  intros Hc Hp. unfold heap_NodeTransformer_generic_visit, deref.
  destruct (Hc p Hp) as (o & Ho & Hk). rewrite Ho. simpl hbind.
  assert (Hlist : forall ch, (forall k, k ∈ ch -> k ∈ objs) ->
    keeps (fun p' => p' ∈ objs) objs h
      (let+ (ch', self0, h0) := heap_visit_list visit ch self h in
       HOk (p, self0, alter (object_set_children ch') p h0))).
  { intros ch Hch. pose proof (heap_visit_list_keeps ch self h Hc Hch) as Hl.
    destruct (heap_visit_list visit ch self h) as [[[ch' self1] h1]|e];
      simpl in Hl |- *; [|exact I].
    destruct Hl as (Hid & Hc1 & Hch').
    refine (conj _ (conj _ Hp)).
    - eapply same_ids_trans; [exact Hid|]. apply same_ids_alter.
      intros o1 _. rewrite object_attrs_set_children. reflexivity.
    - apply closed_alter; [exact Hc1|]. intros _ o1 Ho1 k Hk1.
      apply kids_set_children in Hk1 as [Hk1|Hk1]; [auto|].
      exact (closed_kid _ _ _ _ _ Hc1 Hp Ho1 Hk1). }
  destruct o as [a v|a op operand|a name ch|cls a ch].
  - simpl. refine (conj _ (conj Hc Hp)). apply same_ids_refl.
  - unfold heap_getattr_op, deref. rewrite Ho. simpl hbind.
    assert (Hop : op ∈ objs) by (apply Hk; simpl; apply list_elem_of_here).
    pose proof (visit_keeps op self h Hc Hop) as H1.
    destruct (visit op self h) as [[[op' self1] h1]|e]; simpl in H1 |- *; [|exact I].
    destruct H1 as (Hid1 & Hc1 & Hop').
    set (h2 := alter (object_set_op op') p h1).
    assert (Hid2 : same_ids h1 h2).
    { apply same_ids_alter. intros o1 _. rewrite object_attrs_set_op. reflexivity. }
    assert (Hc2 : closed objs h2).
    { apply closed_alter; [exact Hc1|]. intros _ o1 Ho1 k Hk1.
      apply kids_set_op in Hk1 as [->|Hk1]; [exact Hop'|].
      exact (closed_kid _ _ _ _ _ Hc1 Hp Ho1 Hk1). }
    unfold heap_getattr_operand, deref.
    destruct (Hc2 p Hp) as (o2 & Ho2 & Hk2). rewrite Ho2. simpl hbind.
    destruct o2 as [a2 v2|a2 op2 operand2|a2 name2 ch2|cls2 a2 ch2]; simpl hbind;
      try exact I.
    assert (Hoperand : operand2 ∈ objs).
    { apply Hk2. simpl. apply list_elem_of_further, list_elem_of_here. }
    pose proof (visit_keeps operand2 self1 h2 Hc2 Hoperand) as H3.
    destruct (visit operand2 self1 h2) as [[[operand' self3] h3]|e];
      simpl in H3 |- *; [|exact I].
    destruct H3 as (Hid3 & Hc3 & Hoperand').
    refine (conj _ (conj _ Hp)).
    + eapply same_ids_trans; [exact Hid1|]. eapply same_ids_trans; [exact Hid2|].
      eapply same_ids_trans; [exact Hid3|]. apply same_ids_alter.
      intros o1 _. rewrite object_attrs_set_operand. reflexivity.
    + apply closed_alter; [exact Hc3|]. intros _ o1 Ho1 k Hk1.
      apply kids_set_operand in Hk1 as [->|Hk1]; [exact Hoperand'|].
      exact (closed_kid _ _ _ _ _ Hc3 Hp Ho1 Hk1).
  - apply Hlist. exact Hk.
  - apply Hlist. exact Hk.
Qed.
End Keeps.

(** ** Pass 2 on objects *)

(** Pass 2 writes no [node_id], and what it returns and stores in a
    field is an object that was under the node. *)
Lemma heap_RewriteUnarySubVisitor_visit_keeps objs fuel p self h :
  closed objs h -> p ∈ objs ->
  keeps (fun p' => p' ∈ objs) objs h (heap_RewriteUnarySubVisitor_visit fuel p self h).
Proof.
  revert p self h. induction fuel as [|fuel IH]; intros p self h Hc Hp; [exact I|].
  simpl. unfold deref. destruct (Hc p Hp) as (o & Ho & Hk). rewrite Ho. simpl hbind.
  pose proof (heap_NodeTransformer_generic_visit_keeps _ objs IH p self h Hc Hp) as Hg.
  destruct o as [a v|a op operand|a name ch|cls a ch]; try exact Hg.
  unfold heap_RewriteUnarySubVisitor_visit_UnaryOp.
  destruct (heap_NodeTransformer_generic_visit _ p self h) as [[[p' self1] h1]|e];
    simpl in Hg |- *; [|exact I].
  destruct Hg as (Hid1 & Hc1 & _).
  destruct (Hc1 p Hp) as (o1 & Ho1 & Hk1).
  unfold heap_getattr_op, heap_getattr_operand, heap_getattr_value, deref.
  rewrite Ho1. simpl hbind.
  destruct o1 as [a1 v1|a1 op1 operand1|a1 name1 ch1|cls1 a1 ch1]; simpl hbind;
    try exact I.
  assert (Hoperand : operand1 ∈ objs).
  { apply Hk1. simpl. apply list_elem_of_further, list_elem_of_here. }
  destruct (h1 !! op1) as [op_object|]; simpl hbind; [|exact I].
  destruct (h1 !! operand1) as [operand_object|] eqn:Hoo; simpl hbind; [|exact I].
  destruct (object_isinstance_USub op_object && object_isinstance_Num operand_object).
  - destruct operand_object as [a2 v2| | |]; simpl hbind; try exact I.
    destruct (heap_zero_minus v2) as [n|e]; simpl hbind; [|exact I].
    destruct (alter (object_set_n n) operand1 h1 !! p) as [node|]; simpl hbind; [|exact I].
    refine (conj _ (conj _ Hoperand)).
    + eapply same_ids_trans; [exact Hid1|]. eapply same_ids_trans.
      * apply same_ids_alter. intros o' _. rewrite object_attrs_set_n. reflexivity.
      * apply same_ids_alter. intros o' _. destruct o'; reflexivity.
    + apply closed_alter_kids; [apply closed_alter_kids; [exact Hc1|]|].
      * apply kids_set_n.
      * apply kids_map_object_attrs.
  - simpl. exact (conj Hid1 (conj Hc1 Hp)).
Qed.

(** ** Pass 3 on objects *)

Lemma AddSourceOffsetVisitor_offsets_node_id self a a' :
  AddSourceOffsetVisitor_offsets self a = Ok a' -> node_id a' = node_id a.
Proof.
  unfold AddSourceOffsetVisitor_offsets, getattr_first_token.
  destruct a as [l c el ec sc id ty ct [ft|] [lt|] s]; simpl; intros [= <-]; reflexivity.
Qed.

(** Pass 3 writes no [node_id] and no field. *)
Lemma heap_AddSourceOffsetVisitor_visit_keeps objs fuel p self h :
  closed objs h -> p ∈ objs ->
  keeps (fun p' => p' ∈ objs) objs h (heap_AddSourceOffsetVisitor_visit fuel p self h).
Proof.
  revert p self h. induction fuel as [|fuel IH]; intros p self h Hc Hp; [exact I|].
  simpl. unfold heap_AddSourceOffsetVisitor_generic_visit, deref.
  destruct (Hc p Hp) as (o & Ho & Hk). rewrite Ho. simpl hbind.
  unfold heap_AddSourceOffsetVisitor_offsets.
  destruct (AddSourceOffsetVisitor_offsets self (object_attrs o)) as [a'|e] eqn:Ha;
    simpl hbind; [|exact I].
  apply AddSourceOffsetVisitor_offsets_node_id in Ha.
  set (h1 := alter (map_object_attrs (fun _ => a')) p h).
  assert (Hid1 : same_ids h h1).
  { apply same_ids_alter. intros o' Ho'. rewrite Ho in Ho'. injection Ho' as <-.
    rewrite <- Ha. destruct o; reflexivity. }
  assert (Hc1 : closed objs h1).
  { apply closed_alter_kids; [exact Hc|]. apply kids_map_object_attrs. }
  pose proof (heap_NodeTransformer_generic_visit_keeps _ objs IH p self h1 Hc1 Hp) as Hg.
  destruct (heap_NodeTransformer_generic_visit _ p self h1) as [[[p' self1] h2]|e];
    simpl in Hg |- *; [|exact I].
  destruct Hg as (Hid2 & Hc2 & Hp'). refine (conj _ (conj Hc2 Hp')).
  eapply same_ids_trans; eassumption.
Qed.

(** ** The entry point on objects *)

Lemma heap_preorder_closed_in fuel h (W : nat -> Prop) p vs :
  heap_preorder fuel h p = Some vs ->
  (forall k, k ∈ vs -> W k) ->
  p ∈ vs /\
  forall q, q ∈ vs -> exists o, h !! q = Some o /\ forall k, k ∈ kids o -> W k.
Proof.
  revert p vs. induction fuel as [|fuel IH]; intros p vs; simpl; [discriminate|].
  destruct (h !! p) as [o|] eqn:Ho; [|discriminate].
  destruct (heap_preorder_list (heap_preorder fuel h) (kids o)) as [ws|] eqn:Ews;
    [|discriminate].
  intros [= <-] HW.
  assert (Hlist : forall l ws, heap_preorder_list (heap_preorder fuel h) l = Some ws ->
    (forall k, k ∈ ws -> W k) ->
    (forall x, x ∈ l -> x ∈ ws) /\
    forall q, q ∈ ws -> exists o, h !! q = Some o /\ forall k, k ∈ kids o -> W k).
  { clear -IH. induction l as [|x xs IHl]; intros ws; simpl.
    - intros [= <-] _. split; intros k Hk; apply elem_of_nil in Hk; contradiction.
    - destruct (heap_preorder fuel h x) as [v|] eqn:Ex; [|discriminate].
      destruct (heap_preorder_list (heap_preorder fuel h) xs) as [v2|] eqn:Exs;
        [|discriminate].
      intros [= <-] HW.
      destruct (IH x v Ex) as (Hx & Hv).
      { intros k Hk. apply HW, elem_of_app. left. exact Hk. }
      destruct (IHl v2 eq_refl) as (Hxs & Hv2).
      { intros k Hk. apply HW, elem_of_app. right. exact Hk. }
      split.
      + intros y Hy. apply elem_of_app. apply elem_of_cons in Hy as [->|Hy]; auto.
      + intros k Hk. apply elem_of_app in Hk as [Hk|Hk]; auto. }
  destruct (Hlist (kids o) ws Ews) as (Hkids & Hws).
  { intros k Hk. apply HW, list_elem_of_further, Hk. }
  split; [apply list_elem_of_here|].
  intros q Hq. apply elem_of_cons in Hq as [->|Hq]; [|apply Hws, Hq].
  exists o. split; [exact Ho|]. intros k Hk. apply HW, list_elem_of_further, Hkids, Hk.
Qed.

(** The objects at the positions of a tree have their children at
    positions of the tree. *)
Lemma heap_preorder_closed fuel h p vs :
  heap_preorder fuel h p = Some vs -> p ∈ vs /\ closed vs h.
Proof.
  intros H. exact (heap_preorder_closed_in fuel h (fun k => k ∈ vs) p vs H (fun k Hk => Hk)).
Qed.

Lemma closed_same_skeleton objs h h' :
  same_skeleton h h' -> closed objs h -> closed objs h'.
Proof.
  intros Hsk Hc q Hq. destruct (Hc q Hq) as (o & Ho & Hk).
  destruct (same_skeleton_lookup _ _ _ _ Hsk Ho) as (o' & Ho' & Hs).
  exists o'. split; [exact Ho'|]. rewrite (skeleton_kids _ _ Hs). exact Hk.
Qed.

Lemma heap_ASTTokens_frame_same_ids ASTTokens text p h :
  heap_ASTTokens_frame ASTTokens -> same_ids h (ASTTokens text p h).
Proof.
  intros HA q. unfold node_id_at. destruct (HA text p h q) as (ft & lt & ->).
  destruct (h !! q) as [o|]; [|reflexivity]. destruct o; reflexivity.
Qed.

Lemma heap_ASTTokens_frame_closed ASTTokens text p h objs :
  heap_ASTTokens_frame ASTTokens -> closed objs h -> closed objs (ASTTokens text p h).
Proof.
  intros HA Hc q Hq. destruct (Hc q Hq) as (o & Ho & Hk).
  destruct (HA text p h q) as (ft & lt & ->). rewrite Ho. simpl.
  eexists. split; [reflexivity|]. rewrite kids_map_object_attrs. exact Hk.
Qed.

(** What a call of the entry point that returns has done, [vs] being
    the positions of the tree as the call found it. *)
Lemma heap_annotate_python_ast_inv ASTTokens fuel p text class_types source_id h h' :
  heap_ASTTokens_frame ASTTokens ->
  heap_annotate_python_ast ASTTokens fuel p text class_types source_id h = HOk h' ->
  exists vs,
    heap_preorder fuel h p = Some vs /\ numbered 0 vs h h' /\ closed vs h'.
Proof.
  intros HA. unfold heap_annotate_python_ast.
  destruct (heap_AnnotatingVisitor_visit fuel p _ h) as [[[p1 self1] h1]|e] eqn:E1;
    simpl hbind; [|discriminate].
  apply heap_AnnotatingVisitor_visit_inv in E1 as (vs & Hpre & _ & _ & Hsk1 & Hnum1).
  destruct (heap_preorder_closed _ _ _ _ Hpre) as (Hp & Hc).
  apply (closed_same_skeleton _ _ _ Hsk1) in Hc.
  pose proof (heap_RewriteUnarySubVisitor_visit_keeps vs fuel p mkRewriteUnarySubVisitor
                h1 Hc Hp) as H2.
  destruct (heap_RewriteUnarySubVisitor_visit fuel p _ h1) as [[[p2 self2] h2]|e];
    simpl in H2 |- *; [|discriminate].
  destruct H2 as (Hid2 & Hc2 & _).
  pose proof (heap_ASTTokens_frame_same_ids ASTTokens text p h2 HA) as Hid3.
  pose proof (heap_ASTTokens_frame_closed ASTTokens text p h2 vs HA Hc2) as Hc3.
  pose proof (heap_AddSourceOffsetVisitor_visit_keeps vs fuel p
                (mkAddSourceOffsetVisitor source_id) _ Hc3 Hp) as H4.
  destruct (heap_AddSourceOffsetVisitor_visit fuel p _ _) as [[[p4 self4] h4]|e];
    simpl in H4 |- *; [|discriminate].
  destruct H4 as (Hid4 & Hc4 & _). intros [= <-].
  exists vs. split; [exact Hpre|]. split; [|exact Hc4].
  eapply numbered_same_ids; [exact Hnum1|].
  eapply same_ids_trans; [exact Hid2|]. eapply same_ids_trans; eassumption.
Qed.

Lemma numbered_NoDup vs h h' :
  numbered 0 vs h h' -> NoDup vs ->
  node_id_at h' <$> vs = Some <$> seq 0 (length vs).
Proof.
  intros Hnum Hnd. apply list_eq. intros i. rewrite !list_lookup_fmap.
  destruct (vs !! i) as [q|] eqn:Hi; simpl.
  - rewrite (lookup_seq_lt _ _ _ (lookup_lt_Some _ _ _ Hi)). simpl. f_equal.
    rewrite Hnum, (last_index_NoDup _ _ _ Hnd Hi). reflexivity.
  - rewrite lookup_seq_ge; [reflexivity|]. apply lookup_ge_None. exact Hi.
Qed.

Lemma numbered_at c vs h h' q i :
  numbered c vs h h' -> last_index q vs = Some i -> node_id_at h' q = Some (c + i)%nat.
Proof. intros Hnum Hi. rewrite Hnum, Hi. reflexivity. Qed.

Lemma numbered_outside c vs h h' q :
  numbered c vs h h' -> q ∉ vs -> node_id_at h' q = node_id_at h q.
Proof. intros Hnum Hq. apply last_index_None in Hq. rewrite Hnum, Hq. reflexivity. Qed.

(** The sample token association writes tokens only. *)
Lemma heap_sample_ASTTokens_frame : heap_ASTTokens_frame heap_sample_ASTTokens.
Proof.
  intros text p h q. unfold heap_sample_ASTTokens. rewrite lookup_fmap.
  destruct (h !! q) as [o|]; simpl; [|exists None, None; reflexivity].
  destruct (lineno (object_attrs o)) as [l|] eqn:El;
    [destruct (col_offset (object_attrs o)) as [c|] eqn:Ec|].
  - exists (Some (mkToken (l, c) (l, c + 1) c (c + 1))),
           (Some (mkToken (l, c) (l, c + 1) c (c + 1))).
    f_equal. destruct o; simpl in *; rewrite El, Ec; reflexivity.
  - exists (first_token (object_attrs o)), (last_token (object_attrs o)).
    f_equal. destruct o as [[] ?|[] ? ?|[] ? ?|? [] ?]; simpl in *; rewrite El, Ec;
      reflexivity.
  - exists (first_token (object_attrs o)), (last_token (object_attrs o)).
    f_equal. destruct o as [[] ?|[] ? ?|[] ? ?|? [] ?]; simpl in *; rewrite El;
      reflexivity.
Qed.

(** The last call of a run starts from the store the calls before it
    left. *)
Lemma run_calls_snoc ASTTokens fuel calls c h h' :
  run_calls ASTTokens fuel (calls ++ [c]) h = HOk h' ->
  exists h1,
    run_calls ASTTokens fuel calls h = HOk h1 /\
    heap_annotate_python_ast ASTTokens fuel (call_ast c) (call_source_code c)
      (call_class_types c) (call_source_id c) h1 = HOk h'.
Proof.
  revert h. induction calls as [|c0 calls IH]; intros h; simpl.
  - destruct (heap_annotate_python_ast _ _ _ _ _ _ h) as [h1|e] eqn:E; simpl;
      [|discriminate].
    intros [= <-]. exists h. split; [reflexivity|exact E].
  - destruct (heap_annotate_python_ast _ _ _ _ _ _ h) as [h0|e]; simpl; [|discriminate].
    apply IH.
Qed.

(** ** The claims on node identifiers *)

(** C3 (counterexample).  On [a = b + c], whose two names that are read
    hold one [Load] object, pass 1 returns and the ten positions of the
    tree read 0, 1, 2, 3, 4, 5, 9, 7, 8, 9: no node carries 6, and 9 is
    read twice.  On a decorated function the statement of the body, on
    line 2, is numbered 2 and the decorator, on line 1, is numbered 3:
    the children are taken in field order, which is not source order. *)
Lemma C3_counterexample :
  match heap_AnnotatingVisitor_visit 10 0%nat (AnnotatingVisitor_init "a = b + c" None)
          heap_assign_sum with
  | HOk (_, _, h') =>
      heap_preorder 10 h' 0%nat = Some [0; 1; 2; 3; 4; 5; 6; 7; 8; 6]%nat /\
      node_id_at h' <$> [0; 1; 2; 3; 4; 5; 6; 7; 8; 6]%nat
      = Some <$> [0; 1; 2; 3; 4; 5; 9; 7; 8; 9]%nat
  | HRaise _ => False
  end /\
  match heap_AnnotatingVisitor_visit 10 0%nat (AnnotatingVisitor_init "@d
def f(): pass" None)
          heap_decorated_def with
  | HOk (_, _, h') =>
      position_at h' 2%nat = Some (2, 9) /\ node_id_at h' 2%nat = Some 2%nat /\
      position_at h' 3%nat = Some (1, 1) /\ node_id_at h' 3%nat = Some 3%nat
  | HRaise _ => False
  end.
Proof. vm_compute. repeat split. Qed.

(** C3 (amended).  Let the tree under [p] have the positions [vs] in
    pre-order, a node before its children and the children in field
    order, and let every constant be of a recognised kind.  Then pass 1
    returns, having counted the [length vs] positions and left the shape
    of the tree as it was; every object of the tree carries as [node_id]
    the index of the last position it sits at, an object outside the
    tree carries what it carried, and when no object sits at two
    positions the [node_id] read in pre-order are 0, 1, ..., N-1. *)
Theorem C3_node_id_is_last_preorder_position fuel h p vs text class_types :
  heap_preorder fuel h p = Some vs ->
  forallb (heap_supported h) vs = true ->
  exists h',
    heap_AnnotatingVisitor_visit fuel p (AnnotatingVisitor_init text class_types) h
    = HOk (p, advance (AnnotatingVisitor_init text class_types) (length vs), h') /\
    heap_preorder fuel h' p = Some vs /\
    (forall q, q ∈ vs ->
       exists i, last_index q vs = Some i /\ node_id_at h' q = Some i) /\
    (forall q, q ∉ vs -> node_id_at h' q = node_id_at h q) /\
    (NoDup vs -> node_id_at h' <$> vs = Some <$> seq 0 (length vs)).
Proof.
  intros Hpre Hsup.
  destruct (heap_AnnotatingVisitor_visit_returns fuel p
              (AnnotatingVisitor_init text class_types) h vs Hpre Hsup)
    as (h' & Hv & Hsk & Hnum).
  exists h'. split; [exact Hv|]. split; [|split; [|split]].
  - rewrite (heap_preorder_same_skeleton _ _ _ _ Hsk). exact Hpre.
  - intros q Hq. destruct (last_index_elem_of _ _ Hq) as (i & Hi). exists i.
    split; [exact Hi|]. exact (numbered_at _ _ _ _ _ _ Hnum Hi).
  - intros q Hq. exact (numbered_outside _ _ _ _ _ Hnum Hq).
  - intros Hnd. exact (numbered_NoDup _ _ _ Hnum Hnd).
Qed.

(** C3 amended, on [x = -3], a tree of seven positions and seven
    objects. *)
Lemma C3_witness :
  exists h',
    heap_AnnotatingVisitor_visit 10 20%nat (AnnotatingVisitor_init "x = -3" None)
      heap_assign_neg3
    = HOk (20%nat, advance (AnnotatingVisitor_init "x = -3" None) 7, h') /\
    heap_preorder 10 h' 20%nat = Some [20; 21; 22; 23; 24; 25; 26]%nat /\
    (forall q, q ∈ [20; 21; 22; 23; 24; 25; 26]%nat ->
       exists i, last_index q [20; 21; 22; 23; 24; 25; 26]%nat = Some i /\
                 node_id_at h' q = Some i) /\
    (forall q, q ∉ [20; 21; 22; 23; 24; 25; 26]%nat ->
       node_id_at h' q = node_id_at heap_assign_neg3 q) /\
    (NoDup [20; 21; 22; 23; 24; 25; 26]%nat ->
     node_id_at h' <$> [20; 21; 22; 23; 24; 25; 26]%nat = Some <$> seq 0 7).
Proof.
  apply (C3_node_id_is_last_preorder_position 10 heap_assign_neg3 20%nat
           [20; 21; 22; 23; 24; 25; 26]%nat "x = -3" None); reflexivity.
Defined.

Section HeapAnnotateProperties.
Variable ASTTokens : string -> nat -> gmap nat object -> gmap nat object.
Hypothesis ASTTokens_writes_tokens : heap_ASTTokens_frame ASTTokens.


End HeapAnnotateProperties.





(** The store and the tree agree where no object sits at two positions:
    the tree read from the store after the call on [x = -3] is the tree
    the call on [tree_assign_neg3] leaves, and so it is for
    [tree_classes] under a table of class types. *)
Example heap_annotate_python_ast_assign_neg3 :
  match heap_annotate_python_ast heap_sample_ASTTokens 10 20%nat "x = -3" None 0
          heap_assign_neg3 with
  | HOk h' => heap_load 10 h' 20%nat
  | HRaise _ => None
  end
  = match annotate_python_ast sample_ASTTokens tree_assign_neg3 "x = -3" None 0 with
    | Ok t => Some t
    | Raise _ => None
    end.
Proof. vm_compute. reflexivity. Qed.

Example heap_annotate_python_ast_classes :
  match heap_annotate_python_ast heap_sample_ASTTokens 10 30%nat "class Foo: ..."
          (Some {[ "Foo" := "contract" ]}) 0 heap_classes with
  | HOk h' => heap_load 10 h' 30%nat
  | HRaise _ => None
  end
  = match annotate_python_ast sample_ASTTokens tree_classes "class Foo: ..."
            (Some {[ "Foo" := "contract" ]}) 0 with
    | Ok t => Some t
    | Raise _ => None
    end.
Proof. vm_compute. reflexivity. Qed.
